(** * nimsdata/nimsphysio.py: the regressor engine [NIMSPhysio.compute_regressors]

    A shallow embedding of the RETROICOR / RVHRCOR regressor computation,
    with the parts of the class around it: the slice order that [__init__]
    infers, the time shift at the end of [read_ge_data], and the file that
    [write_regressors] writes. The reading of the archive, [denoise_image]
    and the heuristics of [is_valid] are not modelled.

    Number model.  The program computes with IEEE doubles; this development
    replaces them by exact numbers: rationals ([Q]) wherever the source only
    adds, multiplies, divides, compares, floors or rounds (timing, triggers,
    respiration samples, heart rate), and reals ([R]) where it calls a
    transcendental function (pi, cos, sin, exp, powers, square roots).
    Rounding error, NaN and infinities are therefore outside the model: a
    division by zero, which numpy answers with nan or inf and a warning,
    has the value the library gives to [x / 0].

    The engine takes [tr] as a float, for which [self.tr/nslc] is a true
    division. What Python 2 makes of that quotient when [tr] is an int, as
    the default [tr=2] is, is modelled apart by [slice_times_py2]. *)

From Stdlib Require Import String Ascii DecimalString.
From Stdlib Require Import List ZArith QArith Qround Qreals Reals.
From Stdlib Require Import Lia Lra Lqa Permutation Sorted Bool Arith.
Import ListNotations.

Local Open Scope Q_scope.

Ltac qlra := Lqa.lra.
Ltac rlra := Lra.lra.
Ltac qnra := Lqa.nra.
Ltac rnra := Lra.nra.

(** ** Exceptions and results *)

(** [NIMSPhysioError] is the only exception class the module defines; the
    other two are the builtin exceptions the numpy calls raise. *)
Inductive exn : Type :=
| NIMSPhysioError (msg : string)
| IndexError
| ValueError.

(** A computation that either raises ([inl]) or returns ([inr]). *)
Definition res (A : Type) : Type := (exn + A)%type.

Definition bind {A B} (c : res A) (f : A -> res B) : res B :=
  match c with
  | inl e => inl e
  | inr a => f a
  end.

Notation "x <- c ;; k" := (bind c (fun x => k))
  (at level 61, c at next level, right associativity).

Definition is_physio_error (e : exn) : Prop :=
  match e with
  | NIMSPhysioError _ => True
  | _ => False
  end.

(** ** The numpy and Python primitives the method uses *)

Module Np.

Definition Qltb (x y : Q) : bool := negb (Qle_bool y x).

Definition Qabs' (x : Q) : Q := if Qle_bool 0 x then x else - x.

(** [np.arange(start, stop, step)]: [ceil((stop - start)/step)] samples
    [start + i*step]. *)
Definition arange (start stop step : Q) : list Q :=
  map (fun i => start + inject_Z (Z.of_nat i) * step)
      (seq 0 (Z.to_nat (Qceiling ((stop - start) / step)))).

(** [np.nonzero(mask)[0]]: the indices at which [mask] holds, ascending. *)
Fixpoint nonzero_from (i : nat) (mask : list bool) : list nat :=
  match mask with
  | [] => []
  | b :: m => if b then i :: nonzero_from (S i) m else nonzero_from (S i) m
  end.

Definition nonzero (mask : list bool) : list nat := nonzero_from 0 mask.

(** [a[0]] and [a[-1]] on an index array. *)
Definition first (l : list nat) : res nat :=
  match l with
  | [] => inl IndexError
  | i :: _ => inr i
  end.

Definition last_index (l : list nat) : res nat :=
  match rev l with
  | [] => inl IndexError
  | i :: _ => inr i
  end.

(** [a[i]] with an integer index: negative indices count from the end. *)
Definition getitem {A} (l : list A) (i : Z) : res A :=
  let n := Z.of_nat (length l) in
  let j := if (i <? 0)%Z then (i + n)%Z else i in
  if ((0 <=? j) && (j <? n))%Z
  then match nth_error l (Z.to_nat j) with
       | Some x => inr x
       | None => inl IndexError
       end
  else inl IndexError.

Definition getnat {A} (l : list A) (i : nat) : res A :=
  match nth_error l i with
  | Some x => inr x
  | None => inl IndexError
  end.

(** [a[i1:i2]] for [0 <= i1]; a negative stop counts from the end. *)
Definition slice {A} (l : list A) (i1 i2 : Z) : list A :=
  let n := Z.of_nat (length l) in
  let hi := if (i2 <? 0)%Z then Z.max 0 (i2 + n) else Z.min i2 n in
  let lo := Z.min i1 n in
  firstn (Z.to_nat (hi - lo)) (skipn (Z.to_nat lo) l).

(** [np.round]: to the nearest integer, ties to the even one. *)
Definition round (x : Q) : Z :=
  let f := Qfloor x in
  match Qcompare (x - inject_Z f) (1 # 2) with
  | Lt => f
  | Gt => (f + 1)%Z
  | Eq => if Z.even f then f else (f + 1)%Z
  end.

(** [a.min()], [a.max()]: [ValueError] on an empty array. *)
Definition Qminimum (x y : Q) : Q := if Qle_bool x y then x else y.
Definition Qmaximum (x y : Q) : Q := if Qle_bool x y then y else x.

Definition amin (l : list Q) : res Q :=
  match l with
  | [] => inl ValueError
  | x :: l' => inr (fold_left Qminimum l' x)
  end.

Definition amax (l : list Q) : res Q :=
  match l with
  | [] => inl ValueError
  | x :: l' => inr (fold_left Qmaximum l' x)
  end.

(** [a.argmin()]: the first index of the least element. *)
Fixpoint argmin_from (best : Q) (besti i : nat) (l : list Q) : nat :=
  match l with
  | [] => besti
  | x :: l' =>
      if Qltb x best then argmin_from x i (S i) l'
      else argmin_from best besti (S i) l'
  end.

Definition argmin (l : list Q) : res nat :=
  match l with
  | [] => inl ValueError
  | x :: l' => inr (argmin_from x 0 1 l')
  end.

(** [np.linspace(a, b, num)] *)
Definition linspace (a b : Q) (num : nat) : list Q :=
  map (fun i => a + inject_Z (Z.of_nat i) * ((b - a) / inject_Z (Z.of_nat (num - 1))))
      (seq 0 num).

Definition count {A} (p : A -> bool) (l : list A) : nat :=
  length (filter p l).

(** Membership of a sample in bin [k] of [nbins]: every bin is half-open
    except the last, which includes its right edge. *)
Definition in_bin (edges : list Q) (nbins k : nat) (x : Q) : bool :=
  let lo := nth k edges 0 in
  let hi := nth (S k) edges 0 in
  Qle_bool lo x && (Qltb x hi || (Nat.eqb (S k) nbins && Qle_bool x hi)).

(** [np.histogram(a, nbins)]: counts and the [nbins + 1] edges, over the
    range of the data (widened by a half on each side when it is a single
    point, [(0, 1)] for no data). *)
Definition histogram (a : list Q) (nbins : nat) : list nat * list Q :=
  let '(mn, mx) :=
    match amin a, amax a with
    | inr mn, inr mx =>
        if Qeq_bool mn mx then (mn - (1 # 2), mx + (1 # 2)) else (mn, mx)
    | _, _ => (0, 1)
    end in
  let edges := linspace mn mx (S nbins) in
  (map (fun k => count (in_bin edges nbins k) a) (seq 0 nbins), edges).

Definition sum_nat (l : list nat) : nat := fold_right Nat.add 0%nat l.

Definition Qsum (l : list Q) : Q := fold_right Qplus 0 l.

Definition Qmean (l : list Q) : Q := Qsum l / inject_Z (Z.of_nat (length l)).

(** Real-valued helpers. *)
Definition Rsum (l : list R) : R := fold_right Rplus 0%R l.

Definition Rmean (l : list R) : R := (Rsum l / INR (length l))%R.

(** [np.std]: the population standard deviation. *)
Definition std (l : list Q) : R :=
  let m := Qmean l in
  sqrt (Q2R (Qmean (map (fun x => (x - m) * (x - m)) l))).

(** [np.sign] *)
Definition sign (x : R) : R :=
  if Rlt_dec 0 x then 1%R else if Rlt_dec x 0 then (-1)%R else 0%R.

(** [np.diff] *)
Fixpoint diff (l : list R) : list R :=
  match l with
  | x :: (y :: _) as l' => (y - x)%R :: diff l'
  | _ => []
  end.

(** [a.max()] on reals. *)
Definition Ramax (l : list R) : res R :=
  match l with
  | [] => inl ValueError
  | x :: l' => inr (fold_left Rmax l' x)
  end.

(** [np.convolve(a, v)[0:n]]: sample [k] of the full convolution is
    [sum_{j <= k} a[j] * v[k - j]], with samples outside an array
    counting as zero. *)
Definition convolve_at (a v : list R) (k : nat) : R :=
  Rsum (map (fun j => (nth j a 0 * nth (k - j) v 0)%R) (seq 0 (S k))).

Definition convolve_head (a v : list R) (n : nat) : list R :=
  map (convolve_at a v) (seq 0 (Nat.min n (length a + length v - 1))).

End Np.

(** The 0/1 value of a test, for counting arguments. *)
Definition indicator (b : bool) : nat := if b then 1%nat else 0%nat.

(** ** Loops over mutable arrays

    A loop body is a state transformer that either falls through or raises;
    the state it leaves behind is kept in both cases, as the arrays the
    Python loops fill in place are. *)

Definition step (S : Type) : Type := S -> S * option exn.

Fixpoint for_in {S} (l : list nat) (body : nat -> step S) : step S :=
  fun s =>
    match l with
    | [] => (s, None)
    | i :: l' =>
        match body i s with
        | (s1, None) => for_in l' body s1
        | (s1, Some e) => (s1, Some e)
        end
    end.

(** [for i in range(n): body] *)
Definition for_range {S} (n : nat) (body : nat -> step S) : step S :=
  for_in (seq 0 n) body.

(** Run a fallible expression, then write its value into the state. *)
Definition assign {S A} (c : res A) (write : A -> S -> S) : step S :=
  fun s =>
    match c with
    | inl e => (s, Some e)
    | inr a => (write a s, None)
    end.

(** ** Arrays as nested lists

    A numpy array of fixed shape is a nested list. The method assigns to a
    slice of an array only values of that slice's shape (numpy raises on
    any other); the assignments below pair the two element by element. *)

(** [a[i] = f(a[i])]; the loops below only write inside the shape the
    array was allocated with. *)
Fixpoint update_nth {A} (i : nat) (f : A -> A) (l : list A) : list A :=
  match l, i with
  | [], _ => []
  | x :: l', O => f x :: l'
  | x :: l', S i' => x :: update_nth i' f l'
  end.

Definition set_nth {A} (i : nat) (x : A) (l : list A) : list A :=
  update_nth i (fun _ => x) l.

(** [np.zeros((n, m))] and [np.zeros((n, m, k))] *)
Definition zeros1 {A} (z : A) (n : nat) : list A := repeat z n.
Definition zeros2 {A} (z : A) (n m : nat) : list (list A) := repeat (zeros1 z m) n.
Definition zeros3 {A} (z : A) (n m k : nat) : list (list (list A)) :=
  repeat (zeros2 z m k) n.

(** [T[i, j, :] = v] *)
Definition set_row {A} (i j : nat) (v : list A) (T : list (list (list A)))
  : list (list (list A)) :=
  update_nth i (set_nth j v) T.

(** [T[:, j, k]] *)
Definition get_col (T : list (list (list R))) (j k : nat) : list R :=
  map (fun row => nth k (nth j row []) 0%R) T.

(** [T[:, j, k] = v] *)
Definition set_col {A} (j k : nat) (v : list A) (T : list (list (list A)))
  : list (list (list A)) :=
  map (fun iv => update_nth j (set_nth k (snd iv)) (fst iv)) (combine T v).

(** [M[:, k] = v] *)
Definition set_col2 {A} (k : nat) (v : list A) (M : list (list A)) : list (list A) :=
  map (fun iv => set_nth k (snd iv) (fst iv)) (combine M v).

(** [T[:, :, k] = M] *)
Definition set_plane {A} (k : nat) (M : list (list A)) (T : list (list (list A)))
  : list (list (list A)) :=
  map (fun rm => set_col2 k (snd rm) (fst rm)) (combine T M).

(** [np.array(rows).transpose()] for rows of length [n] *)
Definition transpose (n : nat) (rows : list (list R)) : list (list R) :=
  map (fun i => map (fun row => nth i row 0%R) rows) (seq 0 n).

(** Shapes: [n] rows of length [m]; [n] planes of [m] rows of length [k]. *)
Definition shape2 {A} (n m : nat) (M : list (list A)) : Prop :=
  length M = n /\ Forall (fun row => length row = m) M.

Definition shape3 {A} (n m k : nat) (T : list (list (list A))) : Prop :=
  length T = n /\ Forall (shape2 m k) T.

(** [M[:, k]] *)
Definition column {A} (d : A) (M : list (list A)) (k : nat) : list A :=
  map (fun row => nth k row d) M.

(** ** The object: the attributes [__init__] creates

    The record holds the attributes [compute_regressors] reads or writes,
    in the order [__init__] assigns them; the validity thresholds, the
    time axes and the session metadata, which the method never touches,
    are left out. *)

(** What the method emits: [self.log.warning(msg)] or [print(msg)]. *)
Inductive output : Type :=
| LogWarning (msg : string)
| Printed (msg : string).

Record NIMSPhysio : Type := mkNIMSPhysio {
  log : bool;                          (* whether a logger was given *)
  tr : Q;
  nframes : nat;
  nslices : nat;
  slice_order : list nat;
  card_wave : list Q;
  card_trig : list Q;
  card_dt : Q;
  heart_rate : option (list (list Q));           (* [nframes, nslc] *)
  resp_wave : list Q;
  resp_dt : Q;
  regressors : option (list (list (list R)));    (* [nframes, 12, nslc] *)
  phases : option (list (list (list R)));        (* [nslc, nframes, 2] *)
  scan_duration : Q
}.

Definition set_resp_wave (v : list Q) (self : NIMSPhysio) : NIMSPhysio :=
  mkNIMSPhysio (log self) (tr self) (nframes self) (nslices self) (slice_order self)
    (card_wave self) (card_trig self) (card_dt self) (heart_rate self)
    v (resp_dt self) (regressors self) (phases self) (scan_duration self).

Definition set_heart_rate (v : option (list (list Q))) (self : NIMSPhysio) : NIMSPhysio :=
  mkNIMSPhysio (log self) (tr self) (nframes self) (nslices self) (slice_order self)
    (card_wave self) (card_trig self) (card_dt self) v
    (resp_wave self) (resp_dt self) (regressors self) (phases self) (scan_duration self).

Definition set_regressors (v : option (list (list (list R)))) (self : NIMSPhysio)
  : NIMSPhysio :=
  mkNIMSPhysio (log self) (tr self) (nframes self) (nslices self) (slice_order self)
    (card_wave self) (card_trig self) (card_dt self) (heart_rate self)
    (resp_wave self) (resp_dt self) v (phases self) (scan_duration self).

Definition set_phases (v : option (list (list (list R)))) (self : NIMSPhysio)
  : NIMSPhysio :=
  mkNIMSPhysio (log self) (tr self) (nframes self) (nslices self) (slice_order self)
    (card_wave self) (card_trig self) (card_dt self) (heart_rate self)
    (resp_wave self) (resp_dt self) (regressors self) v (scan_duration self).

Definition QofNat (n : nat) : Q := inject_Z (Z.of_nat n).

(** [range(0, n, 2) + range(1, n, 2)]: the interleaved order [__init__]
    infers when no slice order is given. *)
Definition interleaved (n : nat) : list nat :=
  filter Nat.even (seq 0 n) ++ filter Nat.odd (seq 0 n).

(** [__init__], without the file reading: the timing attributes and the
    derived ones, which start unset. The recordings are what [read_ge_data]
    stored. *)
Definition init (tr : Q) (nframes nslices : nat) (slice_order : option (list nat))
    (log : bool) (card_dt resp_dt : Q) (card_wave card_trig resp_wave : list Q)
  : NIMSPhysio :=
  let '(n, order) := match slice_order with
                     | None => (nslices, interleaved nslices)
                     | Some o => (length o, o)
                     end in
  mkNIMSPhysio log tr nframes n order
    card_wave card_trig card_dt None resp_wave resp_dt None None
    (QofNat nframes * tr).

(** The object the constructor builds from its default timing arguments
    ([tr=2, nframes=100, nslices=1], no slice order, no logger) and the
    given recordings. *)
Definition default_physio (card_trig resp_wave : list Q) : NIMSPhysio :=
  init 2 100 1 None false (1 # 100) (4 # 100) [] card_trig resp_wave.

(** [self.resp_wave = self.resp_wave - self.resp_wave.min()] *)
Definition shift_resp (mn : Q) (self : NIMSPhysio) : NIMSPhysio :=
  set_resp_wave (map (fun x => x - mn) (resp_wave self)) self.

(** Stand-ins for the two SciPy functions, to run the method on concrete
    recordings: a filter that passes its input through. *)
Definition firwin_none : nat -> R -> list R := fun _ _ => [1%R].
Definition filtfilt_none : list R -> list R -> list R -> list R :=
  fun _ _ x => x.

(** The inputs the engine is meant for: a positive [tr], the scan duration
    [__init__] computes, a slice order that is a permutation of
    [0, nslices), and at least two respiration samples; the zero-phase
    filter returns as many samples as it is given. *)
Definition ScanInputs (filtfilt : list R -> list R -> list R -> list R)
    (self : NIMSPhysio) : Prop :=
  (forall b a x, length (filtfilt b a x) = length x) /\
  0 < tr self /\
  scan_duration self == QofNat (nframes self) * tr self /\
  Permutation (slice_order self) (seq 0 (length (slice_order self))) /\
  (2 <= length (resp_wave self))%nat.

(** Scenario A: one slice, [tr = 2], ten frames, a cardiac trigger every
    second from 0 to 20 s; and a respiration recording of 500 samples at
    the default 25 Hz, which covers the scan. *)
Definition scenario_A : NIMSPhysio :=
  init 2 10 1 (Some [0%nat]) false (1 # 100) (4 # 100) []
       (map QofNat (seq 0 21))
       (map (fun i => QofNat (i mod 7)) (seq 0 500)).

(** ** Timing *)

(** [t_win = 6 * 0.5] *)
Definition t_win : Q := 6 * (1 # 2).

(** [(sl==self.slice_order).nonzero()[0][0]] *)
Definition cur_slice_acq (order : list nat) (sl : nat) : res nat :=
  Np.first (Np.nonzero (map (Nat.eqb sl) order)).

(** [np.arange((self.tr/nslc)*(cur_slice_acq+0.5), self.scan_duration, self.tr)] *)
Definition slice_times (self : NIMSPhysio) (nslc cur : nat) : list Q :=
  Np.arange ((tr self / QofNat nslc) * (QofNat cur + (1 # 2)))
            (scan_duration self) (tr self).

(** [t = np.arange(0, 40-self.tr, self.tr)] *)
Definition response_grid (self : NIMSPhysio) : list Q :=
  Np.arange 0 (40 - tr self) (tr self).

(** ** Phases *)

(** Cardiac phase of one acquisition time [t = slice_times[fr]]. *)
Definition prev_trigs (self : NIMSPhysio) (t : Q) : list nat :=
  Np.nonzero (map (fun c => Np.Qltb c t) (card_trig self)).

Definition next_trigs (self : NIMSPhysio) (t : Q) : list nat :=
  Np.nonzero (map (fun c => Np.Qltb t c) (card_trig self)).

Definition trig_t1 (self : NIMSPhysio) (t : Q) : res Q :=
  match prev_trigs self t with
  | [] => inr 0
  | p => i <- Np.last_index p ;; Np.getnat (card_trig self) i
  end.

Definition trig_t2 (self : NIMSPhysio) (t : Q) : res Q :=
  match next_trigs self t with
  | [] => inr (QofNat (nframes self) * tr self)
  | p => i <- Np.first p ;; Np.getnat (card_trig self) i
  end.

Definition phi_cardiac (self : NIMSPhysio) (t : Q) : res R :=
  t1 <- trig_t1 self t ;;
  t2 <- trig_t2 self t ;;
  inr (Q2R ((t - t1) * 2) * PI / Q2R (t2 - t1))%R.

(** Respiratory phase of one acquisition time, from the histogram [Hb],
    [bins] of the shifted waveform and the filtered waveform. *)
Definition iphys (self : NIMSPhysio) (drdt : list R) (t : Q) : Z :=
  Z.min (Z.max 0 (Np.round (t / resp_dt self))) (Z.of_nat (length drdt) - 1).

Definition phi_resp (self : NIMSPhysio) (Hb : list nat) (bins : list Q)
    (respfilt drdt : list R) (t : Q) : res R :=
  let i := iphys self drdt t in
  amp <- Np.getitem (resp_wave self) i ;;
  let dbins := map (fun b => Np.Qabs' (amp - b)) bins in
  thisBin <- Np.argmin dbins ;;
  let numer := Np.sum_nat (firstn thisBin Hb) in
  d <- Np.getitem drdt i ;;
  inr (PI * Np.sign d * (INR numer / INR (length respfilt)))%R.

(** The pair [[phi_cardiac, phi_resp]] of frame [fr] of a slice whose
    acquisition times are [times]. *)
Definition phase_pair (self : NIMSPhysio) (Hb : list nat) (bins : list Q)
    (respfilt drdt : list R) (times : list Q) (fr : nat) : res (list R) :=
  t <- Np.getnat times fr ;;
  pc <- phi_cardiac self t ;;
  pr <- phi_resp self Hb bins respfilt drdt t ;;
  inr [pc; pr].

(** What entry [(sl, fr)] of the phase tensor [P] holds once the phase loop
    has written it: the pair computed for frame [fr] at the acquisition
    position of slice [sl]. *)
Definition phase_stored (self : NIMSPhysio) (Hb : list nat) (bins : list Q)
    (respfilt drdt : list R) (nslc : nat) (P : list (list (list R)))
    (sl fr : nat) : Prop :=
  exists cur v,
    cur_slice_acq (slice_order self) sl = inr cur /\
    phase_pair self Hb bins respfilt drdt (slice_times self nslc cur) fr = inr v /\
    nth fr (nth sl P []) [] = v.

(** ** Response functions *)

(** [x**y] for [x >= 0] and [y > 0]. *)
Definition fpow (x y : R) : R :=
  if Req_dec_T x 0 then 0%R else Rpower x y.

(** [scipy.stats.norm.pdf(x, loc, scale)] *)
Definition norm_pdf (x loc scale : R) : R :=
  (exp (- (((x - loc) / scale) * ((x - loc) / scale)) / 2) / (scale * sqrt (2 * PI)))%R.

(** [0.6 * (t**2.1) * np.exp(-t/1.6) - 0.0023 * (t**3.54) * np.exp(-t/4.25)] *)
Definition RRF (t : R) : R :=
  (6 / 10 * fpow t (21 / 10) * exp (- t / (16 / 10))
   - 23 / 10000 * fpow t (354 / 100) * exp (- t / (425 / 100)))%R.

(** [0.6 * (t**2.7) * np.exp(-t/1.6) - 16 * scipy.stats.norm.pdf(t, 12, 3)] *)
Definition CRF (t : R) : R :=
  (6 / 10 * fpow t (27 / 10) * exp (- t / (16 / 10)) - 16 * norm_pdf t 12 3)%R.

(** [X / X.max()] *)
Definition normalize_max (l : list R) : res (list R) :=
  m <- Np.Ramax l ;; inr (map (fun r => (r / m)%R) l).

(** Demean, convolve with the normalized response, keep the first
    [x.size] samples, and prepend the first difference to the differences:
    the pair [(x_f, x_f_d)]. *)
Definition response_regressors (f : R -> R) (x : list R) (t : list Q)
  : res (list R * list R) :=
  let x' := map (fun v => (v - Np.Rmean x)%R) x in
  X <- normalize_max (map (fun q => f (Q2R q)) t) ;;
  let x_f := Np.convolve_head x' X (length x') in
  let d := Np.diff x_f in
  d0 <- Np.getnat d 0 ;;
  inr (x_f, d0 :: d).

(** ** The RV and HR series of one slice *)

Definition rv_i1 (self : NIMSPhysio) (t : Q) : Z :=
  Z.max 0 (Qfloor ((t - t_win) / resp_dt self)).

Definition rv_i2 (self : NIMSPhysio) (t : Q) : Z :=
  Z.min (Z.of_nat (length (resp_wave self))) (Qfloor ((t + t_win) / resp_dt self)).

Definition resp_short : exn :=
  NIMSPhysioError "Respiration data is shorter than the scan duration.".

Definition card_mismatch : exn :=
  NIMSPhysioError "Cardiac trigger times do not match scan duration.".

Definition rv_frame (self : NIMSPhysio) (times : list Q) (tp : nat) : step (list R) :=
  fun rv =>
    match Np.getnat times tp with
    | inl e => (rv, Some e)
    | inr t =>
        let i1 := rv_i1 self t in
        let i2 := rv_i2 self t in
        if (i2 <? i1)%Z then (rv, Some resp_short)
        else (set_nth tp (Np.std (Np.slice (resp_wave self) i1 i2)) rv, None)
    end.

(** The triggers inside [slice_time - t_win, slice_time + t_win]. *)
Definition inds (self : NIMSPhysio) (t : Q) : list nat :=
  Np.nonzero (map (fun c => Qle_bool (t - t_win) c && Qle_bool c (t + t_win))
                  (card_trig self)).

(** [(inds[-1] - inds[0]) * 60. / (card_trig[inds[-1]] - card_trig[inds[0]])] *)
Definition window_bpm (self : NIMSPhysio) (p : list nat) : res Q :=
  i0 <- Np.first p ;;
  il <- Np.last_index p ;;
  c0 <- Np.getnat (card_trig self) i0 ;;
  cl <- Np.getnat (card_trig self) il ;;
  inr (inject_Z (Z.of_nat il - Z.of_nat i0) * 60 / (cl - c0)).

Definition hr_frame (self : NIMSPhysio) (times : list Q) (tp : nat) : step (list Q) :=
  fun hr =>
    match Np.getnat times tp with
    | inl e => (hr, Some e)
    | inr t =>
        match inds self t with
        | [] =>
            if (0 <? tp)%nat
            then assign (Np.getnat hr (tp - 1)) (set_nth tp) hr
            else (hr, Some card_mismatch)
        | p => assign (window_bpm self p) (set_nth tp) hr
        end
    end.

(** The two conditions under which the RVHR loop raises, for slice [sl]:
    (a) some frame has an RV window whose upper index bound is below its
    lower bound; (b) frame 0 has no trigger inside its window. *)
Definition rv_window_short (self : NIMSPhysio) (sl : nat) : Prop :=
  exists cur tp t,
    cur_slice_acq (slice_order self) sl = inr cur /\
    (tp < nframes self)%nat /\
    Np.getnat (slice_times self (length (slice_order self)) cur) tp = inr t /\
    (rv_i2 self t < rv_i1 self t)%Z.

Definition no_trigger_at_start (self : NIMSPhysio) (sl : nat) : Prop :=
  exists cur t,
    cur_slice_acq (slice_order self) sl = inr cur /\
    Np.getnat (slice_times self (length (slice_order self)) cur) 0 = inr t /\
    inds self t = [].

(** What entry [tp] of a heart-rate series [hr] holds for the frame times
    [times]: the rate over the triggers of the window, or, when the window
    is empty and the frame is not the first, the entry before it. *)
Definition hr_entry_ok (self : NIMSPhysio) (times hr : list Q) (tp : nat) : Prop :=
  exists t,
    Np.getnat times tp = inr t /\
    match inds self t with
    | [] => (0 < tp)%nat /\ nth tp hr 0 = nth (tp - 1) hr 0
    | p => window_bpm self p = inr (nth tp hr 0)
    end.

(** ** Detrending *)

(** [np.polyfit(x, y, 2)]: the least-squares quadratic, as the solution of
    the normal equations (Cramer's rule on the 3 x 3 moment matrix);
    coefficients are returned highest power first, as numpy does. *)
Definition moment (k : nat) (x : list R) : R :=
  Np.Rsum (map (fun xi => xi ^ k)%R x).

Definition moment_y (k : nat) (x y : list R) : R :=
  Np.Rsum (map (fun xy => (fst xy ^ k * snd xy)%R) (combine x y)).

Definition det3 (a b c d e f g h i : R) : R :=
  (a * (e * i - f * h) - b * (d * i - f * g) + c * (d * h - e * g))%R.

Definition gram_det (x : list R) : R :=
  det3 (moment 0 x) (moment 1 x) (moment 2 x)
       (moment 1 x) (moment 2 x) (moment 3 x)
       (moment 2 x) (moment 3 x) (moment 4 x).

Definition polyfit2 (x y : list R) : R * R * R :=
  let s0 := moment 0 x in let s1 := moment 1 x in let s2 := moment 2 x in
  let s3 := moment 3 x in let s4 := moment 4 x in
  let b0 := moment_y 0 x y in let b1 := moment_y 1 x y in
  let b2 := moment_y 2 x y in
  let D := gram_det x in
  let c0 := (det3 b0 s1 s2  b1 s2 s3  b2 s3 s4 / D)%R in
  let c1 := (det3 s0 b0 s2  s1 b1 s3  s2 b2 s4 / D)%R in
  let c2 := (det3 s0 s1 b0  s1 s2 b1  s2 s3 b2 / D)%R in
  (c2, c1, c0).

(** [np.polyval(p, x)] at one point. *)
Definition polyval2 (p : R * R * R) (xi : R) : R :=
  let '(c2, c1, c0) := p in ((c2 * xi + c1) * xi + c0)%R.

(** [y - np.polyval(np.polyfit(x, y, 2), x)] *)
Definition detrend_col (x y : list R) : list R :=
  let p := polyfit2 x y in
  map (fun xy => (snd xy - polyval2 p (fst xy))%R) (combine x y).

(** [np.arange(n)] as reals. *)
Definition frame_index (n : nat) : list R := map INR (seq 0 n).

Definition detrend_reg (x : list R) (sl reg : nat) : step (list (list (list R))) :=
  fun T => (set_col reg sl (detrend_col x (get_col T reg sl)) T, None).

Definition detrend_slice (sl : nat) : step (list (list (list R))) :=
  fun T => for_range (length (hd [] T)) (detrend_reg (frame_index (length T)) sl) T.

(** [np.concatenate((A, B), axis=1)] *)
Definition concatenate1 {A} (X Y : list (list A)) : list (list A) :=
  map (fun xy => fst xy ++ snd xy) (combine X Y).

(** The state of the detrending loops when they reach slice [sl] and
    column [reg] of an array that started as [T0], of shape [n, m, c]:
    columns with [sl' < sl], or [sl' = sl] and [reg' < reg], are detrended;
    the others are as in [T0]. *)
Definition detrend_inv (n m c : nat) (T0 : list (list (list R)))
    (sl reg : nat) (T : list (list (list R))) : Prop :=
  shape3 n m c T /\
  forall reg' sl', (reg' < m)%nat -> (sl' < c)%nat ->
    ((sl' < sl \/ (sl' = sl /\ reg' < reg))%nat ->
       get_col T reg' sl' = detrend_col (frame_index n) (get_col T0 reg' sl')) /\
    (~ (sl' < sl \/ (sl' = sl /\ reg' < reg))%nat ->
       get_col T reg' sl' = get_col T0 reg' sl').

(** ** The Fourier expansion of one slice's phases *)

Definition retroicor_covs (P : list (list (list R))) (sl : nat) : list (list R) :=
  let phi_c := map (fun v => nth 0 v 0%R) (nth sl P []) in
  let phi_r := map (fun v => nth 1 v 0%R) (nth sl P []) in
  [ map cos phi_c; map sin phi_c;
    map (fun p => cos (2 * p)) phi_c; map (fun p => sin (2 * p)) phi_c;
    map cos phi_r; map sin phi_r;
    map (fun p => cos (2 * p)) phi_r; map (fun p => sin (2 * p)) phi_r ].

Definition retroicor_slice (n : nat) (P : list (list (list R))) (sl : nat)
  : step (list (list (list R))) :=
  fun T => (set_plane sl (transpose n (retroicor_covs P sl)) T, None).

(** ** compute_regressors *)

(** The outcome of a call: the exception it raised, if any, what it
    emitted, and the object afterwards. *)
Record run : Type := mkRun {
  raised : option exn;
  emitted : list output;
  final : NIMSPhysio
}.

Definition too_few_frames : string :=
  "Need at least 3 temporal frames to compute regressors!".

Section Engine.

(** [scipy.signal.firwin(ntaps, wn)] and [scipy.signal.filtfilt(b, a, x)]
    belong to SciPy, not to this repository. *)
Variable firwin : nat -> R -> list R.
Variable filtfilt : list R -> list R -> list R -> list R.

(** [respfilt]: the zero-phase low-pass filtered waveform. *)
Definition respfilt_of (self : NIMSPhysio) : list R :=
  let f_cutoff := 1 in
  let fs := 1 / resp_dt self in
  let wn := f_cutoff / (fs / 2) in
  let ntaps := 20%nat in
  let b := firwin ntaps (Q2R wn) in
  filtfilt b [1%R] (map Q2R (resp_wave self)).

(** *** The phase loop *)

Definition phases_frame (self : NIMSPhysio) (Hb : list nat) (bins : list Q)
    (respfilt drdt : list R) (sl : nat) (times : list Q) (fr : nat)
  : step (list (list (list R))) :=
  assign (phase_pair self Hb bins respfilt drdt times fr) (set_row sl fr).

Definition phases_slice (self : NIMSPhysio) (Hb : list nat) (bins : list Q)
    (respfilt drdt : list R) (nslc sl : nat) : step (list (list (list R))) :=
  fun P =>
    match cur_slice_acq (slice_order self) sl with
    | inl e => (P, Some e)
    | inr cur =>
        for_range (nframes self)
          (phases_frame self Hb bins respfilt drdt sl (slice_times self nslc cur)) P
    end.

(** *** The RVHR loop: one slice *)

Definition rvhr_slice (self : NIMSPhysio) (t : list Q) (nslc sl : nat)
  : step (list (list (list R)) * list (list Q)) :=
  fun s =>
    let '(T, HR) := s in
    match cur_slice_acq (slice_order self) sl with
    | inl e => (s, Some e)
    | inr cur =>
        let times := slice_times self nslc cur in
        match for_range (nframes self) (rv_frame self times)
                        (zeros1 0%R (nframes self)) with
        | (_, Some e) => (s, Some e)
        | (rv, None) =>
            match response_regressors RRF rv t with
            | inl e => (s, Some e)
            | inr (rv_rrf, rv_rrf_d) =>
                match for_range (nframes self) (hr_frame self times)
                                (zeros1 0 (nframes self)) with
                | (_, Some e) => (s, Some e)
                | (hr, None) =>
                    let HR' := set_col2 sl hr HR in
                    match response_regressors CRF (map Q2R hr) t with
                    | inl e => ((T, HR'), Some e)
                    | inr (hr_crf, hr_crf_d) =>
                        ((set_plane sl
                            (transpose (nframes self)
                               [rv_rrf; rv_rrf_d; hr_crf; hr_crf_d]) T,
                          HR'), None)
                    end
                end
            end
        end
    end.

(** *** The four stages *)

(** Phases of every slice and frame, written into [self.phases]. *)
Definition phases_stage (self : NIMSPhysio)
  : list (list (list R)) * option exn :=
  let nslc := length (slice_order self) in
  let '(Hb, bins) := Np.histogram (resp_wave self) 100 in
  let respfilt := respfilt_of self in
  let drdt := Np.diff respfilt in
  for_range nslc (phases_slice self Hb bins respfilt drdt nslc)
            (zeros3 0%R nslc (nframes self) 2).

(** [REGRESSORS_RET] *)
Definition retroicor_stage (self : NIMSPhysio) (P : list (list (list R)))
  : list (list (list R)) :=
  let nslc := length (slice_order self) in
  fst (for_range nslc (retroicor_slice (nframes self) P)
                 (zeros3 0%R (nframes self) 8 nslc)).

(** [REGRESSORS_RVHR] and [self.heart_rate] *)
Definition rvhr_stage (self : NIMSPhysio)
  : (list (list (list R)) * list (list Q)) * option exn :=
  let nslc := length (slice_order self) in
  let t := response_grid self in
  for_range nslc (rvhr_slice self t nslc)
            (zeros3 0%R (nframes self) 4 nslc, zeros2 0 (nframes self) nslc).

(** The detrending of [self.regressors], in place. *)
Definition detrend_stage (nslc : nat) (T : list (list (list R)))
  : list (list (list R)) :=
  fst (for_range nslc detrend_slice T).

(** *** The method *)

Definition compute_regressors (self : NIMSPhysio) : run :=
  if (nframes self <? 3)%nat then
    mkRun None
          [if log self then LogWarning too_few_frames else Printed too_few_frames]
          (set_regressors None self)
  else
    let nslc := length (slice_order self) in
    match Np.amin (resp_wave self) with
    | inl e => mkRun (Some e) [] self
    | inr mn =>
        let self := shift_resp mn self in
        let '(P, r) := phases_stage self in
        let self := set_phases (Some P) self in
        match r with
        | Some e => mkRun (Some e) [] self
        | None =>
            let RET := retroicor_stage self P in
            let '((RVHR, HR), r) := rvhr_stage self in
            let self := set_heart_rate (Some HR) self in
            match r with
            | Some e => mkRun (Some e) [] self
            | None =>
                let T := detrend_stage nslc (concatenate1 RET RVHR) in
                mkRun None [] (set_regressors (Some T) self)
            end
        end
    end.

End Engine.

(** ** read_ge_data and the end of __init__

    The archive is read by library code; what follows starts from the arrays
    [np.loadtxt] stored. An attribute whose file the archive does not hold
    keeps the [None] that [__init__] gave it. *)

(** The exceptions of the interpreter that [__init__] wraps. *)
Inductive py_exception : Type :=
| AttributeError (msg : string)
| TypeError (msg : string).

Definition str (e : py_exception) : string :=
  match e with
  | AttributeError msg => msg
  | TypeError msg => msg
  end.

(** [None.size] *)
Definition size {A} (a : option (list A)) : py_exception + nat :=
  match a with
  | None => inl (AttributeError "'NoneType' object has no attribute 'size'")
  | Some l => inr (length l)
  end.

(** [None * self.card_dt] *)
Definition times_float (a : option (list Q)) (x : Q) : py_exception + list Q :=
  match a with
  | None => inl (TypeError "unsupported operand type(s) for *: 'NoneType' and 'float'")
  | Some l => inr (map (fun c => c * x) l)
  end.

(** The attributes the time shift sets. *)
Record time_axes : Type := mkTimeAxes {
  resp_time : list Q;
  card_time : list Q;
  shifted_trig : list Q
}.

(** [offset = dt * wave.size - self.scan_duration;
     dt * np.arange(wave.size) - offset] *)
Definition offset (dt : Q) (n : nat) (scan_duration : Q) : Q :=
  dt * QofNat n - scan_duration.

Definition time_axis (dt : Q) (n : nat) (scan_duration : Q) : list Q :=
  map (fun i => dt * QofNat i - offset dt n scan_duration) (seq 0 n).

(** The last five lines of [read_ge_data]: move time zero to the start of
    the scan. *)
Definition read_ge_data (resp_dt card_dt scan_duration : Q)
    (resp_wave card_wave card_trig : option (list Q))
  : py_exception + time_axes :=
  match size resp_wave with
  | inl e => inl e
  | inr nr =>
      let resp_time := time_axis resp_dt nr scan_duration in
      match size card_wave with
      | inl e => inl e
      | inr nc =>
          let off := offset card_dt nc scan_duration in
          let card_time := time_axis card_dt nc scan_duration in
          match times_float card_trig card_dt with
          | inl e => inl e
          | inr trig =>
              inr (mkTimeAxes resp_time card_time (map (fun c => c - off) trig))
          end
      end
  end.

(** [try: self.read_ge_data(filename)
     except Exception as e: raise NIMSPhysioError(e)] around the object that
    [__init__] has set up. *)
Definition init_read (tr : Q) (nframes nslices : nat)
    (slice_order : option (list nat)) (log : bool) (card_dt resp_dt : Q)
    (resp_wave card_wave card_trig : option (list Q))
  : res (NIMSPhysio * time_axes) :=
  match read_ge_data resp_dt card_dt (QofNat nframes * tr)
                     resp_wave card_wave card_trig with
  | inl e => inl (NIMSPhysioError (str e))
  | inr ax =>
      inr (init tr nframes nslices slice_order log card_dt resp_dt
                (match card_wave with Some l => l | None => [] end)
                (shifted_trig ax)
                (match resp_wave with Some l => l | None => [] end),
           ax)
  end.

(** ** write_regressors *)

(** [str(d)], ['%d' % i] *)
Definition str_nat (n : nat) : string := NilEmpty.string_of_uint (Nat.to_uint n).

(** ['\n'] *)
Definition nl : string := String (ascii_of_nat 10) EmptyString.

(** [sep.join(l)] *)
Definition join (sep : string) (l : list string) : string := String.concat sep l.

(** [str(a.shape)] of a three-dimensional array *)
Definition shape_repr {A} (T : list (list (list A))) : string :=
  ("(" ++ str_nat (length T) ++ ", " ++ str_nat (length (hd [] T)) ++ ", "
   ++ str_nat (length (hd [] (hd [] T))) ++ ")")%string.

(** [a[:,:,i]] *)
Definition plane (T : list (list (list R))) (i : nat) : list (list R) :=
  map (fun row => map (fun v => nth i v 0%R) row) T.

(** What ends a call of [write_regressors]: an exception of
    [compute_regressors], or one of the interpreter. *)
Inductive write_error : Type :=
| Computing (e : exn)
| Writing (e : py_exception).

(** The outcome of [write_regressors]: the exception, the strings written
    to the file in order ([None] when the file was never opened), and the
    outcome of the call of [compute_regressors]. *)
Record written : Type := mkWritten {
  failed : option write_error;
  outfile : option (list string);
  computed : run
}.

Definition header_order (order : list nat) : string :=
  ("# slice_order = [ " ++ join "," (map str_nat order) ++ " ]" ++ nl)%string.

Definition header_shape (T : list (list (list R))) : string :=
  ("# Full array shape: " ++ shape_repr T ++ nl)%string.

Definition header_layout : string :=
  ("# time x regressor for each slice in the acquired volume" ++ nl)%string.

Definition header_names : string :=
  ("# regressors: [c1_c, s1_c, c2_c, s2_c,c1_r, s1_r, c2_r, s2_r, rv_rrf, rv_rrf_d, hr_crf, hr_crf_d]"
   ++ nl)%string.

Definition slice_marker (i : nat) : string :=
  ("# slice " ++ str_nat i ++ nl)%string.

Section Writer.

Variable firwin : nat -> R -> list R.
Variable filtfilt : list R -> list R -> list R -> list R.

(** ['%-7.6f' % v] *)
Variable fmt : R -> string.

(** [np.savetxt(outfile, X, fmt='%-7.6f')]: one write per row, the fields
    separated by a blank. *)
Definition savetxt (X : list (list R)) : list string :=
  map (fun row => (join " " (map fmt row) ++ nl)%string) X.

Definition slice_block (T : list (list (list R))) (i : nat) : list string :=
  slice_marker i :: savetxt (plane T i).

Definition write_regressors (self : NIMSPhysio) : written :=
  let r := compute_regressors firwin filtfilt self in
  match raised r with
  | Some e => mkWritten (Some (Computing e)) None r
  | None =>
      let self := final r in
      let l1 := header_order (slice_order self) in
      match regressors self with
      | None =>
          mkWritten
            (Some (Writing
               (AttributeError "'NoneType' object has no attribute 'shape'")))
            (Some [l1]) r
      | Some T =>
          mkWritten None
            (Some ([l1; header_shape T; header_layout; header_names] ++
                   flat_map (slice_block T) (seq 0 (length (hd [] (hd [] T))))))
            r
      end
  end.

End Writer.

(** ** Conditions on the inputs, written out

    The statements about the RVHR loop are phrased with the conditions
    below, which are written on the inputs alone: the times, index bounds
    and windows are spelled out with the constant 3 (the value of [t_win]),
    not through the functions of the embedding. *)

(** [slice_times[tp]] of the slice acquired at position [cur], for a float
    [tr]: [(tr/nslc)*(cur+0.5) + tp*tr]. *)
Definition frame_time (self : NIMSPhysio) (cur tp : nat) : Q :=
  tr self / QofNat (length (slice_order self)) * (QofNat cur + (1 # 2))
  + QofNat tp * tr self.

(** [t - 3 <= c <= t + 3] *)
Definition within_3s (t c : Q) : bool :=
  Qle_bool (t - 3) c && Qle_bool c (t + 3).

(** The trigger times within 3 s of [t], in the order of [card_trig]. *)
Definition triggers_near (self : NIMSPhysio) (t : Q) : list Q :=
  filter (within_3s t) (card_trig self).

(** [max(0, floor((t - 3)/resp_dt))] and
    [min(resp_wave.size, floor((t + 3)/resp_dt))] *)
Definition lower_bound (self : NIMSPhysio) (t : Q) : Z :=
  Z.max 0 (Qfloor ((t - 3) / resp_dt self)).

Definition upper_bound (self : NIMSPhysio) (t : Q) : Z :=
  Z.min (Z.of_nat (length (resp_wave self))) (Qfloor ((t + 3) / resp_dt self)).

(** Condition (a) for slice number [sl]: some frame has [i2 < i1]. *)
Definition rv_bounds_cross (self : NIMSPhysio) (sl : nat) : Prop :=
  exists cur tp,
    nth_error (slice_order self) cur = Some sl /\ (tp < nframes self)%nat /\
    (upper_bound self (frame_time self cur tp)
     < lower_bound self (frame_time self cur tp))%Z.

(** Condition (b) for slice number [sl]: no trigger within 3 s of the time
    of frame 0. *)
Definition first_window_silent (self : NIMSPhysio) (sl : nat) : Prop :=
  exists cur,
    nth_error (slice_order self) cur = Some sl /\
    triggers_near self (frame_time self cur 0) = [].

(** The filter design runs: [1./self.resp_dt] raises [ZeroDivisionError]
    at 0, [scipy.signal.firwin(20, wn)] with [wn = 2*resp_dt] raises
    [ValueError] unless [0 < wn < 1], and [scipy.signal.filtfilt] with 20
    taps pads 60 samples at each end and raises [ValueError] unless the
    waveform has more than 60 samples. All of this happens before the
    phase loop. *)
Definition filter_runs (self : NIMSPhysio) : Prop :=
  (60 < length (resp_wave self))%nat /\
  0 < resp_dt self /\ resp_dt self < 1 # 2.

(** The program computes in doubles, the embedding in exact numbers. A
    floor or a comparison can only come out differently in the two when
    its argument lies within rounding error of an integer or of the value
    it is compared with. [rounding_margin] keeps the inputs away from
    that: the quotients [(t -+ 3)/resp_dt] of every frame are at least
    1/1000 away from the integers, no trigger is within 1/1000 of an end
    of a window, and the magnitudes are below 10^9.

    The quotient [self.tr/nslc] is rounded in one more way. The module
    runs under Python 2, where [/] between two ints is the floor division;
    [nslc] is an int, and a [tr] whose value is a whole number may have
    been passed as an int (the default, [tr=2], is one). [division_exact]
    asks that the number of slices divides such a [tr], so that the
    quotient is the true one whichever number the caller passed. *)
Definition division_exact (self : NIMSPhysio) : Prop :=
  forall z : Z, tr self == inject_Z z ->
    exists q : Z, z = (q * Z.of_nat (length (slice_order self)))%Z.

Definition off_grid (q : Q) : Prop :=
  inject_Z (Qfloor q) + (1 # 1000) <= q /\
  q <= inject_Z (Qfloor q) + (999 # 1000).

Definition apart (c x : Q) : Prop :=
  c + (1 # 1000) <= x \/ x + (1 # 1000) <= c.

Definition rounding_margin (self : NIMSPhysio) : Prop :=
  division_exact self /\
  (scan_duration self + 3) / resp_dt self <= 1000000000 /\
  (forall c, In c (card_trig self) ->
     - (1000000000) <= c /\ c <= 1000000000) /\
  forall cur tp,
    (cur < length (slice_order self))%nat -> (tp < nframes self)%nat ->
    off_grid ((frame_time self cur tp - 3) / resp_dt self) /\
    off_grid ((frame_time self cur tp + 3) / resp_dt self) /\
    forall c, In c (card_trig self) ->
      apart c (frame_time self cur tp - 3) /\
      apart c (frame_time self cur tp + 3).

(** The RVHR loop computes numbers: [np.std] of an empty slice
    ([i2 == i1]) is nan, the rate over a window whose first and last
    trigger times coincide is 0/0, and a response whose maximum over the
    grid is 0 is divided by 0. *)
Definition rv_windows_filled (self : NIMSPhysio) : Prop :=
  forall cur tp,
    (cur < length (slice_order self))%nat -> (tp < nframes self)%nat ->
    (lower_bound self (frame_time self cur tp)
     < upper_bound self (frame_time self cur tp))%Z.

Definition trigger_windows_spread (self : NIMSPhysio) : Prop :=
  forall cur tp,
    (cur < length (slice_order self))%nat -> (tp < nframes self)%nat ->
    triggers_near self (frame_time self cur tp) = [] \/
    ~ hd 0 (triggers_near self (frame_time self cur tp))
      == last (triggers_near self (frame_time self cur tp)) 0.

Definition responses_normalizable (self : NIMSPhysio) : Prop :=
  forall m,
    Np.Ramax (map (fun q => RRF (Q2R q)) (response_grid self)) = inr m \/
    Np.Ramax (map (fun q => CRF (Q2R q)) (response_grid self)) = inr m ->
    m <> 0%R.

Definition finite_values (self : NIMSPhysio) : Prop :=
  rv_windows_filled self /\ trigger_windows_spread self /\
  responses_normalizable self.

(** Scenario B: one slice, [tr = 2.5], four frames (times 1.25, 3.75,
    6.25, 8.75), respiration sampled at 25 Hz with [n] samples, and the
    triggers [trig]; [beats_B] is an irregular pulse, so that the rate
    depends on the window. *)
Definition beats_B : list Q := map inject_Z [0; 1; 2; 3; 4; 6; 8; 10]%Z.

Definition scan_B (trig : list Q) (n : nat) : NIMSPhysio :=
  init (5 # 2) 4 1 (Some [0%nat]) false (1 # 100) (4 # 100) []
       trig (map (fun i => QofNat (i mod 7)) (seq 0 n)).

(** ** The slice times with [tr] as Python 2 has it

    The module runs under Python 2 and imports only [print_function] from
    [__future__], so [/] between two ints is the floor division. [nslc] is
    an int; [self.tr] is whatever number the caller passed, and the
    default, [tr=2], is an int. *)

Inductive number : Type :=
| Int (z : Z)
| Float (q : Q).

(** The value of a number in float arithmetic. *)
Definition float_of (x : number) : Q :=
  match x with
  | Int z => inject_Z z
  | Float q => q
  end.

(** [x / n] for an int [n] *)
Definition div_int (x : number) (n : Z) : number :=
  match x with
  | Int z => Int (z / n)
  | Float q => Float (q / inject_Z n)
  end.

(** [np.arange((self.tr/nslc)*(cur_slice_acq+0.5), self.scan_duration, self.tr)]
    with [self.scan_duration = self.nframes * self.tr] *)
Definition slice_times_py2 (tr : number) (nframes nslc cur : nat) : list Q :=
  Np.arange (float_of (div_int tr (Z.of_nat nslc)) * (QofNat cur + (1 # 2)))
            (QofNat nframes * float_of tr) (float_of tr).

(** * Properties *)

(** ** Index arrays *)

Lemma nonzero_from_spec (mask : list bool) (k i : nat) :
  In i (Np.nonzero_from k mask) <->
  (k <= i)%nat /\ nth_error mask (i - k) = Some true.
Proof.
  revert k. induction mask as [|b m IH]; intros k; simpl.
  - split; [tauto|]. intros [_ H]. destruct (i - k)%nat; discriminate.
  - destruct b; simpl; rewrite ?IH.
    + split.
      * intros [<-|[Hk Hn]].
        -- rewrite Nat.sub_diag. auto.
        -- split; [lia|]. replace (i - k)%nat with (S (i - S k)) by lia. exact Hn.
      * intros [Hk Hn]. destruct (Nat.eq_dec k i) as [->|Hne]; [now left|right].
        split; [lia|]. replace (i - k)%nat with (S (i - S k)) in Hn by lia. exact Hn.
    + split.
      * intros [Hk Hn]. split; [lia|].
        replace (i - k)%nat with (S (i - S k)) by lia. exact Hn.
      * intros [Hk Hn]. destruct (Nat.eq_dec k i) as [->|Hne].
        -- rewrite Nat.sub_diag in Hn. discriminate.
        -- split; [lia|]. replace (i - k)%nat with (S (i - S k)) in Hn by lia. exact Hn.
Qed.

Lemma nonzero_spec (mask : list bool) (i : nat) :
  In i (Np.nonzero mask) <-> nth_error mask i = Some true.
Proof.
  unfold Np.nonzero. rewrite nonzero_from_spec, Nat.sub_0_r.
  split; [tauto|]. intros H; split; [lia|exact H].
Qed.

(** The index array is ascending: its head is below all the others. *)
Lemma nonzero_from_head (mask : list bool) (k i : nat) (rest : list nat) :
  Np.nonzero_from k mask = i :: rest ->
  forall j, In j rest -> (i < j)%nat.
Proof.
  revert k i rest. induction mask as [|b m IH]; intros k i rest; simpl.
  - discriminate.
  - destruct b.
    + intros H j Hj. injection H as <- <-.
      apply nonzero_from_spec in Hj. lia.
    + apply IH.
Qed.

Lemma nonzero_first (mask : list bool) (i : nat) (rest : list nat) :
  Np.nonzero mask = i :: rest ->
  nth_error mask i = Some true /\
  forall j, (j < i)%nat -> nth_error mask j <> Some true.
Proof.
  intros H. split.
  - apply nonzero_spec. rewrite H. now left.
  - intros j Hj Hn. apply nonzero_spec in Hn. rewrite H in Hn.
    destruct Hn as [->|Hn]; [lia|].
    pose proof (nonzero_from_head _ _ _ _ H j Hn). lia.
Qed.

Lemma nth_error_map_eqb (order : list nat) (sl i : nat) :
  nth_error (map (Nat.eqb sl) order) i = Some true <-> nth_error order i = Some sl.
Proof.
  rewrite nth_error_map. destruct (nth_error order i) as [x|]; simpl.
  - split; intros H.
    + injection H as H. apply Nat.eqb_eq in H. now subst.
    + injection H as ->. now rewrite Nat.eqb_refl.
  - split; discriminate.
Qed.

(** The lookup returns the first position holding [sl], and raises
    [IndexError] when there is none. *)
Lemma cur_slice_acq_found (order : list nat) (sl : nat) :
  In sl order ->
  exists cur, cur_slice_acq order sl = inr cur /\
              nth_error order cur = Some sl /\
              forall j, (j < cur)%nat -> nth_error order j <> Some sl.
Proof.
  intros Hin. unfold cur_slice_acq.
  destruct (Np.nonzero (map (Nat.eqb sl) order)) as [|i rest] eqn:E.
  - exfalso. apply In_nth_error in Hin as [n Hn].
    apply nth_error_map_eqb, nonzero_spec in Hn. rewrite E in Hn. exact Hn.
  - exists i. apply nonzero_first in E as [H1 H2]. split; [reflexivity|]. split.
    + now apply nth_error_map_eqb.
    + intros j Hj Hn. apply (H2 j Hj). now apply nth_error_map_eqb.
Qed.

Lemma cur_slice_acq_missing (order : list nat) (sl : nat) :
  ~ In sl order -> cur_slice_acq order sl = inl IndexError.
Proof.
  intros Hnin. unfold cur_slice_acq.
  destruct (Np.nonzero (map (Nat.eqb sl) order)) as [|i rest] eqn:E; [reflexivity|].
  exfalso. apply Hnin. apply nonzero_first in E as [H1 _].
  apply nth_error_map_eqb in H1. eapply nth_error_In; eauto.
Qed.

(** A list of [n] indices that is not a permutation of [0, n) misses one. *)
Lemma non_permutation_misses (order : list nat) :
  ~ Permutation order (seq 0 (length order)) ->
  exists sl, (sl < length order)%nat /\ ~ In sl order.
Proof.
  intros Hnp.
  destruct (forallb (fun sl => existsb (Nat.eqb sl) order) (seq 0 (length order))) eqn:E.
  - exfalso. apply Hnp. symmetry.
    apply NoDup_Permutation_bis.
    + apply seq_NoDup.
    + rewrite length_seq. lia.
    + intros sl Hsl. rewrite forallb_forall in E. specialize (E sl Hsl).
      apply existsb_exists in E as [x [Hx Hxe]]. apply Nat.eqb_eq in Hxe. now subst.
  - assert (H : exists sl, In sl (seq 0 (length order)) /\
                           existsb (Nat.eqb sl) order = false).
    { clear Hnp. induction (seq 0 (length order)) as [|a l IH]; simpl in E;
        [discriminate|].
      apply andb_false_iff in E as [E|E].
      - exists a. split; [now left|exact E].
      - destruct (IH E) as [sl [H1 H2]]. exists sl. split; [now right|exact H2]. }
    destruct H as [sl [Hsl Hex]]. exists sl. split.
    + apply in_seq in Hsl. lia.
    + intros Hin. assert (existsb (Nat.eqb sl) order = true).
      { apply existsb_exists. exists sl. split; [exact Hin|apply Nat.eqb_refl]. }
      congruence.
Qed.

(** ** Sampling grids *)

Lemma arange_length (a b s : Q) :
  length (Np.arange a b s) = Z.to_nat (Qceiling ((b - a) / s)).
Proof. unfold Np.arange. now rewrite length_map, length_seq. Qed.

Lemma arange_nth_error (a b s : Q) (k : nat) :
  (k < length (Np.arange a b s))%nat ->
  nth_error (Np.arange a b s) k = Some (a + QofNat k * s).
Proof.
  intros Hk. rewrite arange_length in Hk. unfold Np.arange.
  rewrite nth_error_map, nth_error_seq.
  apply Nat.ltb_lt in Hk. rewrite Hk. reflexivity.
Qed.

Lemma arange_nth (a b s : Q) (k : nat) :
  (k < length (Np.arange a b s))%nat ->
  nth k (Np.arange a b s) 0 = a + QofNat k * s.
Proof.
  intros Hk. apply nth_error_nth. now apply arange_nth_error.
Qed.

Lemma Qceiling_unique (x : Q) (n : Z) :
  inject_Z n - 1 < x -> x <= inject_Z n -> Qceiling x = n.
Proof.
  intros Hlo Hhi.
  pose proof (Qle_ceiling x) as H1. pose proof (Qceiling_lt x) as H2.
  assert (Ha : inject_Z (n - 1) < inject_Z (Qceiling x)).
  { unfold Z.sub. rewrite inject_Z_plus.
    change (inject_Z (- (1))%Z) with (- (1))%Q. qlra. }
  assert (Hb : inject_Z (Qceiling x - 1) < inject_Z n) by (eapply Qlt_le_trans; eauto).
  rewrite <- Zlt_Qlt in Ha, Hb. lia.
Qed.

Lemma QofNat_nonneg (n : nat) : 0 <= QofNat n.
Proof.
  unfold QofNat. change 0 with (inject_Z 0). rewrite <- Zle_Qle. lia.
Qed.

Lemma QofNat_lt (n m : nat) : (n < m)%nat -> QofNat n < QofNat m.
Proof. intros H. unfold QofNat. rewrite <- Zlt_Qlt. lia. Qed.

Lemma QofNat_le (n m : nat) : (n <= m)%nat -> QofNat n <= QofNat m.
Proof. intros H. unfold QofNat. rewrite <- Zle_Qle. lia. Qed.

Lemma QofNat_S (n : nat) : QofNat (S n) == QofNat n + 1.
Proof.
  unfold QofNat. rewrite Nat2Z.inj_succ. unfold Z.succ.
  now rewrite inject_Z_plus.
Qed.

(** The offset of a slice inside one repetition lies strictly between 0 and
    [tr] when its acquisition position is below [nslc]. *)
Lemma slice_offset_bounds (t : Q) (nslc cur : nat) :
  0 < t -> (cur < nslc)%nat ->
  0 < (t / QofNat nslc) * (QofNat cur + (1 # 2)) /\
  (t / QofNat nslc) * (QofNat cur + (1 # 2)) < t.
Proof.
  intros Ht Hc.
  assert (Hn : 0 < QofNat nslc).
  { apply Qle_lt_trans with (QofNat cur); [apply QofNat_nonneg|now apply QofNat_lt]. }
  assert (Hc1 : QofNat cur + 1 <= QofNat nslc).
  { rewrite <- QofNat_S. apply QofNat_le. lia. }
  pose proof (QofNat_nonneg cur) as Hc0.
  assert (E : t / QofNat nslc * (QofNat cur + (1 # 2)) ==
              t * ((QofNat cur + (1 # 2)) / QofNat nslc)).
  { field. qlra. }
  rewrite E.
  assert (Hq0 : 0 < (QofNat cur + (1 # 2)) / QofNat nslc).
  { apply Qlt_shift_div_l; qlra. }
  assert (Hq1 : (QofNat cur + (1 # 2)) / QofNat nslc < 1).
  { apply Qlt_shift_div_r; qlra. }
  split; qnra.
Qed.

Lemma slice_times_length (self : NIMSPhysio) (nslc cur : nat) :
  0 < tr self ->
  scan_duration self == QofNat (nframes self) * tr self ->
  (cur < nslc)%nat ->
  length (slice_times self nslc cur) = nframes self.
Proof.
  intros Ht Hd Hc. unfold slice_times. rewrite arange_length.
  destruct (slice_offset_bounds (tr self) nslc cur Ht Hc) as [H0 H1].
  set (off := tr self / QofNat nslc * (QofNat cur + (1 # 2))) in *.
  rewrite (Qceiling_unique _ (Z.of_nat (nframes self))).
  - apply Nat2Z.id.
  - fold (QofNat (nframes self)). apply Qlt_shift_div_l; [exact Ht|].
    rewrite Hd. qlra.
  - fold (QofNat (nframes self)). apply Qle_shift_div_r; [exact Ht|].
    rewrite Hd. qlra.
Qed.

Lemma slice_times_nth (self : NIMSPhysio) (nslc cur k : nat) :
  0 < tr self ->
  scan_duration self == QofNat (nframes self) * tr self ->
  (cur < nslc)%nat -> (k < nframes self)%nat ->
  Np.getnat (slice_times self nslc cur) k =
    inr ((tr self / QofNat nslc) * (QofNat cur + (1 # 2)) + QofNat k * tr self).
Proof.
  intros Ht Hd Hc Hk. unfold Np.getnat, slice_times.
  rewrite arange_nth_error; [reflexivity|].
  fold (slice_times self nslc cur). rewrite slice_times_length; auto.
Qed.

Lemma slice_time_bounds (t : Q) (nslc cur n k : nat) :
  0 < t -> (cur < nslc)%nat -> (k < n)%nat ->
  0 < (t / QofNat nslc) * (QofNat cur + (1 # 2)) + QofNat k * t /\
  (t / QofNat nslc) * (QofNat cur + (1 # 2)) + QofNat k * t < QofNat n * t.
Proof.
  intros Ht Hc Hk.
  destruct (slice_offset_bounds t nslc cur Ht Hc) as [H0 H1].
  pose proof (QofNat_nonneg k) as Hk0.
  assert (Hk1 : QofNat k + 1 <= QofNat n).
  { rewrite <- QofNat_S. apply QofNat_le. lia. }
  split; qnra.
Qed.

(** ** The response-function grid *)

(** C1: with the default [tr = 2] the grid of the two response functions is
    0, 2, ..., 36: it has 19 samples and stops two steps short of 40, so
    the multiple 38 of [tr], which is below 40, is not on it. *)
Theorem response_grid_stops_before_40_minus_tr :
  response_grid (default_physio [] []) =
    map (fun k => inject_Z (2 * Z.of_nat k)) (seq 0 19) /\
  ~ In 38 (response_grid (default_physio [] [])).
Proof.
  split; [reflexivity|].
  vm_compute. intros H.
  repeat (destruct H as [H|H]; [discriminate H|]). exact H.
Qed.

(** In general the grid holds the multiples of [tr] below [40 - tr]. *)
Lemma response_grid_below (self : NIMSPhysio) (k : nat) :
  0 < tr self ->
  (k < length (response_grid self))%nat ->
  nth k (response_grid self) 0 = 0 + QofNat k * tr self /\
  QofNat k * tr self < 40 - tr self.
Proof.
  intros Ht Hk. split; [now apply arange_nth|].
  unfold response_grid in Hk. rewrite arange_length in Hk.
  pose proof (Qceiling_lt ((40 - tr self - 0) / tr self)) as Hc.
  assert (Hk' : QofNat k <= inject_Z (Qceiling ((40 - tr self - 0) / tr self) - 1)).
  { unfold QofNat. rewrite <- Zle_Qle. lia. }
  assert (Hq : QofNat k < (40 - tr self - 0) / tr self) by qlra.
  apply (Qmult_lt_r _ _ (tr self) Ht) in Hq.
  assert (E : (40 - tr self - 0) / tr self * tr self == 40 - tr self)
    by (field; qlra).
  rewrite E in Hq. exact Hq.
Qed.

(** ** The acquisition-position lookup *)

(** C2, as stated, fails: on the order [0, 0], which is not a permutation
    of [0, 2), the lookup of slice 0 silently answers the first position,
    and the lookup of slice 1 raises [IndexError], which is not the
    module's typed error. *)
Lemma lookup_does_not_validate_order :
  ~ Permutation [0; 0]%nat (seq 0 2) /\
  cur_slice_acq [0; 0]%nat 0 = inr 0%nat /\
  cur_slice_acq [0; 0]%nat 1 = inl IndexError /\
  ~ is_physio_error IndexError.
Proof.
  split; [|split; [reflexivity|split; [reflexivity|exact (fun H => H)]]].
  intros HP. apply Permutation_sym in HP.
  assert (Hin : In 1%nat [0; 0]%nat).
  { apply (Permutation_in _ HP). simpl. auto. }
  simpl in Hin. intuition discriminate.
Qed.

(** C2, amended: the lookup validates nothing. A slice index that occurs in
    the order, once or more, gets the first position holding it; one that
    does not occur raises [IndexError]; the lookup never raises the typed
    error; and an order that is not a permutation of [0, nslices) misses
    some slice index below [nslices], for which the lookup raises
    [IndexError]. *)
Theorem lookup_first_match_or_index_error (order : list nat) :
  (forall sl, In sl order ->
     exists cur, cur_slice_acq order sl = inr cur /\
                 nth_error order cur = Some sl /\
                 forall j, (j < cur)%nat -> nth_error order j <> Some sl) /\
  (forall sl, ~ In sl order -> cur_slice_acq order sl = inl IndexError) /\
  (forall sl e, cur_slice_acq order sl = inl e -> ~ is_physio_error e) /\
  (~ Permutation order (seq 0 (length order)) ->
   exists sl, (sl < length order)%nat /\ cur_slice_acq order sl = inl IndexError).
Proof.
  split; [|split; [|split]].
  - intros sl. apply cur_slice_acq_found.
  - intros sl. apply cur_slice_acq_missing.
  - intros sl e He. destruct (in_dec Nat.eq_dec sl order) as [Hin|Hnin].
    + destruct (cur_slice_acq_found order sl Hin) as [cur [Hc _]]. congruence.
    + rewrite (cur_slice_acq_missing order sl Hnin) in He.
      injection He as <-. exact (fun H => H).
  - intros Hnp. destruct (non_permutation_misses order Hnp) as [sl [Hlt Hnin]].
    exists sl. split; [exact Hlt|]. now apply cur_slice_acq_missing.
Qed.

Lemma lookup_first_match_or_index_error_witness :
  ~ Permutation [0; 0]%nat (seq 0 (length [0; 0]%nat)) /\
  exists sl, (sl < length [0; 0]%nat)%nat /\
             cur_slice_acq [0; 0]%nat sl = inl IndexError.
Proof.
  assert (Hnp : ~ Permutation [0; 0]%nat (seq 0 (length [0; 0]%nat))).
  { intros HP. apply Permutation_sym in HP.
    assert (Hin : In 1%nat [0; 0]%nat).
    { apply (Permutation_in _ HP). simpl. auto. }
    simpl in Hin. intuition discriminate. }
  split; [exact Hnp|].
  exact (proj2 (proj2 (proj2 (lookup_first_match_or_index_error [0; 0]%nat))) Hnp).
Defined.

(** ** Slice acquisition times *)

Lemma permutation_lookup (order : list nat) (sl : nat) :
  Permutation order (seq 0 (length order)) ->
  (sl < length order)%nat ->
  exists cur, cur_slice_acq order sl = inr cur /\
              nth_error order cur = Some sl /\
              (cur < length order)%nat.
Proof.
  intros HP Hsl.
  assert (Hin : In sl order).
  { apply (Permutation_in _ (Permutation_sym HP)). apply in_seq. lia. }
  destruct (cur_slice_acq_found order sl Hin) as [cur [H1 [H2 _]]].
  exists cur. repeat split; auto.
  apply nth_error_Some. congruence.
Qed.

(** With a float [tr]: for a permutation slice order and a slice [sl], the
    lookup finds the acquisition position [cur] of [sl], and the slice-time
    vector has [nframes] entries [(tr/nslices)*(cur+0.5) + k*tr], each inside
    [0, nframes*tr); with the order [1, 0], slice 0 is at position 1,
    slice 1 at position 0, and the times of slice 0 exceed those of slice 1
    by [tr/2] at every frame. *)
Theorem slice_times_spec (self : NIMSPhysio) (sl : nat) :
  0 < tr self ->
  scan_duration self == QofNat (nframes self) * tr self ->
  Permutation (slice_order self) (seq 0 (length (slice_order self))) ->
  (sl < length (slice_order self))%nat ->
  let nslc := length (slice_order self) in
  (exists cur,
     cur_slice_acq (slice_order self) sl = inr cur /\
     nth_error (slice_order self) cur = Some sl /\
     length (slice_times self nslc cur) = nframes self /\
     forall k, (k < nframes self)%nat ->
       exists t, Np.getnat (slice_times self nslc cur) k = inr t /\
         t == (tr self / QofNat nslc) * (QofNat cur + (1 # 2)) + QofNat k * tr self /\
         0 <= t /\ t < QofNat (nframes self) * tr self) /\
  (slice_order self = [1; 0]%nat ->
     cur_slice_acq (slice_order self) 0 = inr 1%nat /\
     cur_slice_acq (slice_order self) 1 = inr 0%nat /\
     forall k, (k < nframes self)%nat ->
       exists t0 t1,
         Np.getnat (slice_times self nslc 1) k = inr t0 /\
         Np.getnat (slice_times self nslc 0) k = inr t1 /\
         t0 - t1 == tr self / 2).
Proof.
  intros Ht Hd HP Hsl nslc. split.
  - destruct (permutation_lookup _ sl HP Hsl) as [cur [Hc [Hn Hlt]]].
    exists cur. repeat split; auto.
    + now apply slice_times_length.
    + intros k Hk. eexists. split; [now apply slice_times_nth|].
      split; [reflexivity|].
      destruct (slice_time_bounds (tr self) nslc cur (nframes self) k Ht Hlt Hk).
      split; qlra.
  - intros Ho. subst nslc. rewrite Ho. split; [reflexivity|split; [reflexivity|]].
    intros k Hk. simpl length. do 2 eexists.
    split; [apply slice_times_nth; auto|].
    split; [apply slice_times_nth; auto; lia|].
    unfold QofNat. simpl. field.
Qed.

Lemma slice_times_spec_witness :
  let self := init 2 3 2 (Some [1; 0]%nat) false (1 # 100) (4 # 100) [] [] [] in
  exists t0 t1,
    Np.getnat (slice_times self 2 1) 2 = inr t0 /\
    Np.getnat (slice_times self 2 0) 2 = inr t1 /\
    t0 - t1 == 2 / 2.
Proof.
  intros self.
  assert (Ht : 0 < tr self) by reflexivity.
  assert (Hd : scan_duration self == QofNat (nframes self) * tr self) by reflexivity.
  assert (HP : Permutation (slice_order self) (seq 0 (length (slice_order self))))
    by (simpl; apply perm_swap).
  assert (Hsl : (0 < length (slice_order self))%nat) by (simpl; lia).
  destruct (slice_times_spec self 0 Ht Hd HP Hsl) as [_ H].
  destruct (H eq_refl) as [_ [_ H2]].
  apply (H2 2%nat). simpl. lia.
Defined.

(** ** Loop rules *)

Lemma for_in_app {S} (l1 l2 : list nat) (body : nat -> step S) (s : S) :
  for_in (l1 ++ l2) body s =
    match for_in l1 body s with
    | (s1, None) => for_in l2 body s1
    | (s1, Some e) => (s1, Some e)
    end.
Proof.
  revert s. induction l1 as [|i l1 IH]; intros s; simpl; [reflexivity|].
  destruct (body i s) as [s1 [e|]]; [reflexivity|apply IH].
Qed.

Lemma for_range_S {S} (n : nat) (body : nat -> step S) (s : S) :
  for_range (Datatypes.S n) body s =
    match for_range n body s with
    | (s1, None) => body n s1
    | (s1, Some e) => (s1, Some e)
    end.
Proof.
  unfold for_range. rewrite seq_S, for_in_app. simpl.
  destruct (for_in (seq 0 n) body s) as [s1 [e|]]; [reflexivity|].
  destruct (body n s1) as [s2 [e|]]; reflexivity.
Qed.

(** A loop whose every iteration falls through and re-establishes the
    invariant for the next index runs to its end. *)
Lemma for_range_total {S} (I : nat -> S -> Prop) (n : nat)
    (body : nat -> step S) (s0 : S) :
  I 0%nat s0 ->
  (forall i s, (i < n)%nat -> I i s ->
     exists s', body i s = (s', None) /\ I (Datatypes.S i) s') ->
  exists s', for_range n body s0 = (s', None) /\ I n s'.
Proof.
  intros H0 Hstep. induction n as [|n IH].
  - exists s0. split; [reflexivity|exact H0].
  - destruct IH as [s1 [E1 I1]].
    { intros i s Hi. apply Hstep. lia. }
    destruct (Hstep n s1 (Nat.lt_succ_diag_r n) I1) as [s2 [E2 I2]].
    exists s2. rewrite for_range_S, E1. split; assumption.
Qed.

(** A loop in which iteration [i] raises exactly when [bad i] holds: it runs
    to its end when no index is bad, and otherwise raises an exception that
    one of the bad iterations raises. *)
Lemma for_range_cases {S} (I : nat -> S -> Prop) (bad : nat -> Prop)
    (E : exn -> Prop) (n : nat) (body : nat -> step S) (s0 : S) :
  I 0%nat s0 ->
  (forall i s, (i < n)%nat -> I i s ->
     (~ bad i /\ exists s', body i s = (s', None) /\ I (Datatypes.S i) s') \/
     (bad i /\ exists s' e, body i s = (s', Some e) /\ E e)) ->
  ((forall i, (i < n)%nat -> ~ bad i) /\
   exists s', for_range n body s0 = (s', None) /\ I n s') \/
  ((exists i, (i < n)%nat /\ bad i) /\
   exists s' e, for_range n body s0 = (s', Some e) /\ E e).
Proof.
  intros H0 Hstep. induction n as [|n IH].
  - left. split; [intros i Hi; lia|]. exists s0. split; [reflexivity|exact H0].
  - destruct IH as [[Hgood [s1 [E1 I1]]]|[[i [Hi Hb]] [s1 [e [E1 He]]]]].
    { intros i s Hi. apply Hstep. lia. }
    + destruct (Hstep n s1 (Nat.lt_succ_diag_r n) I1)
        as [[Hnb [s2 [E2 I2]]]|[Hb [s2 [e [E2 He]]]]].
      * left. split.
        -- intros i Hi. destruct (Nat.eq_dec i n) as [->|Hne]; [exact Hnb|].
           apply Hgood. lia.
        -- exists s2. rewrite for_range_S, E1. split; assumption.
      * right. split; [exists n; split; [lia|exact Hb]|].
        exists s2, e. rewrite for_range_S, E1. split; assumption.
    + right. split; [exists i; split; [lia|exact Hb]|].
      exists s1, e. rewrite for_range_S, E1. split; [reflexivity|exact He].
Qed.

(** A property that every iteration keeps, raising or not, holds of the
    state the loop leaves. *)
Lemma for_range_keeps {S} (I : S -> Prop) (n : nat)
    (body : nat -> step S) (s0 : S) :
  I s0 ->
  (forall i s, (i < n)%nat -> I s -> I (fst (body i s))) ->
  I (fst (for_range n body s0)).
Proof.
  intros H0 Hstep. induction n as [|n IH]; [exact H0|].
  rewrite for_range_S.
  assert (I1 : I (fst (for_range n body s0))).
  { apply IH. intros i s Hi. apply Hstep. lia. }
  destruct (for_range n body s0) as [s1 [e|]]; [exact I1|].
  apply Hstep; [lia|exact I1].
Qed.

(** ** Arrays *)

Lemma update_nth_length {A} (i : nat) (f : A -> A) (l : list A) :
  length (update_nth i f l) = length l.
Proof.
  revert i. induction l as [|x l IH]; intros [|i]; simpl; auto.
Qed.

Lemma update_nth_same {A} (i : nat) (f : A -> A) (l : list A) (d : A) :
  (i < length l)%nat -> nth i (update_nth i f l) d = f (nth i l d).
Proof.
  revert i. induction l as [|x l IH]; intros [|i] Hi; simpl in *; try lia; auto.
  apply IH. lia.
Qed.

Lemma update_nth_other {A} (i j : nat) (f : A -> A) (l : list A) (d : A) :
  i <> j -> nth j (update_nth i f l) d = nth j l d.
Proof.
  revert i j. induction l as [|x l IH]; intros [|i] [|j] Hne; simpl; auto;
    try congruence.
Qed.

Lemma set_nth_length {A} (i : nat) (x : A) (l : list A) :
  length (set_nth i x l) = length l.
Proof. apply update_nth_length. Qed.

Lemma set_nth_same {A} (i : nat) (x : A) (l : list A) (d : A) :
  (i < length l)%nat -> nth i (set_nth i x l) d = x.
Proof. intros H. unfold set_nth. now rewrite update_nth_same. Qed.

Lemma set_nth_other {A} (i j : nat) (x : A) (l : list A) (d : A) :
  i <> j -> nth j (set_nth i x l) d = nth j l d.
Proof. apply update_nth_other. Qed.

Lemma zeros1_length {A} (z : A) (n : nat) : length (zeros1 z n) = n.
Proof. apply repeat_length. Qed.

Lemma nth_repeat_lt {A} (z d : A) (n i : nat) :
  (i < n)%nat -> nth i (repeat z n) d = z.
Proof.
  revert i. induction n as [|n IH]; intros [|i] Hi; simpl; try lia; auto.
  apply IH. lia.
Qed.

(** ** What the method writes *)

Section Frame.

Variable firwin : nat -> R -> list R.
Variable filtfilt : list R -> list R -> list R -> list R.

(** The object after a call differs from the one before in the shifted
    respiration waveform and in the three derived attributes only. *)
Lemma compute_regressors_final (self : NIMSPhysio) :
  exists w hr rg ph,
    final (compute_regressors firwin filtfilt self) =
      mkNIMSPhysio (log self) (tr self) (nframes self) (nslices self)
        (slice_order self) (card_wave self) (card_trig self) (card_dt self)
        hr w (resp_dt self) rg ph (scan_duration self) /\
    w = if (nframes self <? 3)%nat then resp_wave self
        else match Np.amin (resp_wave self) with
             | inr mn => map (fun x => x - mn) (resp_wave self)
             | inl _ => resp_wave self
             end.
Proof.
  unfold compute_regressors.
  destruct (nframes self <? 3)%nat.
  - simpl. repeat eexists.
  - destruct (Np.amin (resp_wave self)) as [e|mn].
    + destruct self; simpl. repeat eexists.
    + destruct (phases_stage _ _ _) as [P [e|]].
      * simpl. repeat eexists.
      * destruct (rvhr_stage _) as [[RVHR HR] [e|]]; simpl; repeat eexists.
Qed.

End Frame.

(** C4, as stated, fails: a call on the default object holding the
    respiration samples 1, 2, 3 leaves the samples 0, 1, 2 in [resp_wave]. *)
Lemma resp_wave_is_overwritten :
  let self := default_physio [] [1; 2; 3] in
  resp_wave (final (compute_regressors firwin_none filtfilt_none self)) = [0; 1; 2] /\
  resp_wave self = [1; 2; 3].
Proof.
  intros self. split; [|reflexivity].
  destruct (compute_regressors_final firwin_none filtfilt_none self)
    as [w [hr [rg [ph [E Hw]]]]].
  rewrite E. simpl. rewrite Hw. reflexivity.
Qed.

(** C4, amended: a call, whether it returns or raises, leaves [card_trig],
    [card_wave], [tr], [nframes] and [slice_order] (and the other timing
    attributes) as they were; [resp_wave] is left as it was when
    [nframes < 3] or the waveform is empty, and otherwise holds every sample
    minus the minimum sample. *)
Theorem inputs_after_call (firwin : nat -> R -> list R)
    (filtfilt : list R -> list R -> list R -> list R) (self : NIMSPhysio) :
  let after := final (compute_regressors firwin filtfilt self) in
  card_trig after = card_trig self /\
  card_wave after = card_wave self /\
  tr after = tr self /\
  nframes after = nframes self /\
  slice_order after = slice_order self /\
  nslices after = nslices self /\
  scan_duration after = scan_duration self /\
  card_dt after = card_dt self /\
  resp_dt after = resp_dt self /\
  resp_wave after =
    if (nframes self <? 3)%nat then resp_wave self
    else match Np.amin (resp_wave self) with
         | inr mn => map (fun x => x - mn) (resp_wave self)
         | inl _ => resp_wave self
         end.
Proof.
  intros after. subst after.
  destruct (compute_regressors_final firwin filtfilt self)
    as [w [hr [rg [ph [E Hw]]]]].
  rewrite E. simpl. rewrite Hw. repeat split; reflexivity.
Qed.

(** C7: with fewer than three frames the method returns without raising,
    emits the warning message once (through the logger when there is one,
    printed otherwise), sets [regressors] to [None] and writes nothing
    else: [phases] and [heart_rate] are what they were. *)
Theorem too_few_frames_declines (firwin : nat -> R -> list R)
    (filtfilt : list R -> list R -> list R -> list R) (self : NIMSPhysio) :
  (nframes self < 3)%nat ->
  let r := compute_regressors firwin filtfilt self in
  raised r = None /\
  emitted r = [if log self then LogWarning too_few_frames
               else Printed too_few_frames] /\
  final r = set_regressors None self /\
  regressors (final r) = None /\
  phases (final r) = phases self /\
  heart_rate (final r) = heart_rate self.
Proof.
  intros Hn r. subst r. unfold compute_regressors.
  apply Nat.ltb_lt in Hn. rewrite Hn. simpl. repeat split; reflexivity.
Qed.

Lemma too_few_frames_declines_witness :
  let self := init 2 2 1 None false (1 # 100) (4 # 100) [] [] [1; 2; 3] in
  raised (compute_regressors firwin_none filtfilt_none self) = None /\
  emitted (compute_regressors firwin_none filtfilt_none self) =
    [Printed too_few_frames].
Proof.
  intros self.
  assert (Hn : (nframes self < 3)%nat) by (simpl; lia).
  destruct (too_few_frames_declines firwin_none filtfilt_none self Hn)
    as [H1 [H2 _]].
  split; [exact H1|exact H2].
Defined.

(** ** Cardiac phase *)

Lemma Qltb_lt (x y : Q) : Np.Qltb x y = true <-> x < y.
Proof.
  unfold Np.Qltb. rewrite negb_true_iff. split.
  - intros H. apply Qnot_le_lt. intros Hle. apply Qle_bool_iff in Hle. congruence.
  - intros H. destruct (Qle_bool y x) eqn:E; [|reflexivity].
    apply Qle_bool_iff in E. exfalso. apply (Qlt_not_le _ _ H E).
Qed.

Lemma first_in (p : list nat) :
  p <> [] -> exists i, Np.first p = inr i /\ In i p.
Proof.
  destruct p as [|i p]; [congruence|]. intros _. exists i. simpl. auto.
Qed.

Lemma last_index_in (p : list nat) :
  p <> [] -> exists i, Np.last_index p = inr i /\ In i p.
Proof.
  intros Hp. unfold Np.last_index. destruct (rev p) as [|i q] eqn:E.
  - exfalso. apply Hp. apply (f_equal (@rev nat)) in E.
    now rewrite rev_involutive in E.
  - exists i. split; [reflexivity|]. apply in_rev. rewrite E. now left.
Qed.

(** An index the mask selects addresses a trigger that satisfies the test. *)
Lemma nonzero_map_getnat {A} (f : A -> bool) (l : list A) (i : nat) :
  In i (Np.nonzero (map f l)) ->
  exists c, Np.getnat l i = inr c /\ f c = true.
Proof.
  intros Hin. apply nonzero_spec in Hin. rewrite nth_error_map in Hin.
  unfold Np.getnat. destruct (nth_error l i) as [c|]; [|discriminate].
  exists c. split; [reflexivity|]. simpl in Hin. congruence.
Qed.

Lemma trig_t1_spec (self : NIMSPhysio) (t : Q) :
  exists t1, trig_t1 self t = inr t1 /\
             (t1 < t \/ (prev_trigs self t = [] /\ t1 = 0)).
Proof.
  unfold trig_t1. destruct (prev_trigs self t) as [|i0 p] eqn:E.
  - exists 0. split; [reflexivity|right; split; reflexivity].
  - destruct (last_index_in (i0 :: p)) as [i [Hi Hin]]; [discriminate|].
    rewrite Hi. simpl. rewrite <- E in Hin. unfold prev_trigs in Hin.
    apply nonzero_map_getnat in Hin as [c [Hc Hlt]].
    exists c. split; [exact Hc|left; now apply Qltb_lt].
Qed.

Lemma trig_t2_spec (self : NIMSPhysio) (t : Q) :
  exists t2, trig_t2 self t = inr t2 /\
             (t < t2 \/ (next_trigs self t = [] /\
                         t2 = QofNat (nframes self) * tr self)).
Proof.
  unfold trig_t2. destruct (next_trigs self t) as [|i0 p] eqn:E.
  - eexists. split; [reflexivity|right; split; reflexivity].
  - destruct (first_in (i0 :: p)) as [i [Hi Hin]]; [discriminate|].
    rewrite Hi. simpl bind. rewrite <- E in Hin. unfold next_trigs in Hin.
    apply nonzero_map_getnat in Hin as [c [Hc Hlt]].
    exists c. split; [exact Hc|left; now apply Qltb_lt].
Qed.

(** The phase of a time inside the scan: the time lies strictly between the
    two triggers (or scan ends) that bracket it, so the phase is a fraction
    of a full turn. *)
Lemma phi_cardiac_bounds (self : NIMSPhysio) (t : Q) :
  0 < t -> t < QofNat (nframes self) * tr self ->
  exists pc, phi_cardiac self t = inr pc /\ (0 <= pc <= 2 * PI)%R.
Proof.
  intros H0 H1. unfold phi_cardiac.
  destruct (trig_t1_spec self t) as [t1 [E1 Ht1]].
  destruct (trig_t2_spec self t) as [t2 [E2 Ht2]].
  rewrite E1, E2. simpl. eexists. split; [reflexivity|].
  assert (L1 : t1 < t) by (destruct Ht1 as [?|[_ ->]]; assumption).
  assert (L2 : t < t2) by (destruct Ht2 as [?|[_ ->]]; assumption).
  rewrite Q2R_mult, !Q2R_minus.
  apply Qlt_Rlt in L1, L2.
  replace (Q2R 2) with 2%R by (unfold Q2R; simpl; rlra).
  set (a := Q2R t) in *. set (b := Q2R t1) in *. set (c := Q2R t2) in *.
  pose proof PI_RGT_0 as Hpi.
  assert (Hd : (0 < c - b)%R) by rlra.
  split.
  - apply Rmult_le_pos; [|left; now apply Rinv_0_lt_compat].
    apply Rmult_le_pos; rlra.
  - apply Rmult_le_reg_r with (c - b)%R; [exact Hd|].
    unfold Rdiv. rewrite Rmult_assoc, Rinv_l by rlra. rnra.
Qed.

(** Without triggers the phase is [2*pi*t / (nframes*tr)]. *)
Lemma phi_cardiac_no_triggers (self : NIMSPhysio) (t : Q) :
  card_trig self = [] ->
  trig_t1 self t = inr 0 /\
  trig_t2 self t = inr (QofNat (nframes self) * tr self) /\
  phi_cardiac self t =
    inr (Q2R ((t - 0) * 2) * PI / Q2R (QofNat (nframes self) * tr self - 0))%R.
Proof.
  intros Hc. unfold phi_cardiac, trig_t1, trig_t2, prev_trigs, next_trigs.
  rewrite Hc. simpl. auto.
Qed.

Lemma phi_cardiac_no_triggers_mono (self : NIMSPhysio) (t t' : Q) (pc pc' : R) :
  card_trig self = [] ->
  0 < QofNat (nframes self) * tr self ->
  t <= t' ->
  phi_cardiac self t = inr pc -> phi_cardiac self t' = inr pc' ->
  (pc <= pc')%R.
Proof.
  intros Hc Hd Hle E E'.
  destruct (phi_cardiac_no_triggers self t Hc) as [_ [_ F]].
  destruct (phi_cardiac_no_triggers self t' Hc) as [_ [_ F']].
  rewrite F in E. rewrite F' in E'. injection E as <-. injection E' as <-.
  rewrite !Q2R_mult, !Q2R_minus.
  apply Qle_Rle in Hle. apply Qlt_Rlt in Hd.
  rewrite Q2R_mult in Hd.
  replace (Q2R 2) with 2%R by (unfold Q2R; simpl; rlra).
  replace (Q2R 0) with 0%R in * by (unfold Q2R; simpl; rlra).
  rewrite !Q2R_mult.
  set (a := Q2R t) in *. set (a' := Q2R t') in *.
  set (d := (Q2R (QofNat (nframes self)) * Q2R (tr self))%R) in *.
  pose proof PI_RGT_0 as Hpi.
  unfold Rdiv. apply Rmult_le_compat_r.
  - left. apply Rinv_0_lt_compat. rlra.
  - rnra.
Qed.

(** ** The amplitude histogram *)

Lemma Qminimum_le_l (x y : Q) : Np.Qminimum x y <= x.
Proof.
  unfold Np.Qminimum. destruct (Qle_bool x y) eqn:E; [apply Qle_refl|].
  apply Qlt_le_weak, Qnot_le_lt. intros H. apply Qle_bool_iff in H. congruence.
Qed.

Lemma Qmaximum_ge_l (x y : Q) : x <= Np.Qmaximum x y.
Proof.
  unfold Np.Qmaximum. destruct (Qle_bool x y) eqn:E; [|apply Qle_refl].
  now apply Qle_bool_iff.
Qed.

Lemma fold_Qminimum_le (l : list Q) (x : Q) : fold_left Np.Qminimum l x <= x.
Proof.
  revert x. induction l as [|y l IH]; intros x; simpl; [apply Qle_refl|].
  eapply Qle_trans; [apply IH|apply Qminimum_le_l].
Qed.

Lemma fold_Qmaximum_ge (l : list Q) (x : Q) : x <= fold_left Np.Qmaximum l x.
Proof.
  revert x. induction l as [|y l IH]; intros x; simpl; [apply Qle_refl|].
  eapply Qle_trans; [apply Qmaximum_ge_l|apply IH].
Qed.

Lemma amin_le_amax (a : list Q) (mn mx : Q) :
  Np.amin a = inr mn -> Np.amax a = inr mx -> mn <= mx.
Proof.
  destruct a as [|x a]; simpl; [discriminate|].
  intros H1 H2. injection H1 as <-. injection H2 as <-.
  eapply Qle_trans; [apply fold_Qminimum_le|apply fold_Qmaximum_ge].
Qed.

Lemma linspace_nth (a b : Q) (num k : nat) :
  (k < num)%nat ->
  nth k (Np.linspace a b num) 0 =
    a + QofNat k * ((b - a) / QofNat (num - 1)).
Proof.
  intros Hk. apply nth_error_nth. unfold Np.linspace.
  rewrite nth_error_map, nth_error_seq.
  apply Nat.ltb_lt in Hk. rewrite Hk. reflexivity.
Qed.

(** The edges of an ascending range do not decrease. *)
Lemma linspace_mono (a b : Q) (nbins j k : nat) :
  a <= b -> (j <= k)%nat -> (k <= nbins)%nat ->
  nth j (Np.linspace a b (S nbins)) 0 <= nth k (Np.linspace a b (S nbins)) 0.
Proof.
  intros Hab Hjk Hk. rewrite !linspace_nth by lia.
  simpl Nat.sub. rewrite Nat.sub_0_r.
  assert (Hs : 0 <= (b - a) / QofNat nbins).
  { destruct nbins as [|n].
    - unfold Qdiv. change (/ QofNat 0) with 0. rewrite Qmult_0_r. apply Qle_refl.
    - apply Qle_shift_div_l.
      + change 0 with (QofNat 0). apply QofNat_lt. lia.
      + qlra. }
  pose proof (QofNat_le j k Hjk). qnra.
Qed.

(** A sample falls in at most one bin. *)
Lemma in_bin_disjoint (a b : Q) (nbins j k : nat) (x : Q) :
  a <= b -> (j < k)%nat -> (k < nbins)%nat ->
  Np.in_bin (Np.linspace a b (S nbins)) nbins j x = true ->
  Np.in_bin (Np.linspace a b (S nbins)) nbins k x = true ->
  False.
Proof.
  intros Hab Hjk Hk Hj Hk'. unfold Np.in_bin in *.
  apply andb_true_iff in Hj as [_ Hj]. apply andb_true_iff in Hk' as [Hlo _].
  apply Qle_bool_iff in Hlo.
  pose proof (linspace_mono a b nbins (S j) k Hab ltac:(lia) ltac:(lia)) as Hm.
  apply orb_true_iff in Hj as [Hj|Hj].
  - apply Qltb_lt in Hj. qlra.
  - apply andb_true_iff in Hj as [Hj _]. apply Nat.eqb_eq in Hj. lia.
Qed.

Lemma sum_nat_indicators_zero (p : nat -> bool) (l : list nat) :
  (forall k, In k l -> p k = false) ->
  Np.sum_nat (map (fun k => indicator (p k)) l) = 0%nat.
Proof.
  induction l as [|i l IH]; intros H; simpl; [reflexivity|].
  rewrite (H i) by (now left). simpl. apply IH.
  intros k Hk. apply H. now right.
Qed.

Lemma sum_nat_indicators_le_1 (p : nat -> bool) (l : list nat) :
  NoDup l ->
  (forall j k, In j l -> In k l -> p j = true -> p k = true -> j = k) ->
  (Np.sum_nat (map (fun k => indicator (p k)) l) <= 1)%nat.
Proof.
  induction l as [|i l IH]; intros Hnd Huniq; simpl; [lia|].
  inversion Hnd as [|? ? Hni Hnd']; subst.
  destruct (p i) eqn:Ei; simpl.
  - rewrite sum_nat_indicators_zero; [lia|].
    intros k Hk. destruct (p k) eqn:Ek; [|reflexivity].
    exfalso. apply Hni.
    rewrite (Huniq i k); simpl; auto.
  - apply IH; [exact Hnd'|]. intros j k Hj Hk. apply Huniq; simpl; auto.
Qed.

Lemma sum_nat_map_add (f g : nat -> nat) (l : list nat) :
  Np.sum_nat (map (fun k => (f k + g k)%nat) l) =
  (Np.sum_nat (map f l) + Np.sum_nat (map g l))%nat.
Proof. induction l as [|i l IH]; simpl; lia. Qed.

Lemma sum_counts_le (p : nat -> Q -> bool) (ks : list nat) (a : list Q) :
  (forall x, Np.sum_nat (map (fun k => indicator (p k x)) ks) <= 1)%nat ->
  (Np.sum_nat (map (fun k => Np.count (p k) a) ks) <= length a)%nat.
Proof.
  intros Hone. induction a as [|x a IH]; simpl.
  - unfold Np.count. simpl. clear Hone.
    induction ks as [|k ks IHk]; simpl; [lia|exact IHk].
  - assert (E : forall k, Np.count (p k) (x :: a) =
                          (indicator (p k x) + Np.count (p k) a)%nat).
    { intros k. unfold Np.count. simpl. destruct (p k x); reflexivity. }
    rewrite (map_ext _ _ E), sum_nat_map_add. specialize (Hone x). lia.
Qed.

Lemma firstn_seq_min (s n k : nat) :
  firstn k (seq s n) = seq s (Nat.min k n).
Proof.
  revert s n. induction k as [|k IH]; intros s [|n]; simpl; try reflexivity.
  now rewrite IH.
Qed.

Lemma firstn_map_seq {A} (f : nat -> A) (n k : nat) :
  firstn k (map f (seq 0 n)) = map f (seq 0 (Nat.min k n)).
Proof.
  rewrite firstn_map. f_equal. apply firstn_seq_min.
Qed.

(** The counts of any leading run of bins add up to at most the number of
    samples, and there are [nbins + 1] edges. *)
Lemma histogram_partial_sum (a : list Q) (nbins k : nat) :
  (Np.sum_nat (firstn k (fst (Np.histogram a nbins))) <= length a)%nat /\
  length (snd (Np.histogram a nbins)) = S nbins.
Proof.
  unfold Np.histogram.
  set (rng := match Np.amin a, Np.amax a with
              | inr mn, inr mx =>
                  if Qeq_bool mn mx then (mn - (1 # 2), mx + (1 # 2)) else (mn, mx)
              | _, _ => (0, 1)
              end).
  assert (Hr : fst rng <= snd rng).
  { subst rng. destruct (Np.amin a) as [e|mn] eqn:E1; [simpl; qlra|].
    destruct (Np.amax a) as [e|mx] eqn:E2; [simpl; qlra|].
    pose proof (amin_le_amax a mn mx E1 E2).
    destruct (Qeq_bool mn mx); simpl; qlra. }
  destruct rng as [mn mx]. simpl in Hr. simpl. split.
  - rewrite firstn_map_seq. apply sum_counts_le. intros x.
    apply sum_nat_indicators_le_1; [apply seq_NoDup|].
    intros i j Hi Hj Pi Pj. apply in_seq in Hi, Hj.
    destruct (Nat.lt_trichotomy i j) as [Hlt|[Heq|Hgt]]; [|exact Heq|].
    + exfalso. apply (in_bin_disjoint mn mx nbins i j x Hr Hlt); auto. lia.
    + exfalso. apply (in_bin_disjoint mn mx nbins j i x Hr Hgt); auto. lia.
  - unfold Np.linspace. now rewrite length_map, length_seq.
Qed.

(** ** Respiratory phase *)

Lemma getitem_in_range {A} (l : list A) (i : Z) :
  (0 <= i < Z.of_nat (length l))%Z ->
  exists x, Np.getitem l i = inr x /\ nth_error l (Z.to_nat i) = Some x.
Proof.
  intros [H0 H1]. unfold Np.getitem.
  destruct (i <? 0)%Z eqn:E; [apply Z.ltb_lt in E; lia|].
  assert (E1 : ((0 <=? i) && (i <? Z.of_nat (length l)))%Z = true).
  { apply andb_true_iff. split; [now apply Z.leb_le|now apply Z.ltb_lt]. }
  rewrite E1.
  destruct (nth_error l (Z.to_nat i)) as [x|] eqn:En.
  - exists x. auto.
  - apply nth_error_None in En. lia.
Qed.

Lemma diff_length (l : list R) : length (Np.diff l) = (length l - 1)%nat.
Proof.
  induction l as [|x [|y l] IH]; simpl in *; try reflexivity.
  rewrite IH. lia.
Qed.

Lemma iphys_range (self : NIMSPhysio) (drdt : list R) (t : Q) :
  (1 <= length drdt)%nat ->
  (0 <= iphys self drdt t < Z.of_nat (length drdt))%Z.
Proof. intros H. unfold iphys. lia. Qed.

Lemma sign_cases (x : R) :
  (Np.sign x = 1 \/ Np.sign x = -1 \/ (Np.sign x = 0 /\ x = 0))%R.
Proof.
  unfold Np.sign. destruct (Rlt_dec 0 x); [now left|].
  destruct (Rlt_dec x 0); [right; now left|].
  right; right. split; [reflexivity|rlra].
Qed.

Lemma sign_zero : Np.sign 0 = 0%R.
Proof.
  unfold Np.sign. destruct (Rlt_dec 0 0); [rlra|]. destruct (Rlt_dec 0 0); [rlra|].
  reflexivity.
Qed.

Lemma argmin_nonempty (l : list Q) :
  l <> [] -> exists k, Np.argmin l = inr k.
Proof. destruct l; [congruence|]. intros _. eexists. reflexivity. Qed.

(** The respiratory phase is [pi * sign(drdt[i]) * numer / respfilt.size]
    with [numer] at most the number of samples. *)
Lemma phi_resp_spec (self : NIMSPhysio) (Hb : list nat) (bins : list Q)
    (respfilt drdt : list R) (t : Q) :
  (1 <= length drdt)%nat ->
  (length drdt <= length (resp_wave self))%nat ->
  bins <> [] ->
  (0 < length respfilt)%nat ->
  (forall k, Np.sum_nat (firstn k Hb) <= length respfilt)%nat ->
  exists pr d numer,
    phi_resp self Hb bins respfilt drdt t = inr pr /\
    Np.getitem drdt (iphys self drdt t) = inr d /\
    pr = (PI * Np.sign d * (INR numer / INR (length respfilt)))%R /\
    (numer <= length respfilt)%nat /\
    (- PI <= pr <= PI)%R /\
    (d = 0%R -> pr = 0%R) /\
    exists thisBin, numer = Np.sum_nat (firstn thisBin Hb).
Proof.
  intros Hd Hw Hbins Hn Hsum. unfold phi_resp.
  pose proof (iphys_range self drdt t Hd) as Hi.
  destruct (getitem_in_range (resp_wave self) (iphys self drdt t)) as [amp [Ea _]];
    [lia|].
  destruct (getitem_in_range drdt (iphys self drdt t) Hi) as [d [Ed _]].
  rewrite Ea. simpl bind.
  destruct (argmin_nonempty (map (fun b => Np.Qabs' (amp - b)) bins)) as [k Ek].
  { destruct bins; [congruence|discriminate]. }
  rewrite Ek. simpl bind. rewrite Ed. simpl bind.
  exists (PI * Np.sign d * (INR (Np.sum_nat (firstn k Hb)) / INR (length respfilt)))%R,
         d, (Np.sum_nat (firstn k Hb)).
  split; [reflexivity|]. split; [reflexivity|]. split; [reflexivity|].
  split; [apply Hsum|].
  set (numer := Np.sum_nat (firstn k Hb)).
  assert (Hq : (0 <= INR numer / INR (length respfilt) <= 1)%R).
  { assert (Hl : (0 < INR (length respfilt))%R) by (apply lt_0_INR; exact Hn).
    assert (Hnum : (0 <= INR numer)%R) by apply pos_INR.
    assert (Hle : (INR numer <= INR (length respfilt))%R) by (apply le_INR, Hsum).
    split.
    - apply Rmult_le_pos; [exact Hnum|]. left. now apply Rinv_0_lt_compat.
    - apply Rmult_le_reg_r with (INR (length respfilt)); [exact Hl|].
      unfold Rdiv. rewrite Rmult_assoc, Rinv_l by rlra. rlra. }
  pose proof PI_RGT_0 as Hpi.
  set (q := (INR numer / INR (length respfilt))%R) in *.
  split; [|split].
  - destruct (sign_cases d) as [->|[->|[-> _]]]; split; rnra.
  - intros ->. rewrite sign_zero. ring.
  - exists k. reflexivity.
Qed.

(** ** The phase loop *)

Lemma zeros3_shape {A} (z : A) (n m k : nat) :
  length (zeros3 z n m k) = n /\
  forall i, (i < n)%nat -> length (nth i (zeros3 z n m k) []) = m.
Proof.
  unfold zeros3, zeros2. split; [apply repeat_length|].
  intros i Hi. rewrite nth_repeat_lt by exact Hi. apply repeat_length.
Qed.

Lemma set_row_length {A} (i j : nat) (v : list A) (T : list (list (list A))) :
  length (set_row i j v T) = length T.
Proof. apply update_nth_length. Qed.

Lemma set_row_row_length {A} (i j i' : nat) (v : list A) (T : list (list (list A))) :
  length (nth i' (set_row i j v T) []) = length (nth i' T []).
Proof.
  unfold set_row. destruct (Nat.eq_dec i i') as [<-|Hne].
  - destruct (Nat.lt_ge_cases i (length T)) as [Hlt|Hge].
    + rewrite update_nth_same by exact Hlt. apply set_nth_length.
    + rewrite !nth_overflow; auto. now rewrite update_nth_length.
  - now rewrite update_nth_other.
Qed.

Lemma set_row_same {A} (i j : nat) (v : list A) (T : list (list (list A))) :
  (i < length T)%nat -> (j < length (nth i T []))%nat ->
  nth j (nth i (set_row i j v T) []) [] = v.
Proof.
  intros Hi Hj. unfold set_row.
  rewrite update_nth_same by exact Hi. now apply set_nth_same.
Qed.

Lemma set_row_other {A} (i j i' j' : nat) (v : list A) (T : list (list (list A))) :
  (i, j) <> (i', j') ->
  nth j' (nth i' (set_row i j v T) []) [] = nth j' (nth i' T []) [].
Proof.
  intros Hne. unfold set_row. destruct (Nat.eq_dec i i') as [<-|Hi].
  - destruct (Nat.lt_ge_cases i (length T)) as [Hlt|Hge].
    + rewrite update_nth_same by exact Hlt. apply set_nth_other. congruence.
    + rewrite (nth_overflow T _ Hge).
      rewrite (nth_overflow (update_nth i (set_nth j v) T));
        [reflexivity|now rewrite update_nth_length].
  - now rewrite update_nth_other.
Qed.

Section PhaseLoop.

Variable self : NIMSPhysio.
Variable Hb : list nat.
Variable bins : list Q.
Variables respfilt drdt : list R.
Variable nslc : nat.

Hypothesis defined : forall sl, (sl < nslc)%nat ->
  exists cur, cur_slice_acq (slice_order self) sl = inr cur /\
    forall fr, (fr < nframes self)%nat ->
      exists v, phase_pair self Hb bins respfilt drdt
                  (slice_times self nslc cur) fr = inr v.

Lemma phases_slice_total (sl : nat) (P : list (list (list R))) :
  (sl < nslc)%nat ->
  length P = nslc ->
  (forall i, (i < nslc)%nat -> length (nth i P []) = nframes self) ->
  (forall i fr, (i < sl)%nat -> (fr < nframes self)%nat ->
     phase_stored self Hb bins respfilt drdt nslc P i fr) ->
  exists P',
    phases_slice self Hb bins respfilt drdt nslc sl P = (P', None) /\
    length P' = nslc /\
    (forall i, (i < nslc)%nat -> length (nth i P' []) = nframes self) /\
    (forall i fr, (i < S sl)%nat -> (fr < nframes self)%nat ->
       phase_stored self Hb bins respfilt drdt nslc P' i fr).
Proof.
  intros Hsl HL HR Hprev. unfold phases_slice.
  destruct (defined sl Hsl) as [cur [Ec Hv]]. rewrite Ec.
  destruct (for_range_total
    (fun j P' =>
       length P' = nslc /\
       (forall i, (i < nslc)%nat -> length (nth i P' []) = nframes self) /\
       (forall i fr, (i < sl)%nat -> (fr < nframes self)%nat ->
          phase_stored self Hb bins respfilt drdt nslc P' i fr) /\
       (forall fr, (fr < j)%nat -> phase_stored self Hb bins respfilt drdt nslc P' sl fr))
    (nframes self)
    (phases_frame self Hb bins respfilt drdt sl (slice_times self nslc cur)) P)
    as [P' [E [HL' [HR' [Hprev' Hcur]]]]].
  - repeat split; auto. intros fr Hfr. lia.
  - intros fr Q Hfr [HLq [HRq [Hpq Hcq]]].
    destruct (Hv fr Hfr) as [v Ev].
    unfold phases_frame, assign. rewrite Ev.
    eexists. split; [reflexivity|]. split; [|split; [|split]].
    + now rewrite set_row_length.
    + intros i Hi. rewrite set_row_row_length. now apply HRq.
    + intros i fr' Hi Hfr'. destruct (Hpq i fr' Hi Hfr') as [c [w [H1 [H2 H3]]]].
      exists c, w. repeat split; auto.
      rewrite set_row_other; [exact H3|]. intros Heq. inversion Heq. lia.
    + intros fr' Hfr'. destruct (Nat.eq_dec fr' fr) as [->|Hne].
      * exists cur, v. repeat split; auto.
        apply set_row_same; [lia|]. rewrite HRq; auto.
      * destruct (Hcq fr' ltac:(lia)) as [c [w [H1 [H2 H3]]]].
        exists c, w. repeat split; auto.
        rewrite set_row_other; [exact H3|]. intros Heq. inversion Heq. lia.
  - exists P'. repeat split; auto.
    intros i fr Hi Hfr. destruct (Nat.eq_dec i sl) as [->|Hne].
    + now apply Hcur.
    + apply Hprev'; [lia|exact Hfr].
Qed.

(** The loop over the slices runs to its end and stores every pair. *)
Lemma phases_loop_total :
  exists P,
    for_range nslc (phases_slice self Hb bins respfilt drdt nslc)
              (zeros3 0%R nslc (nframes self) 2) = (P, None) /\
    length P = nslc /\
    (forall sl, (sl < nslc)%nat -> length (nth sl P []) = nframes self) /\
    (forall sl fr, (sl < nslc)%nat -> (fr < nframes self)%nat ->
       phase_stored self Hb bins respfilt drdt nslc P sl fr).
Proof.
  destruct (for_range_total
    (fun sl P =>
       length P = nslc /\
       (forall i, (i < nslc)%nat -> length (nth i P []) = nframes self) /\
       (forall i fr, (i < sl)%nat -> (fr < nframes self)%nat ->
          phase_stored self Hb bins respfilt drdt nslc P i fr))
    nslc (phases_slice self Hb bins respfilt drdt nslc)
    (zeros3 0%R nslc (nframes self) 2))
    as [P [E [HL [HR HS]]]].
  - destruct (zeros3_shape 0%R nslc (nframes self) 2) as [H1 H2].
    repeat split; auto. intros i fr Hi. lia.
  - intros sl P Hsl [HL [HR HS]].
    destruct (phases_slice_total sl P Hsl HL HR HS) as [P' [E' H']].
    exists P'. split; [exact E'|exact H'].
  - exists P. repeat split; auto.
Qed.

End PhaseLoop.

(** ** The phase stage of a call *)

Lemma amin_nonempty (l : list Q) :
  (1 <= length l)%nat -> exists mn, Np.amin l = inr mn.
Proof. destruct l; simpl; [lia|]. intros _. eexists. reflexivity. Qed.

Lemma ScanInputs_shift (filtfilt : list R -> list R -> list R -> list R)
    (self : NIMSPhysio) (mn : Q) :
  ScanInputs filtfilt self -> ScanInputs filtfilt (shift_resp mn self).
Proof.
  intros [Hf [Ht [Hd [Hp Hw]]]]. unfold ScanInputs. simpl.
  rewrite length_map. auto.
Qed.

Section PhaseStage.

Variable firwin : nat -> R -> list R.
Variable filtfilt : list R -> list R -> list R -> list R.
Variable self : NIMSPhysio.
Hypothesis inputs : ScanInputs filtfilt self.

Lemma respfilt_length :
  length (respfilt_of firwin filtfilt self) = length (resp_wave self).
Proof.
  destruct inputs as [Hf _]. unfold respfilt_of. now rewrite Hf, length_map.
Qed.

(** Every slice has a position and every frame a time inside the scan. *)
Lemma acquisition_time (sl fr : nat) :
  (sl < length (slice_order self))%nat -> (fr < nframes self)%nat ->
  exists cur t,
    cur_slice_acq (slice_order self) sl = inr cur /\
    Np.getnat (slice_times self (length (slice_order self)) cur) fr = inr t /\
    0 < t /\ t < QofNat (nframes self) * tr self.
Proof.
  intros Hsl Hfr. destruct inputs as [_ [Ht [Hd [Hp _]]]].
  destruct (permutation_lookup _ sl Hp Hsl) as [cur [Ec [_ Hc]]].
  exists cur. eexists. split; [exact Ec|]. split; [now apply slice_times_nth|].
  now apply slice_time_bounds.
Qed.

(** The phase pair of every slice and frame is defined, its cardiac part
    within a turn and its respiratory part within half a turn. *)
Lemma phase_pair_total (sl fr : nat) :
  (sl < length (slice_order self))%nat -> (fr < nframes self)%nat ->
  let Hb := fst (Np.histogram (resp_wave self) 100) in
  let bins := snd (Np.histogram (resp_wave self) 100) in
  let respfilt := respfilt_of firwin filtfilt self in
  let drdt := Np.diff respfilt in
  exists cur t pc pr d numer,
    cur_slice_acq (slice_order self) sl = inr cur /\
    Np.getnat (slice_times self (length (slice_order self)) cur) fr = inr t /\
    phi_cardiac self t = inr pc /\
    phi_resp self Hb bins respfilt drdt t = inr pr /\
    phase_pair self Hb bins respfilt drdt
      (slice_times self (length (slice_order self)) cur) fr = inr [pc; pr] /\
    (0 <= pc <= 2 * PI)%R /\
    Np.getitem drdt (iphys self drdt t) = inr d /\
    pr = (PI * Np.sign d * (INR numer / INR (length respfilt)))%R /\
    (numer <= length respfilt)%nat /\
    (- PI <= pr <= PI)%R /\
    (d = 0%R -> pr = 0%R) /\
    exists thisBin, numer = Np.sum_nat (firstn thisBin Hb).
Proof.
  intros Hsl Hfr Hb bins respfilt drdt.
  destruct (acquisition_time sl fr Hsl Hfr) as [cur [t [Ec [Et [H0 H1]]]]].
  destruct (phi_cardiac_bounds self t H0 H1) as [pc [Epc Hpc]].
  pose proof respfilt_length as Hrl. fold respfilt in Hrl.
  destruct inputs as [_ [_ [_ [_ Hw]]]].
  destruct (histogram_partial_sum (resp_wave self) 100 0) as [_ Hbl].
  fold bins in Hbl.
  destruct (phi_resp_spec self Hb bins respfilt drdt t)
    as [pr [d [numer [Epr [Ed [Hpr [Hnum [Hrange [Hzero Hbin]]]]]]]]].
  - subst drdt. rewrite diff_length. lia.
  - subst drdt. rewrite diff_length. lia.
  - intros E. rewrite E in Hbl. discriminate.
  - lia.
  - intros k. rewrite Hrl. subst Hb.
    apply (histogram_partial_sum (resp_wave self) 100 k).
  - exists cur, t, pc, pr, d, numer.
    repeat (split; [first [assumption|apply Hpc|apply Hrange|idtac]|]); auto.
    unfold phase_pair. rewrite Et. simpl bind. rewrite Epc. simpl bind.
    rewrite Epr. reflexivity.
Qed.

Lemma phases_stage_total :
  exists P,
    phases_stage firwin filtfilt self = (P, None) /\
    forall sl fr, (sl < length (slice_order self))%nat -> (fr < nframes self)%nat ->
      phase_stored self (fst (Np.histogram (resp_wave self) 100))
        (snd (Np.histogram (resp_wave self) 100))
        (respfilt_of firwin filtfilt self)
        (Np.diff (respfilt_of firwin filtfilt self))
        (length (slice_order self)) P sl fr.
Proof.
  unfold phases_stage.
  destruct (Np.histogram (resp_wave self) 100) as [Hb bins] eqn:EH.
  destruct (phases_loop_total self Hb bins (respfilt_of firwin filtfilt self)
              (Np.diff (respfilt_of firwin filtfilt self))
              (length (slice_order self))) as [P [E [_ [_ HS]]]].
  - intros sl Hsl.
    destruct inputs as [_ [Ht [Hd [Hp _]]]].
    destruct (permutation_lookup _ sl Hp Hsl) as [cur [Ec _]].
    exists cur. split; [exact Ec|]. intros fr Hfr.
    destruct (phase_pair_total sl fr Hsl Hfr)
      as [cur' [t [pc [pr [d [numer [Ec' [_ [_ [_ [Epp _]]]]]]]]]]].
    rewrite EH in Epp. simpl in Epp.
    assert (cur' = cur) by congruence. subst cur'.
    eexists. exact Epp.
  - exists P. split; [exact E|]. simpl. exact HS.
Qed.

End PhaseStage.

(** A call on good inputs with at least three frames shifts the waveform,
    completes the phase stage and leaves its tensor in [phases], whatever
    the later stages do. *)
Lemma call_stores_phases (firwin : nat -> R -> list R)
    (filtfilt : list R -> list R -> list R -> list R) (self : NIMSPhysio) :
  ScanInputs filtfilt self -> (3 <= nframes self)%nat ->
  exists mn P,
    Np.amin (resp_wave self) = inr mn /\
    phases_stage firwin filtfilt (shift_resp mn self) = (P, None) /\
    phases (final (compute_regressors firwin filtfilt self)) = Some P.
Proof.
  intros Hin Hn.
  destruct (amin_nonempty (resp_wave self)) as [mn Emn].
  { destruct Hin as [_ [_ [_ [_ Hw]]]]. lia. }
  destruct (phases_stage_total firwin filtfilt (shift_resp mn self)
              (ScanInputs_shift _ _ mn Hin)) as [P [EP _]].
  exists mn, P. split; [exact Emn|]. split; [exact EP|].
  unfold compute_regressors.
  assert (E3 : (nframes self <? 3)%nat = false) by (apply Nat.ltb_ge; lia).
  rewrite E3, Emn, EP.
  destruct (rvhr_stage _) as [[RVHR HR] [e|]]; reflexivity.
Qed.

(** Entry [(sl, fr)] of the stored tensor is the pair of the cardiac phase
    of the slice time and the respiratory phase computed from the shifted
    waveform. *)
Lemma call_phase_entries (firwin : nat -> R -> list R)
    (filtfilt : list R -> list R -> list R -> list R) (self : NIMSPhysio) :
  ScanInputs filtfilt self -> (3 <= nframes self)%nat ->
  exists mn P,
    Np.amin (resp_wave self) = inr mn /\
    phases (final (compute_regressors firwin filtfilt self)) = Some P /\
    forall sl fr, (sl < length (slice_order self))%nat -> (fr < nframes self)%nat ->
      let s1 := shift_resp mn self in
      let respfilt := respfilt_of firwin filtfilt s1 in
      let drdt := Np.diff respfilt in
      exists cur t pc pr d numer,
        cur_slice_acq (slice_order self) sl = inr cur /\
        Np.getnat (slice_times self (length (slice_order self)) cur) fr = inr t /\
        0 < t /\ t < QofNat (nframes self) * tr self /\
        phi_cardiac self t = inr pc /\
        nth fr (nth sl P []) [] = [pc; pr] /\
        (0 <= pc <= 2 * PI)%R /\
        Np.getitem drdt (iphys s1 drdt t) = inr d /\
        pr = (PI * Np.sign d * (INR numer / INR (length respfilt)))%R /\
        (numer <= length respfilt)%nat /\
        length respfilt = length (resp_wave self) /\
        (- PI <= pr <= PI)%R /\
        (d = 0%R -> pr = 0%R) /\
        exists thisBin,
          numer = Np.sum_nat (firstn thisBin (fst (Np.histogram (resp_wave s1) 100))).
Proof.
  intros Hin Hn.
  destruct (call_stores_phases firwin filtfilt self Hin Hn) as [mn [P [Emn [EP EF]]]].
  exists mn, P. split; [exact Emn|]. split; [exact EF|].
  intros sl fr Hsl Hfr s1 respfilt drdt.
  pose proof (ScanInputs_shift _ _ mn Hin) as Hin1. fold s1 in Hin1.
  destruct (phases_stage_total firwin filtfilt s1 Hin1) as [P' [EP' HS]].
  subst s1. rewrite EP in EP'. injection EP' as <-.
  destruct (HS sl fr Hsl Hfr) as [cur [v [Ec [Ev Hv]]]].
  destruct (phase_pair_total firwin filtfilt _ Hin1 sl fr Hsl Hfr)
    as [cur' [t [pc [pr [d [numer [Ec' [Et [Epc [Epr [Epp [Hpc [Ed [Hpr [Hnum
        [Hr [Hz Hbin]]]]]]]]]]]]]]]]].
  simpl slice_order in *.
  assert (cur' = cur) by congruence. subst cur'.
  assert (Hveq : v = [pc; pr]) by congruence. rewrite Hveq in Hv.
  destruct (acquisition_time filtfilt self Hin sl fr Hsl Hfr)
    as [cur' [t' [Ec2 [Et2 [H0 H1]]]]].
  assert (cur' = cur) by congruence. subst cur'.
  assert (t' = t).
  { change (slice_times (shift_resp mn self)) with (slice_times self) in Et.
    simpl nframes in Et. congruence. }
  subst t'.
  exists cur, t, pc, pr, d, numer.
  split; [exact Ec|]. split; [exact Et2|]. split; [exact H0|]. split; [exact H1|].
  split; [exact Epc|]. split; [exact Hv|]. split; [exact Hpc|].
  split; [exact Ed|]. split; [exact Hpr|]. split; [exact Hnum|].
  split; [|split; [exact Hr|split; [exact Hz|exact Hbin]]].
  subst respfilt. rewrite (respfilt_length firwin filtfilt _ Hin1).
  simpl. apply length_map.
Qed.

(** C5: on good inputs with at least three frames the cardiac phase stored
    for every slice and frame is the phase of the slice time and lies in
    [0, 2*pi], whether or not any trigger exists; with no trigger at all,
    [t1 = 0] and [t2 = nframes*tr] at every time and the stored cardiac
    phase of a slice does not decrease from a frame to a later one. *)
Theorem cardiac_phase_range (firwin : nat -> R -> list R)
    (filtfilt : list R -> list R -> list R -> list R) (self : NIMSPhysio) :
  ScanInputs filtfilt self -> (3 <= nframes self)%nat ->
  exists P,
    phases (final (compute_regressors firwin filtfilt self)) = Some P /\
    (forall sl fr, (sl < length (slice_order self))%nat -> (fr < nframes self)%nat ->
       exists cur t pc,
         cur_slice_acq (slice_order self) sl = inr cur /\
         Np.getnat (slice_times self (length (slice_order self)) cur) fr = inr t /\
         phi_cardiac self t = inr pc /\
         nth 0 (nth fr (nth sl P []) []) 0%R = pc /\
         (0 <= pc <= 2 * PI)%R) /\
    (card_trig self = [] ->
       (forall t, trig_t1 self t = inr 0 /\
                  trig_t2 self t = inr (QofNat (nframes self) * tr self)) /\
       forall sl fr fr', (sl < length (slice_order self))%nat ->
         (fr <= fr')%nat -> (fr' < nframes self)%nat ->
         (nth 0 (nth fr (nth sl P []) []) 0 <= nth 0 (nth fr' (nth sl P []) []) 0)%R).
Proof.
  intros Hin Hn.
  destruct (call_phase_entries firwin filtfilt self Hin Hn) as [mn [P [_ [EF HE]]]].
  exists P. split; [exact EF|]. split.
  - intros sl fr Hsl Hfr.
    destruct (HE sl fr Hsl Hfr)
      as [cur [t [pc [pr [d [numer [Ec [Et [_ [_ [Epc [Hv [Hpc _]]]]]]]]]]]]].
    exists cur, t, pc. rewrite Hv. simpl. auto.
  - intros Hc. split.
    + intros t. destruct (phi_cardiac_no_triggers self t Hc) as [H1 [H2 _]]. auto.
    + intros sl fr fr' Hsl Hle Hfr'.
      destruct (HE sl fr Hsl ltac:(lia))
        as [cur [t [pc [pr [d [numer [Ec [Et [H0 [H1 [Epc [Hv _]]]]]]]]]]]].
      destruct (HE sl fr' Hsl Hfr')
        as [cur' [t' [pc' [pr' [d' [numer' [Ec' [Et' [_ [_ [Epc' [Hv' _]]]]]]]]]]]].
      rewrite Hv, Hv'. simpl.
      assert (cur' = cur) by congruence. subst cur'.
      destruct Hin as [_ [Ht [Hd [Hp _]]]].
      destruct (permutation_lookup _ sl Hp Hsl) as [c [Ec2 [_ Hc2]]].
      assert (c = cur) by congruence. subst c.
      rewrite slice_times_nth in Et, Et' by (auto; lia).
      injection Et as <-. injection Et' as <-.
      refine (phi_cardiac_no_triggers_mono self _ _ pc pc' Hc _ _ Epc Epc').
      * eapply Qlt_trans; [exact H0|exact H1].
      * pose proof (QofNat_le fr fr' Hle). qnra.
Qed.

(** C10: on good inputs with at least three frames the respiratory phase
    stored for every slice and frame is
    [pi * sign(drdt[i]) * numer / respfilt.size], where [numer] is the sum
    of the histogram counts below the selected bin and never exceeds the
    number of samples, which is [respfilt.size]; so it lies in [-pi, pi],
    and it is 0 when the filtered derivative at the selected sample is 0. *)
Theorem respiratory_phase_range (firwin : nat -> R -> list R)
    (filtfilt : list R -> list R -> list R -> list R) (self : NIMSPhysio) :
  ScanInputs filtfilt self -> (3 <= nframes self)%nat ->
  exists mn P,
    Np.amin (resp_wave self) = inr mn /\
    phases (final (compute_regressors firwin filtfilt self)) = Some P /\
    forall sl fr, (sl < length (slice_order self))%nat -> (fr < nframes self)%nat ->
      let s1 := shift_resp mn self in
      let Hb := fst (Np.histogram (resp_wave s1) 100) in
      let respfilt := respfilt_of firwin filtfilt s1 in
      let drdt := Np.diff respfilt in
      exists cur t d thisBin,
        cur_slice_acq (slice_order self) sl = inr cur /\
        Np.getnat (slice_times self (length (slice_order self)) cur) fr = inr t /\
        Np.getitem drdt (iphys s1 drdt t) = inr d /\
        nth 1 (nth fr (nth sl P []) []) 0%R =
          (PI * Np.sign d *
           (INR (Np.sum_nat (firstn thisBin Hb)) / INR (length respfilt)))%R /\
        (Np.sum_nat (firstn thisBin Hb) <= length respfilt)%nat /\
        length respfilt = length (resp_wave self) /\
        (Np.sign d = 1 \/ Np.sign d = -1 \/ Np.sign d = 0)%R /\
        (- PI <= nth 1 (nth fr (nth sl P []) []) 0 <= PI)%R /\
        (d = 0%R -> nth 1 (nth fr (nth sl P []) []) 0%R = 0%R).
Proof.
  intros Hin Hn.
  destruct (call_phase_entries firwin filtfilt self Hin Hn) as [mn [P [Emn [EF HE]]]].
  exists mn, P. split; [exact Emn|]. split; [exact EF|].
  intros sl fr Hsl Hfr s1 Hb respfilt drdt.
  destruct (HE sl fr Hsl Hfr)
    as [cur [t [pc [pr [d [numer [Ec [Et [_ [_ [_ [Hv [_ [Ed [Hpr [Hnum [Hlen
        [Hr [Hz [k Hk]]]]]]]]]]]]]]]]]]]].
  exists cur, t, d, k. rewrite Hv. simpl nth.
  fold s1 in Hk. fold Hb in Hk. subst numer.
  split; [exact Ec|]. split; [exact Et|]. split; [exact Ed|].
  split; [exact Hpr|]. split; [exact Hnum|]. split; [exact Hlen|].
  split; [|split; [exact Hr|exact Hz]].
  destruct (sign_cases d) as [H|[H|[H _]]]; auto.
Qed.

(** ** A concrete run *)

Lemma scenario_A_inputs : ScanInputs filtfilt_none scenario_A.
Proof.
  unfold ScanInputs. split; [reflexivity|]. split; [reflexivity|].
  split; [reflexivity|]. split; [apply Permutation_refl|].
  unfold scenario_A, init; cbn [resp_wave].
  rewrite length_map, length_seq. lia.
Qed.

Lemma scenario_A_frames : (3 <= nframes scenario_A)%nat.
Proof. simpl. lia. Qed.

Lemma cardiac_phase_range_witness :
  ScanInputs filtfilt_none scenario_A /\
  (3 <= nframes scenario_A)%nat /\
  exists P pc,
    phases (final (compute_regressors firwin_none filtfilt_none scenario_A)) = Some P /\
    nth 0 (nth 4 (nth 0 P []) []) 0%R = pc /\ (0 <= pc <= 2 * PI)%R.
Proof.
  split; [exact scenario_A_inputs|]. split; [exact scenario_A_frames|].
  destruct (cardiac_phase_range firwin_none filtfilt_none scenario_A
              scenario_A_inputs scenario_A_frames) as [P [E [H _]]].
  destruct (H 0%nat 4%nat) as [cur [t [pc [_ [_ [_ [Hv Hr]]]]]]];
    [simpl; lia|simpl; lia|].
  exists P, pc. auto.
Defined.

Lemma respiratory_phase_range_witness :
  ScanInputs filtfilt_none scenario_A /\
  (3 <= nframes scenario_A)%nat /\
  exists P,
    phases (final (compute_regressors firwin_none filtfilt_none scenario_A)) = Some P /\
    (- PI <= nth 1 (nth 4 (nth 0 P []) []) 0 <= PI)%R.
Proof.
  split; [exact scenario_A_inputs|]. split; [exact scenario_A_frames|].
  destruct (respiratory_phase_range firwin_none filtfilt_none scenario_A
              scenario_A_inputs scenario_A_frames) as [mn [P [_ [E H]]]].
  destruct (H 0%nat 4%nat) as [cur [t [d [k [_ [_ [_ [_ [_ [_ [_ [Hr _]]]]]]]]]]]];
    [simpl; lia|simpl; lia|].
  exists P. auto.
Defined.

(** ** The RV and HR loops of one slice *)

Section SliceSeries.

Variable self : NIMSPhysio.
Variable times : list Q.
Hypothesis timed : forall tp, (tp < nframes self)%nat ->
  exists t, Np.getnat times tp = inr t.
Hypothesis frames : (0 < nframes self)%nat.

(** The RV loop raises exactly when some frame has [i2 < i1]. *)
Lemma rv_loop_cases :
  ((forall tp t, (tp < nframes self)%nat -> Np.getnat times tp = inr t ->
      (rv_i1 self t <= rv_i2 self t)%Z) /\
   exists rv,
     for_range (nframes self) (rv_frame self times)
               (zeros1 0%R (nframes self)) = (rv, None) /\
     length rv = nframes self) \/
  ((exists tp t, (tp < nframes self)%nat /\ Np.getnat times tp = inr t /\
      (rv_i2 self t < rv_i1 self t)%Z) /\
   exists rv,
     for_range (nframes self) (rv_frame self times)
               (zeros1 0%R (nframes self)) = (rv, Some resp_short)).
Proof.
  destruct (for_range_cases
    (fun _ rv => length rv = nframes self)
    (fun tp => exists t, Np.getnat times tp = inr t /\ (rv_i2 self t < rv_i1 self t)%Z)
    (fun e => e = resp_short)
    (nframes self) (rv_frame self times) (zeros1 0%R (nframes self)))
    as [[Hgood [rv [E HL]]]|[[tp [Htp [t [Et Hlt]]]] [rv [e [E ->]]]]].
  - apply zeros1_length.
  - intros tp rv Htp HL. destruct (timed tp Htp) as [t Et].
    unfold rv_frame. rewrite Et.
    destruct (rv_i2 self t <? rv_i1 self t)%Z eqn:Ecmp.
    + right. apply Z.ltb_lt in Ecmp. split; [exists t; auto|].
      exists rv, resp_short. auto.
    + left. apply Z.ltb_ge in Ecmp. split.
      * intros [t' [Et' Hlt]]. assert (t' = t) by congruence. subst t'. lia.
      * eexists. split; [reflexivity|]. now rewrite set_nth_length.
  - left. split; [|exists rv; auto].
    intros tp t Htp Et. destruct (Z.le_gt_cases (rv_i1 self t) (rv_i2 self t)); [auto|].
    exfalso. apply (Hgood tp Htp). exists t. split; [exact Et|lia].
  - right. split; [exists tp, t; auto|]. exists rv. exact E.
Qed.

Lemma window_bpm_total (t : Q) :
  inds self t <> [] -> exists v, window_bpm self (inds self t) = inr v.
Proof.
  intros Hne. unfold window_bpm.
  destruct (first_in _ Hne) as [i0 [E0 H0]].
  destruct (last_index_in _ Hne) as [il [El Hl]].
  unfold inds in H0, Hl.
  apply nonzero_map_getnat in H0 as [c0 [Ec0 _]].
  apply nonzero_map_getnat in Hl as [cl [Ecl _]].
  rewrite E0, El. simpl bind. rewrite Ec0, Ecl. simpl. eexists. reflexivity.
Qed.

(** The HR loop raises exactly when frame 0 has no trigger in its window;
    otherwise every entry of the series is as [hr_entry_ok] says. *)
Lemma hr_loop_cases :
  ((forall t, Np.getnat times 0 = inr t -> inds self t <> []) /\
   exists hr,
     for_range (nframes self) (hr_frame self times)
               (zeros1 0 (nframes self)) = (hr, None) /\
     length hr = nframes self /\
     forall tp, (tp < nframes self)%nat -> hr_entry_ok self times hr tp) \/
  ((exists t, (0 < nframes self)%nat /\ Np.getnat times 0 = inr t /\
              inds self t = []) /\
   exists hr,
     for_range (nframes self) (hr_frame self times)
               (zeros1 0 (nframes self)) = (hr, Some card_mismatch)).
Proof.
  destruct (for_range_cases
    (fun n hr => length hr = nframes self /\
                 forall tp, (tp < n)%nat -> hr_entry_ok self times hr tp)
    (fun tp => tp = 0%nat /\ exists t, Np.getnat times 0 = inr t /\ inds self t = [])
    (fun e => e = card_mismatch)
    (nframes self) (hr_frame self times) (zeros1 0 (nframes self)))
    as [[Hgood [hr [E [HL HE]]]]|[[tp [Htp [-> [t [Et Hi]]]]] [hr [e [E ->]]]]].
  - split; [apply zeros1_length|]. intros tp Htp. lia.
  - intros tp hr Htp [HL HE]. destruct (timed tp Htp) as [t Et].
    unfold hr_frame. rewrite Et.
    destruct (inds self t) as [|i0 p] eqn:Ei.
    + destruct tp as [|tp].
      * right. split; [split; [reflexivity|exists t; auto]|].
        exists hr, card_mismatch. auto.
      * left. split; [intros [H _]; discriminate|].
        simpl Nat.ltb. cbv iota. unfold assign, Np.getnat.
        simpl Nat.sub. rewrite Nat.sub_0_r.
        destruct (nth_error hr tp) as [v|] eqn:Ev;
          [|apply nth_error_None in Ev; lia].
        eexists. split; [reflexivity|]. split; [now rewrite set_nth_length|].
        intros j Hj. destruct (Nat.eq_dec j (S tp)) as [->|Hne].
        -- exists t. split; [exact Et|]. rewrite Ei. split; [lia|].
           rewrite set_nth_same by lia. simpl Nat.sub. rewrite Nat.sub_0_r.
           rewrite set_nth_other by lia. symmetry. now apply nth_error_nth.
        -- destruct (HE j ltac:(lia)) as [t' [Et' Hm]]. exists t'.
           split; [exact Et'|]. rewrite !set_nth_other by lia. exact Hm.
    + left. split.
      * intros [-> [t' [Et' Hi']]]. assert (t' = t) by congruence. subst t'.
        congruence.
      * destruct (window_bpm_total t) as [v Ev]; [rewrite Ei; discriminate|].
        rewrite Ei in Ev. unfold assign. rewrite Ev.
        eexists. split; [reflexivity|]. split; [now rewrite set_nth_length|].
        intros j Hj. destruct (Nat.eq_dec j tp) as [->|Hne].
        -- exists t. split; [exact Et|]. rewrite Ei.
           rewrite set_nth_same by lia. exact Ev.
        -- destruct (HE j ltac:(lia)) as [t' [Et' Hm]]. exists t'.
           split; [exact Et'|]. rewrite !set_nth_other by lia. exact Hm.
  - left. split; [|exists hr; auto].
    intros t Et Hi.
    apply (Hgood 0%nat frames). split; [reflexivity|]. exists t. auto.
  - right. split; [exists t; repeat split; auto|]. exists hr. exact E.
Qed.

End SliceSeries.

(** ** Shapes and columns *)

Lemma zeros2_shape {A} (z : A) (n m : nat) : shape2 n m (zeros2 z n m).
Proof.
  unfold shape2, zeros2, zeros1. split; [apply repeat_length|].
  apply Forall_forall. intros row Hrow. apply repeat_spec in Hrow. subst.
  apply repeat_length.
Qed.

Lemma zeros3_shape3 {A} (z : A) (n m k : nat) : shape3 n m k (zeros3 z n m k).
Proof.
  unfold shape3, zeros3. split; [apply repeat_length|].
  apply Forall_forall. intros M HM. apply repeat_spec in HM. subst.
  apply zeros2_shape.
Qed.

Lemma set_col2_shape {A} (k n m : nat) (v : list A) (M : list (list A)) :
  length v = n -> shape2 n m M -> shape2 n m (set_col2 k v M).
Proof.
  intros Hv [HL HF]. unfold shape2, set_col2. split.
  - rewrite length_map, length_combine. lia.
  - apply Forall_forall. intros row Hrow. apply in_map_iff in Hrow as [[r x] [<- Hin]].
    simpl. rewrite set_nth_length. apply in_combine_l in Hin.
    rewrite Forall_forall in HF. now apply HF.
Qed.

Lemma set_col2_column_same {A} (d : A) (k : nat) (v : list A) (M : list (list A)) :
  length v = length M ->
  Forall (fun row => (k < length row)%nat) M ->
  column d (set_col2 k v M) k = v.
Proof.
  revert v. induction M as [|row M IH]; intros [|x v] Hl HF; simpl in *;
    try reflexivity; try discriminate.
  inversion HF; subst. unfold column, set_col2 in *. simpl. f_equal.
  - now apply set_nth_same.
  - apply IH; auto.
Qed.

Lemma set_col2_column_other {A} (d : A) (k k' : nat) (v : list A) (M : list (list A)) :
  k <> k' -> length v = length M ->
  column d (set_col2 k v M) k' = column d M k'.
Proof.
  intros Hne. revert v. induction M as [|row M IH]; intros [|x v] Hl; simpl in *;
    try reflexivity; try discriminate.
  unfold column, set_col2 in *. simpl. f_equal.
  - now apply set_nth_other.
  - apply IH. lia.
Qed.

Lemma transpose_shape (n : nat) (rows : list (list R)) :
  shape2 n (length rows) (transpose n rows).
Proof.
  unfold shape2, transpose. split; [now rewrite length_map, length_seq|].
  apply Forall_forall. intros r Hr. apply in_map_iff in Hr as [i [<- _]].
  apply length_map.
Qed.

Lemma set_plane_shape {A} (k n m c : nat) (M : list (list A))
    (T : list (list (list A))) :
  shape2 n m M -> shape3 n m c T -> shape3 n m c (set_plane k M T).
Proof.
  intros [HLM HFM] [HLT HFT]. unfold shape3, set_plane. split.
  - rewrite length_map, length_combine. lia.
  - apply Forall_forall. intros P HP. apply in_map_iff in HP as [[row mrow] [<- Hin]].
    simpl. rewrite Forall_forall in HFM, HFT.
    apply set_col2_shape.
    + apply HFM. eapply in_combine_r; eauto.
    + apply HFT. eapply in_combine_l; eauto.
Qed.

(** ** Response regressors *)

Lemma response_grid_nonempty (self : NIMSPhysio) :
  0 < tr self -> tr self < 40 -> response_grid self <> [].
Proof.
  intros H0 H1 E. apply (f_equal (@length Q)) in E.
  unfold response_grid in E. rewrite arange_length in E. simpl in E.
  pose proof (Qle_ceiling ((40 - tr self - 0) / tr self)) as Hc.
  assert (Hp : 0 < (40 - tr self - 0) / tr self).
  { apply Qlt_shift_div_l; [exact H0|]. qlra. }
  assert (Hz : (0 < Qceiling ((40 - tr self - 0) / tr self))%Z).
  { rewrite Zlt_Qlt. change (inject_Z 0) with 0. qlra. }
  lia.
Qed.

Lemma convolve_head_length (a v : list R) (n : nat) :
  (1 <= length v)%nat -> (n <= length a)%nat ->
  length (Np.convolve_head a v n) = n.
Proof.
  intros Hv Hn. unfold Np.convolve_head. rewrite length_map, length_seq. lia.
Qed.

Lemma normalize_max_total (l : list R) :
  l <> [] -> exists X, normalize_max l = inr X /\ length X = length l.
Proof.
  intros Hl. unfold normalize_max. destruct l as [|r l]; [congruence|].
  simpl Np.Ramax. simpl bind. eexists. split; [reflexivity|].
  simpl. now rewrite length_map.
Qed.

Lemma response_regressors_total (f : R -> R) (x : list R) (t : list Q) :
  t <> [] -> (2 <= length x)%nat ->
  exists a b, response_regressors f x t = inr (a, b) /\
              length a = length x /\ length b = length x.
Proof.
  intros Ht Hx. unfold response_regressors.
  destruct (normalize_max_total (map (fun q => f (Q2R q)) t)) as [X [EX HX]].
  { destruct t; [congruence|discriminate]. }
  rewrite EX. simpl bind.
  assert (HX1 : (1 <= length X)%nat).
  { rewrite HX, length_map. destruct t; [congruence|simpl; lia]. }
  remember (map (fun v => (v - Np.Rmean x)%R) x) as x' eqn:Ex'.
  assert (Hx' : length x' = length x) by (subst x'; apply length_map).
  assert (Hc : length (Np.convolve_head x' X (length x')) = length x').
  { apply convolve_head_length; [exact HX1|lia]. }
  destruct (Np.diff (Np.convolve_head x' X (length x'))) as [|d0 d] eqn:Ed.
  - apply (f_equal (@length R)) in Ed. rewrite diff_length, Hc in Ed. simpl in Ed. lia.
  - simpl. do 2 eexists. split; [reflexivity|]. split; [lia|].
    apply (f_equal (@length R)) in Ed. rewrite diff_length, Hc in Ed.
    simpl in *. lia.
Qed.

(** ** The RVHR stage *)

Section RvhrStage.

Variable self : NIMSPhysio.
Hypothesis tr_pos : 0 < tr self.
Hypothesis tr_below_40 : tr self < 40.
Hypothesis duration : scan_duration self == QofNat (nframes self) * tr self.
Hypothesis order : Permutation (slice_order self) (seq 0 (length (slice_order self))).
Hypothesis frames : (3 <= nframes self)%nat.

Lemma rvhr_slice_cases (sl : nat) (T : list (list (list R))) (HR : list (list Q)) :
  (sl < length (slice_order self))%nat ->
  (~ rv_window_short self sl /\ ~ no_trigger_at_start self sl /\
   exists T' cur hr,
     rvhr_slice self (response_grid self) (length (slice_order self)) sl (T, HR) =
       ((T', set_col2 sl hr HR), None) /\
     cur_slice_acq (slice_order self) sl = inr cur /\
     length hr = nframes self /\
     forall tp, (tp < nframes self)%nat ->
       hr_entry_ok self (slice_times self (length (slice_order self)) cur) hr tp) \/
  ((rv_window_short self sl \/ no_trigger_at_start self sl) /\
   exists st e,
     rvhr_slice self (response_grid self) (length (slice_order self)) sl (T, HR) =
       (st, Some e) /\
     (e = resp_short \/ e = card_mismatch)).
Proof.
  intros Hsl.
  destruct (permutation_lookup _ sl order Hsl) as [cur [Ec [_ Hc]]].
  set (times := slice_times self (length (slice_order self)) cur).
  assert (timed : forall tp, (tp < nframes self)%nat ->
                    exists t, Np.getnat times tp = inr t).
  { intros tp Htp. eexists. now apply slice_times_nth. }
  assert (Hpos : (0 < nframes self)%nat) by lia.
  unfold rvhr_slice. rewrite Ec. fold times.
  destruct (rv_loop_cases self times timed Hpos)
    as [[Hok [rv [Erv Hlrv]]]|[[tp [t [Htp [Et Hlt]]]] [rv Erv]]].
  - rewrite Erv.
    destruct (response_regressors_total RRF rv (response_grid self))
      as [a [b [Eab _]]].
    { now apply response_grid_nonempty. }
    { lia. }
    rewrite Eab.
    destruct (hr_loop_cases self times timed Hpos)
      as [[Hne [hr [Ehr [Hlhr Hent]]]]|[[t [_ [Et Hi]]] [hr Ehr]]].
    + rewrite Ehr.
      destruct (response_regressors_total CRF (map Q2R hr) (response_grid self))
        as [c [d [Ecd _]]].
      { now apply response_grid_nonempty. }
      { rewrite length_map. lia. }
      rewrite Ecd. left. split; [|split].
      * intros [cur' [tp [t [Ec' [Htp [Et Hlt]]]]]].
        assert (cur' = cur) by congruence. subst cur'.
        specialize (Hok tp t Htp Et). lia.
      * intros [cur' [t [Ec' [Et Hi]]]].
        assert (cur' = cur) by congruence. subst cur'.
        apply (Hne t Et Hi).
      * eexists. exists cur, hr. split; [reflexivity|]. auto.
    + rewrite Ehr. right. split.
      * right. exists cur, t. auto.
      * do 2 eexists. split; [reflexivity|]. now right.
  - rewrite Erv. right. split.
    + left. exists cur, tp, t. auto.
    + do 2 eexists. split; [reflexivity|]. now left.
Qed.

Lemma shape2_in_range {A} (n m k : nat) (M : list (list A)) :
  shape2 n m M -> (k < m)%nat -> Forall (fun row => (k < length row)%nat) M.
Proof.
  intros [_ HF] Hk. apply Forall_forall. intros row Hrow.
  rewrite Forall_forall in HF. rewrite (HF row Hrow). exact Hk.
Qed.

(** The stage raises exactly when some slice meets condition (a) or (b);
    otherwise it fills every column of the heart-rate tensor. *)
Lemma rvhr_stage_cases :
  ((forall sl, (sl < length (slice_order self))%nat ->
      ~ rv_window_short self sl /\ ~ no_trigger_at_start self sl) /\
   exists T HR,
     rvhr_stage self = ((T, HR), None) /\
     shape2 (nframes self) (length (slice_order self)) HR /\
     forall sl, (sl < length (slice_order self))%nat ->
       exists cur,
         cur_slice_acq (slice_order self) sl = inr cur /\
         forall tp, (tp < nframes self)%nat ->
           hr_entry_ok self (slice_times self (length (slice_order self)) cur)
             (column 0 HR sl) tp) \/
  ((exists sl, (sl < length (slice_order self))%nat /\
      (rv_window_short self sl \/ no_trigger_at_start self sl)) /\
   exists st e,
     rvhr_stage self = (st, Some e) /\ (e = resp_short \/ e = card_mismatch)).
Proof.
  unfold rvhr_stage.
  destruct (for_range_cases
    (fun n (st : list (list (list R)) * list (list Q)) =>
       shape2 (nframes self) (length (slice_order self)) (snd st) /\
       forall sl, (sl < n)%nat ->
         exists cur,
           cur_slice_acq (slice_order self) sl = inr cur /\
           forall tp, (tp < nframes self)%nat ->
             hr_entry_ok self (slice_times self (length (slice_order self)) cur)
               (column 0 (snd st) sl) tp)
    (fun sl => rv_window_short self sl \/ no_trigger_at_start self sl)
    (fun e => e = resp_short \/ e = card_mismatch)
    (length (slice_order self))
    (rvhr_slice self (response_grid self) (length (slice_order self)))
    (zeros3 0%R (nframes self) 4 (length (slice_order self)),
     zeros2 0 (nframes self) (length (slice_order self))))
    as [[Hgood [[T HR] [E [Hsh Hcol]]]]|[Hbad [st [e [E He]]]]].
  - split; [apply zeros2_shape|]. intros sl Hsl. lia.
  - intros sl [T HR] Hsl [Hsh Hcol]. simpl in Hsh, Hcol.
    destruct (rvhr_slice_cases sl T HR Hsl)
      as [[Ha [Hb [T' [cur [hr [E [Ec [Hl Hent]]]]]]]]|[Hbad [st [e [E He]]]]].
    + left. split; [tauto|]. eexists. split; [exact E|]. simpl. split.
      * apply set_col2_shape; auto.
      * intros sl' Hsl'. destruct (Nat.eq_dec sl' sl) as [->|Hne].
        -- exists cur. split; [exact Ec|].
           rewrite set_col2_column_same; auto.
           ++ destruct Hsh as [HL _]. lia.
           ++ eapply shape2_in_range; eauto.
        -- destruct (Hcol sl' ltac:(lia)) as [cur' [Ec' Hent']].
           exists cur'. split; [exact Ec'|].
           rewrite set_col2_column_other; auto.
           destruct Hsh as [HL _]. lia.
    + right. split; [exact Hbad|]. exists st, e. auto.
  - left. split.
    + intros sl Hsl. specialize (Hgood sl Hsl). tauto.
    + exists T, HR. simpl in Hsh, Hcol. auto.
  - right. split; [exact Hbad|]. exists st, e. auto.
Qed.

End RvhrStage.

(** ** The outcome of a call *)

(** Shifting the waveform changes neither of the two raise conditions: they
    read the waveform's length only. *)
Lemma rv_window_short_shift (self : NIMSPhysio) (mn : Q) (sl : nat) :
  rv_window_short (shift_resp mn self) sl <-> rv_window_short self sl.
Proof.
  unfold rv_window_short, rv_i1, rv_i2. simpl. rewrite length_map.
  split; intros [cur [tp [t H]]]; exists cur, tp, t; exact H.
Qed.

Lemma no_trigger_at_start_shift (self : NIMSPhysio) (mn : Q) (sl : nat) :
  no_trigger_at_start (shift_resp mn self) sl <-> no_trigger_at_start self sl.
Proof.
  split; intros [cur [t H]]; exists cur, t; exact H.
Qed.

(** On good inputs with at least three frames and [tr < 40], a call either
    completes, when no slice meets condition (a) or (b), and then holds the
    heart-rate series of every slice; or raises the typed error with one of
    the two messages, when some slice meets one of the conditions. *)
Lemma call_cases (firwin : nat -> R -> list R)
    (filtfilt : list R -> list R -> list R -> list R) (self : NIMSPhysio) :
  ScanInputs filtfilt self -> (3 <= nframes self)%nat -> tr self < 40 ->
  ((forall sl, (sl < length (slice_order self))%nat ->
      ~ rv_window_short self sl /\ ~ no_trigger_at_start self sl) /\
   raised (compute_regressors firwin filtfilt self) = None /\
   exists HR,
     heart_rate (final (compute_regressors firwin filtfilt self)) = Some HR /\
     shape2 (nframes self) (length (slice_order self)) HR /\
     forall sl, (sl < length (slice_order self))%nat ->
       exists cur,
         cur_slice_acq (slice_order self) sl = inr cur /\
         forall tp, (tp < nframes self)%nat ->
           hr_entry_ok self (slice_times self (length (slice_order self)) cur)
             (column 0 HR sl) tp) \/
  ((exists sl, (sl < length (slice_order self))%nat /\
      (rv_window_short self sl \/ no_trigger_at_start self sl)) /\
   exists e,
     raised (compute_regressors firwin filtfilt self) = Some e /\
     (e = resp_short \/ e = card_mismatch)).
Proof.
  intros Hin Hn H40.
  destruct (call_stores_phases firwin filtfilt self Hin Hn) as [mn [P [Emn [EP _]]]].
  pose proof (ScanInputs_shift _ _ mn Hin) as [_ [Ht [Hd [Hp _]]]].
  assert (E3 : (nframes self <? 3)%nat = false) by (apply Nat.ltb_ge; lia).
  unfold compute_regressors. rewrite E3, Emn, EP.
  change (rvhr_stage (set_phases (Some P) (shift_resp mn self)))
    with (rvhr_stage (shift_resp mn self)).
  destruct (rvhr_stage_cases (shift_resp mn self) Ht H40 Hd Hp Hn)
    as [[Hgood [T [HR [E [Hsh Hcol]]]]]|[[sl [Hsl Hbad]] [st [e [E He]]]]].
  - left. rewrite E. simpl. split; [|split; [reflexivity|]].
    + intros sl Hsl. destruct (Hgood sl Hsl) as [Ha Hb]. split.
      * intros H. apply Ha. now apply rv_window_short_shift.
      * intros H. apply Hb. now apply no_trigger_at_start_shift.
    + exists HR. split; [reflexivity|]. split; [exact Hsh|exact Hcol].
  - right. rewrite E. destruct st as [T HR]. simpl. split.
    + exists sl. split; [exact Hsl|]. destruct Hbad as [H|H].
      * left. now apply rv_window_short_shift in H.
      * right. now apply no_trigger_at_start_shift in H.
    + exists e. auto.
Qed.

(** Scenario A meets neither raise condition: every RV window lies inside
    the 500 samples and frame 0 has triggers around it. *)
Lemma scenario_A_good (sl : nat) :
  (sl < length (slice_order scenario_A))%nat ->
  ~ rv_window_short scenario_A sl /\ ~ no_trigger_at_start scenario_A sl.
Proof.
  intros Hsl. simpl in Hsl. assert (sl = 0%nat) by lia. subst sl. split.
  - intros [cur [tp [t [Ec [Htp [Et Hlt]]]]]].
    vm_compute in Ec. injection Ec as <-. simpl in Htp.
    do 10 (destruct tp as [|tp];
           [vm_compute in Et; injection Et as <-; vm_compute in Hlt; discriminate|]).
    lia.
  - intros [cur [t [Ec [Et Hi]]]].
    vm_compute in Ec. injection Ec as <-.
    vm_compute in Et. injection Et as <-. vm_compute in Hi. discriminate.
Qed.

Lemma scenario_A_tr : tr scenario_A < 40.
Proof. reflexivity. Qed.

Lemma scenario_A_completes :
  raised (compute_regressors firwin_none filtfilt_none scenario_A) = None.
Proof.
  destruct (call_cases firwin_none filtfilt_none scenario_A
              scenario_A_inputs scenario_A_frames scenario_A_tr)
    as [[_ [E _]]|[[sl [Hsl Hbad]] _]]; [exact E|].
  destruct (scenario_A_good sl Hsl). tauto.
Qed.

(** ** The fatal data-length error *)

(** ** Heart rate *)

Lemma nonzero_from_sorted (mask : list bool) (k : nat) :
  StronglySorted lt (Np.nonzero_from k mask).
Proof.
  revert k. induction mask as [|b m IH]; intros k; simpl; [constructor|].
  destruct b; [|apply IH]. constructor; [apply IH|].
  apply Forall_forall. intros i Hi. apply nonzero_from_spec in Hi. lia.
Qed.

Lemma sorted_NoDup (p : list nat) : StronglySorted lt p -> NoDup p.
Proof.
  induction 1 as [|x l Hs IH Hf]; constructor; [|exact IH].
  intros Hin. rewrite Forall_forall in Hf. specialize (Hf x Hin). lia.
Qed.

Lemma sorted_first_min (p : list nat) (i0 x : nat) :
  StronglySorted lt p -> Np.first p = inr i0 -> In x p -> (i0 <= x)%nat.
Proof.
  intros Hs Hf Hin. destruct p as [|y l]; [discriminate|].
  injection Hf as <-. inversion Hs as [|? ? _ Hall]; subst.
  destruct Hin as [->|Hin]; [lia|].
  rewrite Forall_forall in Hall. specialize (Hall x Hin). lia.
Qed.

Lemma sorted_last_max (p : list nat) (il x : nat) :
  StronglySorted lt p -> Np.last_index p = inr il -> In x p -> (x <= il)%nat.
Proof.
  intros Hs. revert il x. induction Hs as [|y l Hs IH Hall]; intros il x Hl Hin.
  - destruct Hin.
  - unfold Np.last_index in *. simpl rev in Hl.
    destruct (rev l) as [|z q] eqn:Er.
    + simpl in Hl. injection Hl as <-.
      assert (l = []).
      { apply (f_equal (@rev nat)) in Er. now rewrite rev_involutive in Er. }
      subst l. destruct Hin as [->|[]]. lia.
    + simpl in Hl. injection Hl as <-.
      rewrite Forall_forall in Hall.
      assert (Hz : In z l) by (apply in_rev; rewrite Er; now left).
      destruct Hin as [->|Hin].
      * specialize (Hall z Hz). lia.
      * apply IH; [reflexivity|exact Hin].
Qed.

(** For ascending triggers the indices inside a window are consecutive, so
    the index span is the number of triggers less one. *)
Lemma inds_span (self : NIMSPhysio) (t : Q) (i0 il : nat) :
  (forall i j ci cj, (i <= j)%nat ->
     nth_error (card_trig self) i = Some ci ->
     nth_error (card_trig self) j = Some cj -> ci <= cj) ->
  Np.first (inds self t) = inr i0 ->
  Np.last_index (inds self t) = inr il ->
  (Z.of_nat il - Z.of_nat i0 = Z.of_nat (length (inds self t)) - 1)%Z.
Proof.
  intros Hasc Hf Hl.
  pose proof (nonzero_from_sorted
    (map (fun c => Qle_bool (t - t_win) c && Qle_bool c (t + t_win)) (card_trig self)) 0)
    as Hs.
  fold (Np.nonzero (map (fun c => Qle_bool (t - t_win) c && Qle_bool c (t + t_win))
                        (card_trig self))) in Hs.
  fold (inds self t) in Hs.
  assert (Hne : inds self t <> []) by (intros E; rewrite E in Hf; discriminate).
  destruct (first_in _ Hne) as [i0' [Hf' Hin0]].
  destruct (last_index_in _ Hne) as [il' [Hl' Hinl]].
  assert (i0' = i0) by congruence. assert (il' = il) by congruence. subst.
  assert (Hle : (i0 <= il)%nat) by (eapply sorted_first_min; eauto).
  assert (Hperm : Permutation (inds self t) (seq i0 (S (il - i0)))).
  { apply NoDup_Permutation; [now apply sorted_NoDup|apply seq_NoDup|].
    intros x. rewrite in_seq. split.
    - intros Hx. pose proof (sorted_first_min _ _ _ Hs Hf Hx).
      pose proof (sorted_last_max _ _ _ Hs Hl Hx). lia.
    - intros [Hx0 Hx1].
      unfold inds in Hin0, Hinl |- *.
      apply nonzero_spec in Hin0, Hinl. apply nonzero_spec.
      rewrite nth_error_map in *.
      destruct (nth_error (card_trig self) i0) as [c0|] eqn:E0; [|discriminate].
      destruct (nth_error (card_trig self) il) as [cl|] eqn:El; [|discriminate].
      destruct (nth_error (card_trig self) x) as [cx|] eqn:Ex.
      + simpl in *. f_equal.
        injection Hin0 as Hin0. injection Hinl as Hinl.
        apply andb_true_iff in Hin0 as [Hlo _].
        apply andb_true_iff in Hinl as [_ Hhi].
        apply Qle_bool_iff in Hlo, Hhi.
        pose proof (Hasc i0 x c0 cx Hx0 E0 Ex).
        pose proof (Hasc x il cx cl ltac:(lia) Ex El).
        apply andb_true_iff. split; apply Qle_bool_iff; qlra.
      + apply nth_error_None in Ex.
        assert (il < length (card_trig self))%nat
          by (apply nth_error_Some; congruence).
        lia. }
  apply Permutation_length in Hperm. rewrite length_seq in Hperm. lia.
Qed.

Lemma window_bpm_inv (self : NIMSPhysio) (p : list nat) (v : Q) :
  window_bpm self p = inr v ->
  exists i0 il c0 cl,
    Np.first p = inr i0 /\ Np.last_index p = inr il /\
    Np.getnat (card_trig self) i0 = inr c0 /\
    Np.getnat (card_trig self) il = inr cl /\
    v = inject_Z (Z.of_nat il - Z.of_nat i0) * 60 / (cl - c0).
Proof.
  unfold window_bpm. intros H.
  destruct (Np.first p) as [e|i0] eqn:E0; [discriminate|].
  destruct (Np.last_index p) as [e|il] eqn:El; [discriminate|]. simpl bind in H.
  destruct (Np.getnat (card_trig self) i0) as [e|c0] eqn:Ec0; [discriminate|].
  destruct (Np.getnat (card_trig self) il) as [e|cl] eqn:Ecl; [discriminate|].
  simpl in H. injection H as <-. exists i0, il, c0, cl.
  repeat split; auto.
Qed.

Lemma column_nth {A} (d : A) (M : list (list A)) (k tp : nat) :
  (tp < length M)%nat -> nth tp (column d M k) d = nth k (nth tp M []) d.
Proof.
  intros Htp. unfold column.
  apply nth_error_nth. rewrite nth_error_map.
  rewrite (nth_error_nth' M [] Htp). reflexivity.
Qed.

Lemma scenario_A_ascending :
  forall i j ci cj, (i <= j)%nat ->
    nth_error (card_trig scenario_A) i = Some ci ->
    nth_error (card_trig scenario_A) j = Some cj -> ci <= cj.
Proof.
  intros i j ci cj Hij Hi Hj. unfold scenario_A, init in Hi, Hj.
  cbn [card_trig] in Hi, Hj. rewrite nth_error_map in Hi, Hj.
  destruct (nth_error (seq 0 21) i) as [a|] eqn:Ea; [|discriminate].
  destruct (nth_error (seq 0 21) j) as [b|] eqn:Eb; [|discriminate].
  simpl in Hi, Hj. injection Hi as <-. injection Hj as <-.
  assert (Hi : (i < length (seq 0 21))%nat) by (apply nth_error_Some; congruence).
  assert (Hj : (j < length (seq 0 21))%nat) by (apply nth_error_Some; congruence).
  rewrite length_seq in Hi, Hj.
  rewrite nth_error_seq in Ea, Eb.
  apply Nat.ltb_lt in Hi, Hj. rewrite Hi in Ea. rewrite Hj in Eb.
  injection Ea as <-. injection Eb as <-. apply QofNat_le. lia.
Qed.

(** ** Detrending *)

Local Open Scope R_scope.

Lemma detrend_col_length (x y : list R) :
  length y = length x -> length (detrend_col x y) = length x.
Proof.
  intros H. unfold detrend_col. rewrite length_map, length_combine. lia.
Qed.

(** The moments of a residual [y - p(x)] against the powers of [x]. *)
Lemma moment_y_residual (p : R * R * R) (k : nat) (x y : list R) :
  length y = length x ->
  moment_y k x (map (fun xy => snd xy - polyval2 p (fst xy)) (combine x y)) =
  moment_y k x y -
    (fst (fst p) * moment (S (S k)) x + snd (fst p) * moment (S k) x +
     snd p * moment k x).
Proof.
  destruct p as [[c2 c1] c0]. simpl fst. simpl snd.
  revert y. induction x as [|xi x IH]; intros [|yi y] Hl; simpl in Hl;
    try discriminate.
  - unfold moment_y, moment. simpl. ring.
  - injection Hl as Hl. specialize (IH y Hl).
    unfold moment_y, moment in *. simpl in *. rewrite IH. ring.
Qed.

(** The fitted quadratic satisfies the normal equations: its residual is
    orthogonal to 1, [x] and [x^2]. That is what makes it the least-squares
    fit. *)
Lemma polyfit2_normal_equations (x y : list R) (k : nat) :
  gram_det x <> 0 -> length y = length x -> (k < 3)%nat ->
  moment_y k x (detrend_col x y) = 0.
Proof.
  intros HD Hl Hk. unfold detrend_col. rewrite moment_y_residual by exact Hl.
  unfold polyfit2. simpl fst. simpl snd.
  unfold gram_det, det3 in *.
  set (s0 := moment 0 x) in *. set (s1 := moment 1 x) in *.
  set (s2 := moment 2 x) in *. set (s3 := moment 3 x) in *.
  set (s4 := moment 4 x) in *.
  set (b0 := moment_y 0 x y). set (b1 := moment_y 1 x y).
  set (b2 := moment_y 2 x y).
  destruct k as [|[|[|k]]]; [| | |lia].
  - fold s0 s1 s2 b0. clearbody s0 s1 s2 s3 s4 b0 b1 b2. field. exact HD.
  - fold s1 s2 s3 b1. clearbody s0 s1 s2 s3 s4 b0 b1 b2. field. exact HD.
  - fold s2 s3 s4 b2. clearbody s0 s1 s2 s3 s4 b0 b1 b2. field. exact HD.
Qed.

(** Fitting a quadratic to a detrended column gives the zero polynomial. *)
Lemma polyfit2_detrended (x y : list R) :
  gram_det x <> 0 -> length y = length x ->
  polyfit2 x (detrend_col x y) = (0, 0, 0).
Proof.
  intros HD Hl. unfold polyfit2.
  rewrite !polyfit2_normal_equations by (auto; lia).
  unfold det3. repeat f_equal; field; exact HD.
Qed.

(** *** The moment matrix of the frame index is regular *)

Lemma Rsum_app (l1 l2 : list R) : Np.Rsum (l1 ++ l2) = Np.Rsum l1 + Np.Rsum l2.
Proof. induction l1 as [|a l IH]; simpl; [ring|]. rewrite IH. ring. Qed.

Lemma moment_frame_index_S (k n : nat) :
  moment k (frame_index (S n)) = moment k (frame_index n) + INR n ^ k.
Proof.
  unfold moment, frame_index. rewrite seq_S, !map_app, Rsum_app. simpl. ring.
Qed.

Lemma moments_frame_index (n : nat) :
  moment 0 (frame_index n) = INR n /\
  2 * moment 1 (frame_index n) = INR n * (INR n - 1) /\
  6 * moment 2 (frame_index n) = (INR n - 1) * INR n * (2 * INR n - 1) /\
  4 * moment 3 (frame_index n) = INR n * INR n * (INR n - 1) * (INR n - 1) /\
  30 * moment 4 (frame_index n) =
    (INR n - 1) * INR n * (2 * INR n - 1) * (3 * INR n * INR n - 3 * INR n - 1).
Proof.
  induction n as [|n [H0 [H1 [H2 [H3 H4]]]]].
  - unfold moment, frame_index. simpl. repeat split; ring.
  - rewrite !moment_frame_index_S, S_INR.
    repeat split; rnra.
Qed.

Lemma gram_det_frame_index (n : nat) :
  2160 * gram_det (frame_index n) =
  INR n * INR n * INR n * ((INR n * INR n - 1) * (INR n * INR n - 1)) *
  (INR n * INR n - 4).
Proof.
  destruct (moments_frame_index n) as [H0 [H1 [H2 [H3 H4]]]].
  unfold gram_det, det3.
  set (N := INR n) in *.
  replace (moment 0 (frame_index n)) with N by (symmetry; exact H0).
  replace (moment 1 (frame_index n)) with (N * (N - 1) / 2) by rlra.
  replace (moment 2 (frame_index n)) with ((N - 1) * N * (2 * N - 1) / 6) by rlra.
  replace (moment 3 (frame_index n)) with (N * N * (N - 1) * (N - 1) / 4) by rlra.
  replace (moment 4 (frame_index n))
    with ((N - 1) * N * (2 * N - 1) * (3 * N * N - 3 * N - 1) / 30) by rlra.
  field.
Qed.

Lemma gram_det_frame_index_nonzero (n : nat) :
  (3 <= n)%nat -> gram_det (frame_index n) <> 0.
Proof.
  intros Hn. pose proof (gram_det_frame_index n) as H.
  assert (HN : 3 <= INR n) by (apply (le_INR 3 n) in Hn; simpl in Hn; rlra).
  set (N := INR n) in *.
  assert (Hpos : 0 < N * N * N * ((N * N - 1) * (N * N - 1)) * (N * N - 4)).
  { apply Rmult_lt_0_compat; [apply Rmult_lt_0_compat|].
    - repeat apply Rmult_lt_0_compat; rlra.
    - apply Rmult_lt_0_compat; rnra.
    - rnra. }
  intros E. rewrite E in H. rlra.
Qed.

(** *** Columns of a three-dimensional array *)

Lemma update_nth_Forall {A} (P : A -> Prop) (i : nat) (f : A -> A) (l : list A) :
  Forall P l -> (forall a, P a -> P (f a)) -> Forall P (update_nth i f l).
Proof.
  intros HF Hf. revert i. induction HF as [|x l Hx HF IH]; intros [|i]; simpl;
    constructor; auto.
Qed.

Lemma set_col_shape {A} (j k n m c : nat) (v : list A) (T : list (list (list A))) :
  length v = n -> shape3 n m c T -> shape3 n m c (set_col j k v T).
Proof.
  intros Hv [HL HF]. unfold shape3, set_col. split.
  - rewrite length_map, length_combine. lia.
  - apply Forall_forall. intros M HM. apply in_map_iff in HM as [[row x] [<- Hin]].
    simpl. apply in_combine_l in Hin. rewrite Forall_forall in HF.
    destruct (HF row Hin) as [Hr Hc]. split.
    + now rewrite update_nth_length.
    + apply update_nth_Forall; [exact Hc|]. intros a Ha.
      now rewrite set_nth_length.
Qed.

Lemma shape3_in_range {A} (n m c j k : nat) (T : list (list (list A))) :
  shape3 n m c T -> (j < m)%nat -> (k < c)%nat ->
  Forall (fun row => (j < length row)%nat /\ (k < length (nth j row []))%nat) T.
Proof.
  intros [_ HF] Hj Hk. apply Forall_forall. intros row Hrow.
  rewrite Forall_forall in HF. destruct (HF row Hrow) as [Hr Hc].
  split; [lia|]. rewrite Forall_forall in Hc.
  rewrite (Hc (nth j row [])); [exact Hk|]. apply nth_In. lia.
Qed.

Lemma get_set_col_same (j k : nat) (v : list R) (T : list (list (list R))) :
  length v = length T ->
  Forall (fun row => (j < length row)%nat /\ (k < length (nth j row []))%nat) T ->
  get_col (set_col j k v T) j k = v.
Proof.
  revert v. induction T as [|row T IH]; intros [|x v] Hl HF; simpl in *;
    try reflexivity; try discriminate.
  inversion HF as [|? ? [Hj Hk] HF']; subst.
  unfold get_col, set_col in *. simpl. f_equal.
  - rewrite update_nth_same by exact Hj. now apply set_nth_same.
  - apply IH; auto.
Qed.

Lemma get_set_col_other (j k j' k' : nat) (v : list R) (T : list (list (list R))) :
  (j, k) <> (j', k') -> length v = length T ->
  get_col (set_col j k v T) j' k' = get_col T j' k'.
Proof.
  intros Hne. revert v. induction T as [|row T IH]; intros [|x v] Hl; simpl in *;
    try reflexivity; try discriminate.
  unfold get_col, set_col in *. simpl. f_equal.
  - destruct (Nat.eq_dec j j') as [<-|Hj].
    + destruct (Nat.lt_ge_cases j (length row)) as [Hlt|Hge].
      * rewrite update_nth_same by exact Hlt. apply set_nth_other. congruence.
      * rewrite (nth_overflow row) by exact Hge.
        rewrite (nth_overflow (update_nth j (set_nth k x) row));
          [reflexivity|now rewrite update_nth_length].
    + now rewrite update_nth_other.
  - apply IH. lia.
Qed.

Lemma get_col_length (T : list (list (list R))) (j k : nat) :
  length (get_col T j k) = length T.
Proof. apply length_map. Qed.

Lemma frame_index_length (n : nat) : length (frame_index n) = n.
Proof. unfold frame_index. now rewrite length_map, length_seq. Qed.

(** *** The detrending loops *)

Section DetrendLoop.

Variables n m c : nat.
Variable T0 : list (list (list R)).
Hypothesis frames : (0 < n)%nat.
Hypothesis shape0 : shape3 n m c T0.

Lemma shape3_hd (T : list (list (list R))) :
  shape3 n m c T -> length (hd [] T) = m /\ length T = n.
Proof.
  intros [HL HF]. split; [|exact HL].
  destruct T as [|row T]; [simpl in HL; lia|].
  inversion HF as [|? ? Hrow _]; subst. destruct Hrow as [Hr _]. exact Hr.
Qed.

Lemma detrend_slice_total (sl : nat) (T : list (list (list R))) :
  (sl < c)%nat -> detrend_inv n m c T0 sl 0 T ->
  exists T', detrend_slice sl T = (T', None) /\ detrend_inv n m c T0 (S sl) 0 T'.
Proof.
  intros Hsl [Hsh Hinv]. unfold detrend_slice.
  destruct (shape3_hd T Hsh) as [Hm Hn]. rewrite Hm, Hn.
  destruct (for_range_total (fun reg T' => detrend_inv n m c T0 sl reg T') m
              (detrend_reg (frame_index n) sl) T) as [T' [E [Hsh' Hinv']]].
  - split; assumption.
  - intros reg Q Hreg [HshQ HinvQ]. unfold detrend_reg.
    eexists. split; [reflexivity|].
    assert (Hcol : get_col Q reg sl = get_col T0 reg sl).
    { apply (HinvQ reg sl Hreg Hsl). lia. }
    assert (Hlen : length (detrend_col (frame_index n) (get_col Q reg sl)) = length Q).
    { rewrite detrend_col_length; rewrite ?get_col_length, ?frame_index_length;
        destruct HshQ as [HL _]; lia. }
    split.
    + apply set_col_shape; [|exact HshQ]. destruct HshQ as [HL _]. lia.
    + intros reg' sl' Hreg' Hsl'. split.
      * intros Hdone.
        destruct (Nat.eq_dec reg' reg) as [->|Hr];
          [destruct (Nat.eq_dec sl' sl) as [->|Hs]|].
        -- rewrite get_set_col_same; [now rewrite Hcol|exact Hlen|].
           eapply shape3_in_range; eauto.
        -- rewrite get_set_col_other by (congruence || exact Hlen).
           apply (HinvQ reg sl' Hreg' Hsl'). lia.
        -- rewrite get_set_col_other by (congruence || exact Hlen).
           apply (HinvQ reg' sl' Hreg' Hsl'). lia.
      * intros Hnot. rewrite get_set_col_other.
        -- apply (HinvQ reg' sl' Hreg' Hsl'). lia.
        -- intros Heq. inversion Heq. subst. lia.
        -- exact Hlen.
  - exists T'. split; [exact E|]. split; [exact Hsh'|].
    intros reg' sl' Hreg' Hsl'. split.
    + intros Hdone. apply (Hinv' reg' sl' Hreg' Hsl'). lia.
    + intros Hnot. apply (Hinv' reg' sl' Hreg' Hsl'). lia.
Qed.

(** After the stage every column is the detrended column of the input. *)
Lemma detrend_stage_spec :
  shape3 n m c (detrend_stage c T0) /\
  forall reg sl, (reg < m)%nat -> (sl < c)%nat ->
    get_col (detrend_stage c T0) reg sl =
      detrend_col (frame_index n) (get_col T0 reg sl).
Proof.
  unfold detrend_stage.
  destruct (for_range_total (fun sl T => detrend_inv n m c T0 sl 0 T) c detrend_slice T0)
    as [T [E [Hsh Hinv]]].
  - split; [exact shape0|]. intros reg' sl' _ _. split; [lia|reflexivity].
  - intros sl T Hsl HI. now apply detrend_slice_total.
  - rewrite E. simpl. split; [exact Hsh|].
    intros reg sl Hreg Hsl. apply (Hinv reg sl Hreg Hsl). lia.
Qed.

End DetrendLoop.

(** *** The shape of the regressor tensor *)

Lemma retroicor_stage_shape (self : NIMSPhysio) (P : list (list (list R))) :
  shape3 (nframes self) 8 (length (slice_order self)) (retroicor_stage self P).
Proof.
  unfold retroicor_stage.
  apply (for_range_keeps
           (fun T => shape3 (nframes self) 8 (length (slice_order self)) T)).
  - apply zeros3_shape3.
  - intros sl T _ HT. unfold retroicor_slice. simpl fst.
    apply set_plane_shape; [|exact HT].
    apply (transpose_shape (nframes self) (retroicor_covs P sl)).
Qed.

Lemma rvhr_stage_shape (self : NIMSPhysio) :
  shape3 (nframes self) 4 (length (slice_order self)) (fst (fst (rvhr_stage self))).
Proof.
  unfold rvhr_stage.
  apply (for_range_keeps
           (fun st : list (list (list R)) * list (list Q) =>
              shape3 (nframes self) 4 (length (slice_order self)) (fst st))).
  - apply zeros3_shape3.
  - intros sl [T HR] _ HT. simpl in HT. unfold rvhr_slice.
    destruct (cur_slice_acq (slice_order self) sl) as [e|cur]; [exact HT|].
    destruct (for_range (nframes self) (rv_frame self _) _) as [rv [e|]]; [exact HT|].
    destruct (response_regressors RRF rv (response_grid self)) as [e|[a b]];
      [exact HT|].
    destruct (for_range (nframes self) (hr_frame self _) _) as [hr [e|]]; [exact HT|].
    destruct (response_regressors CRF (map Q2R hr) (response_grid self))
      as [e|[c d]]; [exact HT|].
    simpl fst. apply set_plane_shape; [|exact HT].
    apply (transpose_shape (nframes self) [a; b; c; d]).
Qed.

Lemma concatenate1_shape {A} (n a b c : nat) (X Y : list (list (list A))) :
  shape3 n a c X -> shape3 n b c Y -> shape3 n (a + b) c (concatenate1 X Y).
Proof.
  intros [HLX HFX] [HLY HFY]. unfold shape3, concatenate1. split.
  - rewrite length_map, length_combine. lia.
  - apply Forall_forall. intros M HM. apply in_map_iff in HM as [[rx ry] [<- Hin]].
    simpl. rewrite Forall_forall in HFX, HFY.
    destruct (HFX rx (in_combine_l _ _ _ _ Hin)) as [Hx1 Hx2].
    destruct (HFY ry (in_combine_r _ _ _ _ Hin)) as [Hy1 Hy2].
    split.
    + rewrite length_app. lia.
    + apply Forall_app. split; assumption.
Qed.

(** * Further properties of the module *)

Local Open Scope Q_scope.

(** ** The slice order the constructor infers *)

Lemma filter_split_permutation {A} (p : A -> bool) (l : list A) :
  Permutation (filter p l ++ filter (fun x => negb (p x)) l) l.
Proof.
  induction l as [|x l IH]; simpl; [constructor|].
  destruct (p x); simpl.
  - now constructor.
  - apply Permutation_sym. apply Permutation_cons_app. now apply Permutation_sym.
Qed.

Lemma interleaved_permutation (n : nat) : Permutation (interleaved n) (seq 0 n).
Proof.
  unfold interleaved.
  rewrite (filter_ext Nat.odd (fun x => negb (Nat.even x)))
    by (intros x; symmetry; apply Nat.negb_even).
  apply filter_split_permutation.
Qed.

Lemma filter_even_seq (n : nat) :
  filter Nat.even (seq 0 n) = map (fun k => 2 * k)%nat (seq 0 ((n + 1) / 2)).
Proof.
  induction n as [|n IH]; [reflexivity|].
  rewrite seq_S, filter_app, IH. simpl filter.
  destruct (Nat.even n) eqn:E.
  - apply Nat.even_spec in E as [m ->].
    replace ((2 * m + 1) / 2)%nat with m
      by (apply Nat.div_unique with 1%nat; lia).
    replace ((S (2 * m) + 1) / 2)%nat with (S m)
      by (apply Nat.div_unique with 0%nat; lia).
    now rewrite seq_S, map_app.
  - assert (O : Nat.odd n = true) by (rewrite <- Nat.negb_even, E; reflexivity).
    apply Nat.odd_spec in O as [m ->].
    replace ((2 * m + 1 + 1) / 2)%nat with (S m)
      by (apply Nat.div_unique with 0%nat; lia).
    replace ((S (2 * m + 1) + 1) / 2)%nat with (S m)
      by (apply Nat.div_unique with 1%nat; lia).
    now rewrite app_nil_r.
Qed.

Lemma filter_odd_seq (n : nat) :
  filter Nat.odd (seq 0 n) = map (fun k => 2 * k + 1)%nat (seq 0 (n / 2)).
Proof.
  induction n as [|n IH]; [reflexivity|].
  rewrite seq_S, filter_app, IH. simpl filter.
  destruct (Nat.odd n) eqn:O.
  - apply Nat.odd_spec in O as [m ->].
    replace ((2 * m + 1) / 2)%nat with m
      by (apply Nat.div_unique with 1%nat; lia).
    replace (S (2 * m + 1) / 2)%nat with (S m)
      by (apply Nat.div_unique with 0%nat; lia).
    now rewrite seq_S, map_app.
  - assert (E : Nat.even n = true).
    { rewrite <- Nat.negb_odd, O. reflexivity. }
    apply Nat.even_spec in E as [m ->].
    replace (2 * m / 2)%nat with m
      by (apply Nat.div_unique with 0%nat; lia).
    replace (S (2 * m) / 2)%nat with m
      by (apply Nat.div_unique with 1%nat; lia).
    now rewrite app_nil_r.
Qed.

(** The position of a slice in the interleaved order. *)
Lemma interleaved_nth_error (n sl : nat) :
  (sl < n)%nat ->
  nth_error (interleaved n)
    (if Nat.even sl then sl / 2 else (n + 1) / 2 + sl / 2)%nat = Some sl.
Proof.
  intros Hsl. unfold interleaved. rewrite filter_even_seq, filter_odd_seq.
  destruct (Nat.even sl) eqn:E.
  - apply Nat.even_spec in E as [m ->].
    replace (2 * m / 2)%nat with m
      by (apply Nat.div_unique with 0%nat; lia).
    assert (Hm : (m < (n + 1) / 2)%nat).
    { apply Nat.div_le_lower_bound; lia. }
    rewrite nth_error_app1 by (now rewrite length_map, length_seq).
    rewrite nth_error_map, nth_error_seq.
    apply Nat.ltb_lt in Hm. rewrite Hm. reflexivity.
  - assert (O : Nat.odd sl = true) by (rewrite <- Nat.negb_even, E; reflexivity).
    apply Nat.odd_spec in O as [m ->].
    replace ((2 * m + 1) / 2)%nat with m
      by (apply Nat.div_unique with 1%nat; lia).
    rewrite nth_error_app2 by (rewrite length_map, length_seq; lia).
    rewrite length_map, length_seq.
    replace ((n + 1) / 2 + m - (n + 1) / 2)%nat with m by lia.
    assert (Hm : (m < n / 2)%nat).
    { apply Nat.div_le_lower_bound; lia. }
    rewrite nth_error_map, nth_error_seq.
    apply Nat.ltb_lt in Hm. rewrite Hm. reflexivity.
Qed.

(** X1: when no slice order is passed, the constructor stores the
    interleaved order (even slices ascending, then odd slices ascending),
    which is a permutation of [0, n) of length [n], for [n] the number of
    slices passed; it also stores [n] as [nslices] and the scan duration
    [nframes * tr]. *)
Theorem inferred_order_is_permutation (tr : Q) (nframes n : nat)
    (log : bool) (card_dt resp_dt : Q) (card_wave card_trig resp_wave : list Q) :
  let self := init tr nframes n None log card_dt resp_dt
                   card_wave card_trig resp_wave in
  slice_order self =
    map (fun k => 2 * k)%nat (seq 0 ((n + 1) / 2)) ++
    map (fun k => 2 * k + 1)%nat (seq 0 (n / 2)) /\
  Permutation (slice_order self) (seq 0 (length (slice_order self))) /\
  length (slice_order self) = n /\
  nslices self = n /\
  scan_duration self = QofNat nframes * tr.
Proof.
  intros self. subst self. simpl.
  assert (HL : length (interleaved n) = n).
  { rewrite (Permutation_length (interleaved_permutation n)).
    apply length_seq. }
  split; [unfold interleaved; now rewrite filter_even_seq, filter_odd_seq|].
  split; [rewrite HL; apply interleaved_permutation|].
  split; [exact HL|]. split; reflexivity.
Qed.

(** X2: in the inferred order an even slice [sl] is acquired at position
    [sl/2] and an odd slice at position [(nslices+1)/2 + sl/2]: the lookup
    of [compute_regressors] returns exactly that position. *)
Theorem inferred_order_position (nslices sl : nat) :
  (sl < nslices)%nat ->
  cur_slice_acq (interleaved nslices) sl =
    inr (if Nat.even sl then sl / 2 else (nslices + 1) / 2 + sl / 2)%nat.
Proof.
  intros Hsl.
  pose proof (interleaved_permutation nslices) as HP.
  assert (Hin : In sl (interleaved nslices)).
  { apply (Permutation_in _ (Permutation_sym HP)). apply in_seq. lia. }
  destruct (cur_slice_acq_found _ sl Hin) as [cur [Ec [Hn _]]].
  rewrite Ec. f_equal.
  assert (Hnd : NoDup (interleaved nslices)).
  { apply (Permutation_NoDup (Permutation_sym HP)). apply seq_NoDup. }
  rewrite NoDup_nth_error in Hnd. apply Hnd.
  - apply nth_error_Some. congruence.
  - rewrite Hn. symmetry. now apply interleaved_nth_error.
Qed.

Lemma inferred_order_position_witness :
  cur_slice_acq (interleaved 5) 3 = inr 4%nat.
Proof.
  apply (inferred_order_position 5 3). lia.
Defined.

(** ** A slice order that is not a permutation *)

(** The phase pair of a frame is defined at every acquisition position
    below [nslc], whether or not the order is a permutation. *)
Lemma phase_pair_defined (firwin : nat -> R -> list R)
    (filtfilt : list R -> list R -> list R -> list R) (self : NIMSPhysio)
    (cur fr : nat) :
  (forall b a x, length (filtfilt b a x) = length x) ->
  0 < tr self ->
  scan_duration self == QofNat (nframes self) * tr self ->
  (2 <= length (resp_wave self))%nat ->
  (cur < length (slice_order self))%nat -> (fr < nframes self)%nat ->
  exists v,
    phase_pair self (fst (Np.histogram (resp_wave self) 100))
      (snd (Np.histogram (resp_wave self) 100))
      (respfilt_of firwin filtfilt self)
      (Np.diff (respfilt_of firwin filtfilt self))
      (slice_times self (length (slice_order self)) cur) fr = inr v.
Proof.
  intros Hf Ht Hd Hw Hc Hfr.
  assert (Hrl : length (respfilt_of firwin filtfilt self) = length (resp_wave self)).
  { unfold respfilt_of. now rewrite Hf, length_map. }
  destruct (slice_time_bounds (tr self) (length (slice_order self)) cur
              (nframes self) fr Ht Hc Hfr) as [H0 H1].
  destruct (phi_cardiac_bounds self _ H0 H1) as [pc [Epc _]].
  destruct (histogram_partial_sum (resp_wave self) 100 0) as [_ Hbl].
  destruct (phi_resp_spec self (fst (Np.histogram (resp_wave self) 100))
              (snd (Np.histogram (resp_wave self) 100))
              (respfilt_of firwin filtfilt self)
              (Np.diff (respfilt_of firwin filtfilt self))
              (tr self / QofNat (length (slice_order self)) * (QofNat cur + (1 # 2)) +
               QofNat fr * tr self))
    as [pr [d [numer [Epr _]]]].
  - rewrite diff_length. lia.
  - rewrite diff_length. lia.
  - intros E. rewrite E in Hbl. discriminate.
  - lia.
  - intros k. rewrite Hrl. apply (histogram_partial_sum (resp_wave self) 100 k).
  - exists [pc; pr]. unfold phase_pair.
    rewrite slice_times_nth by assumption. simpl bind.
    rewrite Epc. simpl bind. rewrite Epr. reflexivity.
Qed.

(** The phase stage raises [IndexError] when the order misses a slice index
    below its length. *)
Lemma phases_stage_missing_slice (firwin : nat -> R -> list R)
    (filtfilt : list R -> list R -> list R -> list R) (self : NIMSPhysio) :
  (forall b a x, length (filtfilt b a x) = length x) ->
  0 < tr self ->
  scan_duration self == QofNat (nframes self) * tr self ->
  (2 <= length (resp_wave self))%nat ->
  (exists sl, (sl < length (slice_order self))%nat /\ ~ In sl (slice_order self)) ->
  exists P, phases_stage firwin filtfilt self = (P, Some IndexError).
Proof.
  intros Hf Ht Hd Hw Hmiss. unfold phases_stage.
  destruct (Np.histogram (resp_wave self) 100) as [Hb bins] eqn:EH.
  destruct (for_range_cases
    (fun _ (P : list (list (list R))) => True)
    (fun sl => ~ In sl (slice_order self))
    (fun e => e = IndexError)
    (length (slice_order self))
    (phases_slice self Hb bins (respfilt_of firwin filtfilt self)
       (Np.diff (respfilt_of firwin filtfilt self)) (length (slice_order self)))
    (zeros3 0%R (length (slice_order self)) (nframes self) 2))
    as [[Hgood _]|[_ [P [e [E ->]]]]].
  - exact I.
  - intros sl P Hsl _. unfold phases_slice.
    destruct (in_dec Nat.eq_dec sl (slice_order self)) as [Hin|Hnin].
    + left. split; [tauto|].
      destruct (cur_slice_acq_found _ sl Hin) as [cur [Ec [Hn _]]]. rewrite Ec.
      assert (Hc : (cur < length (slice_order self))%nat)
        by (apply nth_error_Some; congruence).
      destruct (for_range_total (fun _ (Q : list (list (list R))) => True)
                  (nframes self)
                  (phases_frame self Hb bins (respfilt_of firwin filtfilt self)
                     (Np.diff (respfilt_of firwin filtfilt self)) sl
                     (slice_times self (length (slice_order self)) cur)) P)
        as [P' [E _]].
      * exact I.
      * intros fr Q Hfr _.
        destruct (phase_pair_defined firwin filtfilt self cur fr Hf Ht Hd Hw Hc Hfr)
          as [v Ev].
        rewrite EH in Ev. simpl in Ev.
        unfold phases_frame, assign. rewrite Ev. eexists. split; [reflexivity|exact I].
      * exists P'. split; [exact E|exact I].
    + right. split; [exact Hnin|].
      rewrite (cur_slice_acq_missing _ sl Hnin). exists P, IndexError. auto.
  - exfalso. destruct Hmiss as [sl [Hsl Hnin]]. exact (Hgood sl Hsl Hnin).
  - exists P. exact E.
Qed.

(** ** The shifted respiration waveform *)

Lemma Qminimum_cases (x y : Q) :
  (Np.Qminimum x y = x /\ x <= y) \/ (Np.Qminimum x y = y /\ y <= x).
Proof.
  unfold Np.Qminimum. destruct (Qle_bool x y) eqn:E.
  - left. split; [reflexivity|now apply Qle_bool_iff].
  - right. split; [reflexivity|].
    apply Qlt_le_weak, Qnot_le_lt. intros H. apply Qle_bool_iff in H. congruence.
Qed.

Lemma fold_Qminimum_spec (l : list Q) (x : Q) :
  In (fold_left Np.Qminimum l x) (x :: l) /\
  forall y, In y (x :: l) -> fold_left Np.Qminimum l x <= y.
Proof.
  revert x. induction l as [|a l IH]; intros x; simpl.
  - split; [now left|]. intros y [<-|[]]. apply Qle_refl.
  - destruct (IH (Np.Qminimum x a)) as [Hin Hle]. split.
    + destruct Hin as [Hin|Hin]; [|right; right; exact Hin].
      destruct (Qminimum_cases x a) as [[E _]|[E _]]; [left|right; left];
        rewrite <- Hin; symmetry; exact E.
    + intros y Hy.
      assert (Hm : fold_left Np.Qminimum l (Np.Qminimum x a) <= Np.Qminimum x a)
        by (apply Hle; now left).
      destruct Hy as [<-|[<-|Hy]].
      * eapply Qle_trans; [exact Hm|]. apply Qminimum_le_l.
      * eapply Qle_trans; [exact Hm|].
        destruct (Qminimum_cases x a) as [[E H]|[E H]]; rewrite E;
          [exact H|apply Qle_refl].
      * apply Hle. now right.
Qed.

(** [a.min()] is a sample of the array and is below all of them. *)
Lemma amin_spec (l : list Q) (mn : Q) :
  Np.amin l = inr mn -> In mn l /\ forall y, In y l -> mn <= y.
Proof.
  destruct l as [|x l]; simpl; [discriminate|]. intros H. injection H as <-.
  apply fold_Qminimum_spec.
Qed.

(** X4: after a call with at least three frames on a non-empty waveform,
    [resp_wave] has as many samples as before, every sample is
    non-negative, some sample is zero, and differences between samples are
    unchanged; a second call leaves every sample at its value. *)
Theorem resp_wave_zero_minimum (firwin : nat -> R -> list R)
    (filtfilt : list R -> list R -> list R -> list R) (self : NIMSPhysio) :
  (3 <= nframes self)%nat -> resp_wave self <> [] ->
  let once := final (compute_regressors firwin filtfilt self) in
  let twice := final (compute_regressors firwin filtfilt once) in
  length (resp_wave once) = length (resp_wave self) /\
  Forall (fun x => 0 <= x) (resp_wave once) /\
  (exists x, In x (resp_wave once) /\ x == 0) /\
  (forall i j, (i < length (resp_wave self))%nat ->
               (j < length (resp_wave self))%nat ->
               nth i (resp_wave once) 0 - nth j (resp_wave once) 0 ==
               nth i (resp_wave self) 0 - nth j (resp_wave self) 0) /\
  Forall2 Qeq (resp_wave twice) (resp_wave once).
Proof.
  intros Hn Hne once twice.
  assert (E3 : (nframes self <? 3)%nat = false) by (apply Nat.ltb_ge; lia).
  destruct (Np.amin (resp_wave self)) as [e|mn] eqn:Emn.
  { destruct (resp_wave self); [congruence|discriminate]. }
  destruct (amin_spec _ _ Emn) as [Hin Hle].
  assert (Hw : resp_wave once = map (fun x => x - mn) (resp_wave self)).
  { subst once.
    destruct (compute_regressors_final firwin filtfilt self)
      as [w [hr [rg [ph [E Hw]]]]].
    rewrite E. simpl. rewrite Hw, E3, Emn. reflexivity. }
  assert (Hnf : nframes once = nframes self).
  { subst once.
    destruct (compute_regressors_final firwin filtfilt self)
      as [w [hr [rg [ph [E _]]]]].
    rewrite E. reflexivity. }
  assert (Hzero : In (mn - mn) (resp_wave once) /\ mn - mn == 0).
  { split; [|ring]. rewrite Hw. apply in_map_iff. exists mn. auto. }
  assert (Hpos : Forall (fun x => 0 <= x) (resp_wave once)).
  { rewrite Hw. apply Forall_forall. intros y Hy.
    apply in_map_iff in Hy as [x [<- Hx]]. specialize (Hle x Hx). qlra. }
  split; [rewrite Hw; apply length_map|].
  split; [exact Hpos|]. split; [exists (mn - mn); exact Hzero|]. split.
  - intros i j Hi Hj. rewrite Hw.
    rewrite (nth_indep _ 0 ((fun x => x - mn) 0)) by (now rewrite length_map).
    rewrite (nth_indep _ 0 ((fun x => x - mn) 0) (n := j))
      by (now rewrite length_map).
    rewrite !(map_nth (fun x => x - mn)). ring.
  - destruct (Np.amin (resp_wave once)) as [e|mn'] eqn:Emn'.
    { destruct Hzero as [Hz _]. destruct (resp_wave once); [destruct Hz|discriminate]. }
    destruct (amin_spec _ _ Emn') as [Hin' Hle'].
    assert (Hmn' : mn' == 0).
    { rewrite Forall_forall in Hpos. specialize (Hpos mn' Hin').
      destruct Hzero as [Hz Hz0]. specialize (Hle' _ Hz). qlra. }
    assert (Hw2 : resp_wave twice = map (fun x => x - mn') (resp_wave once)).
    { subst twice.
      destruct (compute_regressors_final firwin filtfilt once)
        as [w [hr [rg [ph [E Hw2]]]]].
      rewrite E. simpl. rewrite Hw2, Hnf, E3, Emn'. reflexivity. }
    rewrite Hw2. clear - Hmn'.
    induction (resp_wave once) as [|x l IH]; simpl; constructor; [|exact IH].
    rewrite Hmn'. ring.
Qed.

Lemma resp_wave_zero_minimum_witness :
  let once := final (compute_regressors firwin_none filtfilt_none
                       (default_physio [] [3; 1; 2])) in
  Forall (fun x => 0 <= x) (resp_wave once) /\
  exists x, In x (resp_wave once) /\ x == 0.
Proof.
  intros once.
  destruct (resp_wave_zero_minimum firwin_none filtfilt_none
              (default_physio [] [3; 1; 2])) as [_ [H1 [H2 _]]].
  - simpl. lia.
  - discriminate.
  - split; assumption.
Defined.

(** ** The derived attributes after a call *)

(** X5: a call that raises had at least three frames, emitted nothing, and
    leaves [regressors] holding whatever it held before the call: unlike
    the early return for fewer than three frames, a failure does not reset
    it. *)
Theorem failed_call_keeps_regressors (firwin : nat -> R -> list R)
    (filtfilt : list R -> list R -> list R -> list R) (self : NIMSPhysio)
    (e : exn) :
  raised (compute_regressors firwin filtfilt self) = Some e ->
  (3 <= nframes self)%nat /\
  emitted (compute_regressors firwin filtfilt self) = [] /\
  regressors (final (compute_regressors firwin filtfilt self)) = regressors self.
Proof.
  unfold compute_regressors.
  destruct (nframes self <? 3)%nat eqn:E3; [discriminate|].
  apply Nat.ltb_ge in E3. intros H. split; [exact E3|].
  destruct (Np.amin (resp_wave self)) as [e0|mn]; [split; reflexivity|].
  destruct (phases_stage firwin filtfilt (shift_resp mn self)) as [P [e1|]];
    [split; reflexivity|].
  destruct (rvhr_stage _) as [[RVHR HR] [e2|]]; [split; reflexivity|].
  discriminate.
Qed.

Lemma failed_call_keeps_regressors_witness :
  let self := init 2 3 2 (Some [0; 0]%nat) false (1 # 100) (4 # 100) [] []
                   [1; 2; 3] in
  regressors (final (compute_regressors firwin_none filtfilt_none self)) = None.
Proof.
  intros self.
  assert (H : raised (compute_regressors firwin_none filtfilt_none self) =
              Some IndexError).
  { destruct (phases_stage_missing_slice firwin_none filtfilt_none
                (shift_resp 1 self)) as [P EP].
    - reflexivity.
    - reflexivity.
    - reflexivity.
    - simpl. lia.
    - exists 1%nat. simpl. split; [lia|]. intuition discriminate.
    - unfold compute_regressors. simpl Nat.ltb. cbv iota.
      change (Np.amin (resp_wave self)) with (@inr exn Q 1).
      cbv iota beta. rewrite EP. reflexivity. }
  exact (proj2 (proj2 (failed_call_keeps_regressors _ _ self IndexError H))).
Defined.

(** *** Shapes *)

Lemma set_row_shape {A} (i j n m k : nat) (v : list A) (T : list (list (list A))) :
  length v = k -> shape3 n m k T -> shape3 n m k (set_row i j v T).
Proof.
  intros Hv [HL HF]. unfold shape3, set_row. split.
  - now rewrite update_nth_length.
  - apply update_nth_Forall; [exact HF|]. intros M [HM HFM]. split.
    + now rewrite set_nth_length.
    + unfold set_nth. apply update_nth_Forall; [exact HFM|]. intros _ _. exact Hv.
Qed.

Lemma phase_pair_length (self : NIMSPhysio) (Hb : list nat) (bins : list Q)
    (respfilt drdt : list R) (times : list Q) (fr : nat) (v : list R) :
  phase_pair self Hb bins respfilt drdt times fr = inr v -> length v = 2%nat.
Proof.
  unfold phase_pair. intros H.
  destruct (Np.getnat times fr) as [e|t]; [discriminate|]. simpl bind in H.
  destruct (phi_cardiac self t) as [e|pc]; [discriminate|]. simpl bind in H.
  destruct (phi_resp self Hb bins respfilt drdt t) as [e|pr]; [discriminate|].
  simpl in H. injection H as <-. reflexivity.
Qed.

Lemma phases_stage_shape (firwin : nat -> R -> list R)
    (filtfilt : list R -> list R -> list R -> list R) (self : NIMSPhysio) :
  shape3 (length (slice_order self)) (nframes self) 2
         (fst (phases_stage firwin filtfilt self)).
Proof.
  unfold phases_stage. destruct (Np.histogram (resp_wave self) 100) as [Hb bins].
  apply (for_range_keeps
           (fun P => shape3 (length (slice_order self)) (nframes self) 2 P)).
  - apply zeros3_shape3.
  - intros sl P _ HP. unfold phases_slice.
    destruct (cur_slice_acq (slice_order self) sl) as [e|cur]; [exact HP|].
    apply (for_range_keeps
             (fun P => shape3 (length (slice_order self)) (nframes self) 2 P));
      [exact HP|].
    intros fr Q _ HQ. unfold phases_frame, assign.
    destruct (phase_pair _ _ _ _ _ _ fr) as [e|v] eqn:Ev; [exact HQ|].
    simpl. apply set_row_shape; [|exact HQ]. eapply phase_pair_length; eauto.
Qed.

Lemma hr_loop_length (self : NIMSPhysio) (times : list Q) (n : nat) :
  length (fst (for_range n (hr_frame self times) (zeros1 0 (nframes self)))) =
  nframes self.
Proof.
  apply (for_range_keeps (fun hr : list Q => length hr = nframes self)).
  - apply zeros1_length.
  - intros tp hr _ Hl. unfold hr_frame.
    destruct (Np.getnat times tp) as [e|t]; [exact Hl|].
    destruct (inds self t) as [|i p].
    + destruct (0 <? tp)%nat; [|exact Hl]. unfold assign.
      destruct (Np.getnat hr (tp - 1)) as [e|v]; [exact Hl|].
      simpl. now rewrite set_nth_length.
    + unfold assign. destruct (window_bpm self (i :: p)) as [e|v]; [exact Hl|].
      simpl. now rewrite set_nth_length.
Qed.

Lemma rvhr_stage_heart_rate_shape (self : NIMSPhysio) :
  shape2 (nframes self) (length (slice_order self)) (snd (fst (rvhr_stage self))).
Proof.
  unfold rvhr_stage.
  apply (for_range_keeps
           (fun st : list (list (list R)) * list (list Q) =>
              shape2 (nframes self) (length (slice_order self)) (snd st))).
  - apply zeros2_shape.
  - intros sl [T HR] _ HT. simpl in HT. unfold rvhr_slice.
    destruct (cur_slice_acq (slice_order self) sl) as [e|cur]; [exact HT|].
    destruct (for_range (nframes self) (rv_frame self _) _) as [rv [e|]]; [exact HT|].
    destruct (response_regressors RRF rv (response_grid self)) as [e|[a b]];
      [exact HT|].
    pose proof (hr_loop_length self
                  (slice_times self (length (slice_order self)) cur)
                  (nframes self)) as Hl.
    destruct (for_range (nframes self) (hr_frame self _) _) as [hr [e|]]; [exact HT|].
    simpl in Hl.
    assert (HS : shape2 (nframes self) (length (slice_order self))
                   (set_col2 sl hr HR)) by (now apply set_col2_shape).
    destruct (response_regressors CRF (map Q2R hr) (response_grid self))
      as [e|[c d]]; exact HS.
Qed.

(** X6: a call with at least three frames that completes leaves all three
    derived tensors set, with the shapes [nslices, nframes, 2] for
    [phases], [nframes, nslices] for [heart_rate] and
    [nframes, 12, nslices] for [regressors]. *)
Theorem completed_call_shapes (firwin : nat -> R -> list R)
    (filtfilt : list R -> list R -> list R -> list R) (self : NIMSPhysio) :
  (3 <= nframes self)%nat ->
  raised (compute_regressors firwin filtfilt self) = None ->
  let after := final (compute_regressors firwin filtfilt self) in
  let nslc := length (slice_order self) in
  exists P HR T,
    phases after = Some P /\ shape3 nslc (nframes self) 2 P /\
    heart_rate after = Some HR /\ shape2 (nframes self) nslc HR /\
    regressors after = Some T /\ shape3 (nframes self) 12 nslc T.
Proof.
  intros Hn Hnone after nslc. subst after nslc.
  assert (E3 : (nframes self <? 3)%nat = false) by (apply Nat.ltb_ge; lia).
  unfold compute_regressors in *. rewrite E3 in *.
  destruct (Np.amin (resp_wave self)) as [e|mn]; [discriminate|].
  pose proof (phases_stage_shape firwin filtfilt (shift_resp mn self)) as HP.
  destruct (phases_stage firwin filtfilt (shift_resp mn self)) as [P [e|]];
    [discriminate|].
  pose proof (rvhr_stage_shape (set_phases (Some P) (shift_resp mn self))) as HS.
  pose proof (rvhr_stage_heart_rate_shape
                (set_phases (Some P) (shift_resp mn self))) as HH.
  pose proof (retroicor_stage_shape (set_phases (Some P) (shift_resp mn self)) P)
    as HR.
  destruct (rvhr_stage (set_phases (Some P) (shift_resp mn self)))
    as [[RVHR HRt] [e|]]; [discriminate|].
  simpl in HP, HS, HH, HR. simpl.
  pose proof (concatenate1_shape _ 8 4 _ _ _ HR HS) as HC. simpl in HC.
  destruct (detrend_stage_spec (nframes self) 12 (length (slice_order self)) _
              ltac:(lia) HC) as [Hsh _].
  do 3 eexists. repeat split; eauto; try apply HP; try apply HH; try apply Hsh.
Qed.

Lemma completed_call_shapes_witness :
  exists P HR T,
    phases (final (compute_regressors firwin_none filtfilt_none scenario_A)) = Some P /\
    shape3 1 10 2 P /\
    heart_rate (final (compute_regressors firwin_none filtfilt_none scenario_A)) =
      Some HR /\
    shape2 10 1 HR /\
    regressors (final (compute_regressors firwin_none filtfilt_none scenario_A)) =
      Some T /\
    shape3 10 12 1 T.
Proof.
  exact (completed_call_shapes firwin_none filtfilt_none scenario_A
           scenario_A_frames scenario_A_completes).
Defined.

(** ** Which error the RVHR stage raises *)

Lemma for_range_raised_mono {S} (m n : nat) (body : nat -> step S) (s s' : S)
    (e : exn) :
  for_range m body s = (s', Some e) -> (m <= n)%nat ->
  for_range n body s = (s', Some e).
Proof.
  intros E Hmn. induction Hmn as [|n Hmn IH]; [exact E|].
  rewrite for_range_S, IH. reflexivity.
Qed.

Section RvhrErrors.

Variable self : NIMSPhysio.
Hypothesis tr_pos : 0 < tr self.
Hypothesis tr_below_40 : tr self < 40.
Hypothesis duration : scan_duration self == QofNat (nframes self) * tr self.
Hypothesis order : Permutation (slice_order self) (seq 0 (length (slice_order self))).
Hypothesis frames : (3 <= nframes self)%nat.

(** One slice: the RV check comes first, then the trigger check of frame 0. *)
Lemma rvhr_slice_outcome (sl : nat) (T : list (list (list R))) (HR : list (list Q)) :
  (sl < length (slice_order self))%nat ->
  (rv_window_short self sl /\
   exists st, rvhr_slice self (response_grid self) (length (slice_order self)) sl
                (T, HR) = (st, Some resp_short)) \/
  (~ rv_window_short self sl /\ no_trigger_at_start self sl /\
   exists st, rvhr_slice self (response_grid self) (length (slice_order self)) sl
                (T, HR) = (st, Some card_mismatch)) \/
  (~ rv_window_short self sl /\ ~ no_trigger_at_start self sl /\
   exists st, rvhr_slice self (response_grid self) (length (slice_order self)) sl
                (T, HR) = (st, None)).
Proof.
  intros Hsl.
  destruct (permutation_lookup _ sl order Hsl) as [cur [Ec [_ Hc]]].
  set (times := slice_times self (length (slice_order self)) cur).
  assert (timed : forall tp, (tp < nframes self)%nat ->
                    exists t, Np.getnat times tp = inr t).
  { intros tp Htp. eexists. now apply slice_times_nth. }
  assert (Hpos : (0 < nframes self)%nat) by lia.
  unfold rvhr_slice. rewrite Ec. fold times.
  destruct (rv_loop_cases self times timed Hpos)
    as [[Hok [rv [Erv Hlrv]]]|[[tp [t [Htp [Et Hlt]]]] [rv Erv]]].
  - assert (Hns : ~ rv_window_short self sl).
    { intros [cur' [tp [t [Ec' [Htp [Et Hlt]]]]]].
      assert (cur' = cur) by congruence. subst cur'.
      specialize (Hok tp t Htp Et). lia. }
    rewrite Erv.
    destruct (response_regressors_total RRF rv (response_grid self))
      as [a [b [Eab _]]].
    { now apply response_grid_nonempty. }
    { lia. }
    rewrite Eab.
    destruct (hr_loop_cases self times timed Hpos)
      as [[Hne [hr [Ehr [Hlhr Hent]]]]|[[t [_ [Et Hi]]] [hr Ehr]]].
    + rewrite Ehr.
      destruct (response_regressors_total CRF (map Q2R hr) (response_grid self))
        as [c [d [Ecd _]]].
      { now apply response_grid_nonempty. }
      { rewrite length_map. lia. }
      rewrite Ecd. right. right. split; [exact Hns|]. split.
      * intros [cur' [t [Ec' [Et Hi]]]].
        assert (cur' = cur) by congruence. subst cur'.
        apply (Hne t Et Hi).
      * eexists. reflexivity.
    + rewrite Ehr. right. left. split; [exact Hns|]. split.
      * exists cur, t. auto.
      * eexists. reflexivity.
  - rewrite Erv. left. split.
    + exists cur, tp, t. auto.
    + eexists. reflexivity.
Qed.

(** The stage raises the error of the first slice that meets a condition. *)
Lemma rvhr_stage_first_bad (sl0 : nat) :
  (sl0 < length (slice_order self))%nat ->
  (forall sl, (sl < sl0)%nat ->
     ~ rv_window_short self sl /\ ~ no_trigger_at_start self sl) ->
  (rv_window_short self sl0 ->
   exists st, rvhr_stage self = (st, Some resp_short)) /\
  (~ rv_window_short self sl0 -> no_trigger_at_start self sl0 ->
   exists st, rvhr_stage self = (st, Some card_mismatch)).
Proof.
  intros Hsl0 Hgood. unfold rvhr_stage.
  destruct (for_range_total
    (fun _ (st : list (list (list R)) * list (list Q)) => True) sl0
    (rvhr_slice self (response_grid self) (length (slice_order self)))
    (zeros3 0%R (nframes self) 4 (length (slice_order self)),
     zeros2 0 (nframes self) (length (slice_order self))))
    as [[T HR] [E _]].
  - exact I.
  - intros sl [T HR] Hsl _.
    destruct (rvhr_slice_outcome sl T HR ltac:(lia))
      as [[Ha _]|[[_ [Hb _]]|[_ [_ [st E]]]]].
    + destruct (Hgood sl Hsl). tauto.
    + destruct (Hgood sl Hsl). tauto.
    + exists st. split; [exact E|exact I].
  - destruct (rvhr_slice_outcome sl0 T HR Hsl0)
      as [[Ha [st Es]]|[[Hna [Hb [st Es]]]|[Hna [Hnb _]]]].
    + split; [|tauto]. intros _. exists st.
      apply for_range_raised_mono with (S sl0); [|lia].
      rewrite for_range_S, E. exact Es.
    + split; [tauto|]. intros _ _. exists st.
      apply for_range_raised_mono with (S sl0); [|lia].
      rewrite for_range_S, E. exact Es.
    + split; tauto.
Qed.

End RvhrErrors.

(** ** How much respiration data the RV windows need *)

(** With a positive sample spacing and a positive frame time the window
    bounds are out of order exactly when the lower one lies beyond the
    waveform. *)
Lemma rv_window_order (self : NIMSPhysio) (t : Q) :
  0 < resp_dt self -> 0 < t ->
  ((rv_i2 self t < rv_i1 self t)%Z <->
   (Z.of_nat (length (resp_wave self)) < Qfloor ((t - t_win) / resp_dt self))%Z).
Proof.
  intros Hdt Ht. unfold rv_i1, rv_i2.
  assert (Hab : (Qfloor ((t - t_win) / resp_dt self) <=
                 Qfloor ((t + t_win) / resp_dt self))%Z).
  { apply Qfloor_resp_le. apply Qmult_le_compat_r.
    - unfold t_win. qlra.
    - apply Qlt_le_weak, Qinv_lt_0_compat, Hdt. }
  assert (Hb : (0 <= Qfloor ((t + t_win) / resp_dt self))%Z).
  { change 0%Z with (Qfloor 0). apply Qfloor_resp_le.
    apply Qle_shift_div_l; [exact Hdt|]. unfold t_win. qlra. }
  lia.
Qed.

Lemma rv_i1_covered (self : NIMSPhysio) (t : Q) :
  0 < resp_dt self ->
  t - t_win <= QofNat (length (resp_wave self)) * resp_dt self ->
  (Qfloor ((t - t_win) / resp_dt self) <= Z.of_nat (length (resp_wave self)))%Z.
Proof.
  intros Hdt Hc. rewrite <- (Qfloor_Z (Z.of_nat (length (resp_wave self)))).
  apply Qfloor_resp_le. apply Qle_shift_div_r; [exact Hdt|exact Hc].
Qed.

Section RvhrErrorKind.

Variable self : NIMSPhysio.
Hypothesis tr_pos : 0 < tr self.
Hypothesis tr_below_40 : tr self < 40.
Hypothesis duration : scan_duration self == QofNat (nframes self) * tr self.
Hypothesis order : Permutation (slice_order self) (seq 0 (length (slice_order self))).
Hypothesis frames : (3 <= nframes self)%nat.

(** An error of the stage names the condition that some slice meets. *)
Lemma rvhr_stage_error_kind (st : list (list (list R)) * list (list Q)) (e : exn) :
  rvhr_stage self = (st, Some e) ->
  (e = resp_short /\
   exists sl, (sl < length (slice_order self))%nat /\ rv_window_short self sl) \/
  (e = card_mismatch /\
   exists sl, (sl < length (slice_order self))%nat /\ no_trigger_at_start self sl).
Proof.
  unfold rvhr_stage. intros E.
  destruct (for_range_cases
    (fun _ (st : list (list (list R)) * list (list Q)) => True)
    (fun sl => (sl < length (slice_order self))%nat /\
               (rv_window_short self sl \/ no_trigger_at_start self sl))
    (fun e =>
       (e = resp_short /\
        exists sl, (sl < length (slice_order self))%nat /\ rv_window_short self sl) \/
       (e = card_mismatch /\
        exists sl, (sl < length (slice_order self))%nat /\
                   no_trigger_at_start self sl))
    (length (slice_order self))
    (rvhr_slice self (response_grid self) (length (slice_order self)))
    (zeros3 0%R (nframes self) 4 (length (slice_order self)),
     zeros2 0 (nframes self) (length (slice_order self))))
    as [[_ [s' [E' _]]]|[_ [s' [e' [E' He]]]]].
  - exact I.
  - intros sl [T HR] Hsl _.
    destruct (rvhr_slice_outcome self tr_pos tr_below_40 duration order frames
                sl T HR Hsl)
      as [[Ha [s' Es]]|[[Hna [Hb [s' Es]]]|[Hna [Hnb [s' Es]]]]].
    + right. split; [split; [exact Hsl|now left]|].
      exists s', resp_short. split; [exact Es|]. left. split; [reflexivity|].
      exists sl. split; assumption.
    + right. split; [split; [exact Hsl|now right]|].
      exists s', card_mismatch. split; [exact Es|]. right. split; [reflexivity|].
      exists sl. split; assumption.
    + left. split; [tauto|]. exists s'. split; [exact Es|exact I].
  - rewrite E' in E. discriminate.
  - rewrite E' in E. injection E as _ <-. exact He.
Qed.

(** A waveform that reaches [t_win] seconds before the end of the scan
    leaves no RV window out of order. *)
Lemma covered_scan_no_short_window (sl : nat) :
  0 < resp_dt self ->
  scan_duration self - t_win <= QofNat (length (resp_wave self)) * resp_dt self ->
  (sl < length (slice_order self))%nat ->
  ~ rv_window_short self sl.
Proof.
  intros Hdt Hcov Hsl [cur [tp [t [Ec [Htp [Et Hlt]]]]]].
  destruct (permutation_lookup _ sl order Hsl) as [cur' [Ec' [_ Hc]]].
  assert (cur' = cur) by congruence. subst cur'.
  rewrite (slice_times_nth self _ cur tp tr_pos duration Hc Htp) in Et.
  injection Et as Et.
  destruct (slice_time_bounds (tr self) (length (slice_order self)) cur
              (nframes self) tp tr_pos Hc Htp) as [H0 H1].
  rewrite Et in H0, H1.
  apply rv_window_order in Hlt; [|exact Hdt|exact H0].
  assert (Hle : (Qfloor ((t - t_win) / resp_dt self) <=
                 Z.of_nat (length (resp_wave self)))%Z).
  { apply rv_i1_covered; [exact Hdt|]. rewrite duration in Hcov. qlra. }
  lia.
Qed.

End RvhrErrorKind.

(** ** A regular heartbeat *)



(** ** What detrending leaves in a column *)

Local Open Scope R_scope.

Lemma moment_y_0 (x y : list R) :
  length y = length x -> moment_y 0 x y = Np.Rsum y.
Proof.
  revert y. induction x as [|xi x IH]; intros [|yi y] Hl; simpl in Hl;
    try discriminate; [reflexivity|].
  injection Hl as Hl. specialize (IH y Hl).
  unfold moment_y in *. simpl in *. rewrite IH. ring.
Qed.

(** The regressors a completed call stores are the detrended columns of an
    array of the same shape. *)
Lemma call_regressors_detrended (firwin : nat -> R -> list R)
    (filtfilt : list R -> list R -> list R -> list R) (self : NIMSPhysio) :
  (3 <= nframes self)%nat ->
  raised (compute_regressors firwin filtfilt self) = None ->
  exists T T0,
    regressors (final (compute_regressors firwin filtfilt self)) = Some T /\
    shape3 (nframes self) 12 (length (slice_order self)) T0 /\
    T = detrend_stage (length (slice_order self)) T0.
Proof.
  intros Hn Hnone.
  assert (E3 : (nframes self <? 3)%nat = false) by (apply Nat.ltb_ge; lia).
  unfold compute_regressors in *. rewrite E3 in *.
  destruct (Np.amin (resp_wave self)) as [e|mn]; [discriminate|].
  destruct (phases_stage firwin filtfilt (shift_resp mn self)) as [P [e|]];
    [discriminate|].
  pose proof (rvhr_stage_shape (set_phases (Some P) (shift_resp mn self))) as HS.
  pose proof (retroicor_stage_shape (set_phases (Some P) (shift_resp mn self)) P) as HR.
  destruct (rvhr_stage (set_phases (Some P) (shift_resp mn self)))
    as [[RVHR HRt] [e|]]; [discriminate|].
  simpl in HS, HR. simpl.
  pose proof (concatenate1_shape _ 8 4 _ _ _ HR HS) as HC. simpl in HC.
  eexists. eexists. split; [reflexivity|]. split; [exact HC|reflexivity].
Qed.

(** ** Quadratic drift *)

(** The moments of [y + q(x)] against the powers of [x]. *)
Lemma moment_y_drift (q : R * R * R) (k : nat) (x y : list R) :
  length y = length x ->
  moment_y k x (map (fun xy => snd xy + polyval2 q (fst xy)) (combine x y)) =
  moment_y k x y +
    (fst (fst q) * moment (S (S k)) x + snd (fst q) * moment (S k) x +
     snd q * moment k x).
Proof.
  destruct q as [[c2 c1] c0]. simpl fst. simpl snd.
  revert y. induction x as [|xi x IH]; intros [|yi y] Hl; simpl in Hl;
    try discriminate.
  - unfold moment_y, moment. simpl. ring.
  - injection Hl as Hl. specialize (IH y Hl).
    unfold moment_y, moment in *. simpl in *. rewrite IH. ring.
Qed.

(** The fit is affine in the data: adding a quadratic to the data adds its
    coefficients to the fit. *)
Lemma polyfit2_drift (q : R * R * R) (x y : list R) :
  gram_det x <> 0 -> length y = length x ->
  polyfit2 x (map (fun xy => snd xy + polyval2 q (fst xy)) (combine x y)) =
  (fst (fst (polyfit2 x y)) + fst (fst q),
   snd (fst (polyfit2 x y)) + snd (fst q),
   snd (polyfit2 x y) + snd q).
Proof.
  intros HD Hl. unfold polyfit2. rewrite !moment_y_drift by exact Hl.
  destruct q as [[c2 c1] c0]. simpl fst. simpl snd.
  unfold gram_det, det3 in *.
  set (s0 := moment 0 x) in *. set (s1 := moment 1 x) in *.
  set (s2 := moment 2 x) in *. set (s3 := moment 3 x) in *.
  set (s4 := moment 4 x) in *.
  set (b0 := moment_y 0 x y). set (b1 := moment_y 1 x y).
  set (b2 := moment_y 2 x y).
  clearbody s0 s1 s2 s3 s4 b0 b1 b2.
  f_equal; [f_equal|]; field; exact HD.
Qed.

Lemma detrend_col_drift (q : R * R * R) (x y : list R) :
  gram_det x <> 0 -> length y = length x ->
  detrend_col x (map (fun xy => snd xy + polyval2 q (fst xy)) (combine x y)) =
  detrend_col x y.
Proof.
  intros HD Hl. unfold detrend_col. rewrite polyfit2_drift by assumption.
  destruct (polyfit2 x y) as [[p2 p1] p0]. destruct q as [[c2 c1] c0].
  simpl fst. simpl snd. clear HD.
  revert y Hl. induction x as [|xi x IH]; intros [|yi y] Hl; simpl in Hl;
    try discriminate; [reflexivity|].
  injection Hl as Hl. simpl. f_equal; [ring|]. apply IH. exact Hl.
Qed.

(** X11: detrending an array of shape [n, m, c] with [n >= 3] ignores
    quadratic drift: when a column of [T1] is the same column of [T0] plus a
    quadratic in the frame index, the two detrended columns are equal. In
    particular (with a zero column in [T0]) a column that is exactly
    quadratic in the frame index is detrended to the same values as a zero
    column. *)
Theorem detrending_removes_quadratic_drift (n m c : nat)
    (T0 T1 : list (list (list R))) (reg sl : nat) (q : R * R * R) :
  (3 <= n)%nat -> shape3 n m c T0 -> shape3 n m c T1 ->
  (reg < m)%nat -> (sl < c)%nat ->
  get_col T1 reg sl =
    map (fun iy => snd iy + polyval2 q (fst iy))
        (combine (frame_index n) (get_col T0 reg sl)) ->
  get_col (detrend_stage c T1) reg sl = get_col (detrend_stage c T0) reg sl.
Proof.
  intros Hn H0 H1 Hreg Hsl Hq.
  destruct (detrend_stage_spec n m c T0 ltac:(lia) H0) as [_ Hc0].
  destruct (detrend_stage_spec n m c T1 ltac:(lia) H1) as [_ Hc1].
  rewrite (Hc0 reg sl Hreg Hsl), (Hc1 reg sl Hreg Hsl), Hq.
  apply detrend_col_drift.
  - now apply gram_det_frame_index_nonzero.
  - rewrite get_col_length, frame_index_length. destruct H0 as [HL _]. exact HL.
Qed.

Lemma detrending_removes_quadratic_drift_witness :
  get_col (detrend_stage 1 [[[1]]; [[2]]; [[5]]]) 0 0 =
  get_col (detrend_stage 1 [[[0]]; [[0]]; [[0]]]) 0 0.
Proof.
  apply (detrending_removes_quadratic_drift 3 1 1
           [[[0]]; [[0]]; [[0]]] [[[1]]; [[2]]; [[5]]] 0 0 (1, 0, 1)).
  - lia.
  - split; [reflexivity|]. repeat constructor.
  - split; [reflexivity|]. repeat constructor.
  - lia.
  - lia.
  - unfold get_col, frame_index. simpl. repeat f_equal; ring.
Defined.

(** ** Time zero at the start of the scan *)

Local Open Scope Q_scope.

Lemma time_axis_length (dt : Q) (n : nat) (D : Q) : length (time_axis dt n D) = n.
Proof. unfold time_axis. now rewrite length_map, length_seq. Qed.

Lemma time_axis_nth_error (dt : Q) (n : nat) (D : Q) (i : nat) :
  (i < n)%nat ->
  nth_error (time_axis dt n D) i = Some (dt * QofNat i - offset dt n D).
Proof.
  intros Hi. unfold time_axis. rewrite nth_error_map, nth_error_seq.
  apply Nat.ltb_lt in Hi. rewrite Hi. reflexivity.
Qed.

Lemma QofNat_sub (n i : nat) : (i <= n)%nat -> QofNat (n - i) == QofNat n - QofNat i.
Proof.
  intros H. unfold QofNat. rewrite Nat2Z.inj_sub by exact H.
  unfold Z.sub. rewrite inject_Z_plus, inject_Z_opp. ring.
Qed.

(** X12: when the three recordings are present, the time axes that
    [read_ge_data] builds have one entry per sample, and the sample [i] of
    [n] lies [(n - i) * dt] before the end of the scan: both recordings are
    taken to end with the scan, the last sample one step before
    [scan_duration], whatever their length. *)
Theorem time_axes_end_with_scan (resp_dt card_dt D : Q) (rw cw ct : list Q) :
  exists ax,
    read_ge_data resp_dt card_dt D (Some rw) (Some cw) (Some ct) = inr ax /\
    length (resp_time ax) = length rw /\
    length (card_time ax) = length cw /\
    (forall i, (i < length rw)%nat ->
       exists v, nth_error (resp_time ax) i = Some v /\
                 v == D - QofNat (length rw - i) * resp_dt) /\
    (forall i, (i < length cw)%nat ->
       exists v, nth_error (card_time ax) i = Some v /\
                 v == D - QofNat (length cw - i) * card_dt).
Proof.
  eexists. split; [reflexivity|]. simpl.
  rewrite !time_axis_length. split; [reflexivity|]. split; [reflexivity|].
  split; intros i Hi; eexists;
    (split; [apply time_axis_nth_error; exact Hi|]);
    unfold offset; rewrite QofNat_sub by lia; ring.
Qed.

(** X13: a trigger that [PPGTrig] gives as the sample number [k] of the
    cardiac waveform is stored at the time [card_time[k]]; with a positive
    [card_dt] that time is before the end of the scan, and the shift keeps
    the triggers in the order the file has them. *)
Theorem triggers_on_card_time_axis (resp_dt card_dt D : Q) (rw cw ct : list Q)
    (ax : time_axes) :
  read_ge_data resp_dt card_dt D (Some rw) (Some cw) (Some ct) = inr ax ->
  0 < card_dt ->
  length (shifted_trig ax) = length ct /\
  (forall j k, nth_error ct j = Some (QofNat k) -> (k < length cw)%nat ->
     exists v w,
       nth_error (shifted_trig ax) j = Some v /\
       nth_error (card_time ax) k = Some w /\ v == w /\ v < D) /\
  (forall i j ci cj, nth_error ct i = Some ci -> nth_error ct j = Some cj ->
     ci <= cj ->
     exists vi vj,
       nth_error (shifted_trig ax) i = Some vi /\
       nth_error (shifted_trig ax) j = Some vj /\ vi <= vj).
Proof.
  intros E Hdt. injection E as <-. simpl. split; [|split].
  - now rewrite !length_map.
  - intros j k Hj Hk. eexists. eexists.
    rewrite !nth_error_map, Hj. simpl. split; [reflexivity|].
    split; [apply time_axis_nth_error; exact Hk|].
    split; [ring|]. unfold offset.
    assert (H1 : QofNat k + 1 <= QofNat (length cw)).
    { rewrite <- QofNat_S. apply QofNat_le. lia. }
    qnra.
  - intros i j ci cj Hi Hj Hle. exists (ci * card_dt - offset card_dt (length cw) D).
    exists (cj * card_dt - offset card_dt (length cw) D).
    rewrite !nth_error_map, Hi, Hj. simpl.
    split; [reflexivity|]. split; [reflexivity|]. qnra.
Qed.

Lemma triggers_on_card_time_axis_witness :
  exists ax v w,
    read_ge_data (4 # 100) (1 # 100) 2 (Some [1; 2]) (Some [5; 6; 7])
                 (Some [QofNat 0; QofNat 2]) = inr ax /\
    nth_error (shifted_trig ax) 1 = Some v /\
    nth_error (card_time ax) 2 = Some w /\ v == w /\ v < 2.
Proof.
  destruct (read_ge_data (4 # 100) (1 # 100) 2 (Some [1; 2]) (Some [5; 6; 7])
                         (Some [QofNat 0; QofNat 2])) as [e|ax] eqn:E;
    [vm_compute in E; discriminate|].
  destruct (triggers_on_card_time_axis (4 # 100) (1 # 100) 2 [1; 2] [5; 6; 7]
              [QofNat 0; QofNat 2] ax E eq_refl) as [_ [H _]].
  destruct (H 1%nat 2%nat eq_refl ltac:(simpl; lia)) as [v [w Hvw]].
  exists ax, v, w. split; [reflexivity|exact Hvw].
Defined.

(** X14: [__init__] succeeds exactly when the archive holds the respiration
    waveform, the cardiac waveform and the cardiac triggers; when one of
    them is missing it raises a [NIMSPhysioError]. The respiration triggers
    are not needed. *)
Theorem init_needs_three_recordings (tr : Q) (nframes nslices : nat)
    (slice_order : option (list nat)) (log : bool) (card_dt resp_dt : Q)
    (resp_wave card_wave card_trig : option (list Q)) :
  ((exists rw cw ct,
      resp_wave = Some rw /\ card_wave = Some cw /\ card_trig = Some ct) /\
   exists self ax,
     init_read tr nframes nslices slice_order log card_dt resp_dt
               resp_wave card_wave card_trig = inr (self, ax)) \/
  ((resp_wave = None \/ card_wave = None \/ card_trig = None) /\
   exists msg,
     init_read tr nframes nslices slice_order log card_dt resp_dt
               resp_wave card_wave card_trig = inl (NIMSPhysioError msg)).
Proof.
  unfold init_read, read_ge_data.
  destruct resp_wave as [rw|]; [|right; split; [auto|eexists; reflexivity]].
  destruct card_wave as [cw|]; [|right; split; [auto|eexists; reflexivity]].
  destruct card_trig as [ct|]; [|right; split; [auto|eexists; reflexivity]].
  left. split; [exists rw, cw, ct; auto|]. eexists. eexists. reflexivity.
Qed.

(** X15: an object that [__init__] builds from the three recordings, with
    no slice order passed, a positive [tr] and at least two respiration
    samples, meets the input conditions of [compute_regressors] (positive
    [tr], [scan_duration = nframes * tr], a slice order that is a
    permutation, two respiration samples); and with a positive [card_dt]
    its trigger times ascend when the trigger samples of the file do. *)
Theorem constructed_object_is_good_input
    (filtfilt : list R -> list R -> list R -> list R)
    (tr : Q) (nframes nslices : nat) (log : bool) (card_dt resp_dt : Q)
    (rw cw ct : list Q) :
  (forall b a x, length (filtfilt b a x) = length x) ->
  0 < tr -> (2 <= length rw)%nat -> 0 < card_dt ->
  exists self ax,
    init_read tr nframes nslices None log card_dt resp_dt
              (Some rw) (Some cw) (Some ct) = inr (self, ax) /\
    ScanInputs filtfilt self /\
    ((forall i j ci cj, (i <= j)%nat -> nth_error ct i = Some ci ->
        nth_error ct j = Some cj -> ci <= cj) ->
     forall i j ci cj, (i <= j)%nat ->
       nth_error (card_trig self) i = Some ci ->
       nth_error (card_trig self) j = Some cj -> ci <= cj).
Proof.
  intros Hff Htr Hrw Hdt. eexists. eexists. split; [reflexivity|]. split.
  - unfold ScanInputs, init. simpl.
    split; [exact Hff|]. split; [exact Htr|]. split; [reflexivity|].
    split; [|exact Hrw].
    rewrite (Permutation_length (interleaved_permutation nslices)), length_seq.
    apply interleaved_permutation.
  - intros Hasc i j ci cj Hij Hi Hj.
    unfold init in Hi, Hj. simpl in Hi, Hj.
    rewrite !nth_error_map in Hi, Hj.
    destruct (nth_error ct i) as [ri|] eqn:Ei; [|discriminate].
    destruct (nth_error ct j) as [rj|] eqn:Ej; [|discriminate].
    injection Hi as <-. injection Hj as <-.
    pose proof (Hasc i j ri rj Hij Ei Ej). qnra.
Qed.

Lemma constructed_object_is_good_input_witness :
  exists self ax,
    init_read 2 10 4 None false (1 # 100) (4 # 100)
              (Some [1; 2; 3]) (Some [5; 6; 7]) (Some [QofNat 0; QofNat 2])
      = inr (self, ax) /\
    ScanInputs filtfilt_none self.
Proof.
  destruct (constructed_object_is_good_input filtfilt_none 2 10 4 false
              (1 # 100) (4 # 100) [1; 2; 3] [5; 6; 7] [QofNat 0; QofNat 2])
    as [self [ax [E [H _]]]].
  - reflexivity.
  - reflexivity.
  - simpl. lia.
  - reflexivity.
  - exists self, ax. split; assumption.
Defined.

(** ** The regressor file *)

Lemma flat_map_seq_S {B} (f : nat -> list B) (c : nat) :
  flat_map f (seq 0 (S c)) = flat_map f (seq 0 c) ++ f c.
Proof. rewrite seq_S, flat_map_app. simpl. now rewrite app_nil_r. Qed.

Lemma flat_map_uniform_length {B} (f : nat -> list B) (m c : nat) :
  (forall j, (j < c)%nat -> length (f j) = m) ->
  length (flat_map f (seq 0 c)) = (c * m)%nat.
Proof.
  induction c as [|c IH]; intros H; [reflexivity|].
  rewrite flat_map_seq_S, length_app, IH, H by (intros; auto). lia.
Qed.

(** Entry [k] of block [i] of a concatenation of blocks of one length. *)
Lemma flat_map_uniform_nth_error {B} (f : nat -> list B) (m c i k : nat) :
  (forall j, (j < c)%nat -> length (f j) = m) ->
  (i < c)%nat -> (k < m)%nat ->
  nth_error (flat_map f (seq 0 c)) (i * m + k) = nth_error (f i) k.
Proof.
  induction c as [|c IH]; intros H Hi Hk; [lia|].
  rewrite flat_map_seq_S.
  assert (HL : length (flat_map f (seq 0 c)) = (c * m)%nat)
    by (apply flat_map_uniform_length; intros; auto).
  destruct (Nat.eq_dec i c) as [->|Hne].
  - rewrite nth_error_app2 by (rewrite HL; lia).
    rewrite HL. f_equal. lia.
  - rewrite nth_error_app1 by (rewrite HL; nia).
    apply IH; [intros; auto|lia|exact Hk].
Qed.

Lemma map_via_index {A B} (f : A -> B) (l : list A) (d : A) :
  map f l = map (fun k => f (nth k l d)) (seq 0 (length l)).
Proof.
  induction l as [|a l IH]; [reflexivity|].
  simpl. rewrite <- seq_shift, map_map. f_equal. exact IH.
Qed.

Section WriterProps.

Variable firwin : nat -> R -> list R.
Variable filtfilt : list R -> list R -> list R -> list R.
Variable fmt : R -> string.

Lemma slice_block_length (T : list (list (list R))) (i : nat) :
  length (slice_block fmt T i) = S (length T).
Proof. unfold slice_block, savetxt, plane. simpl. now rewrite !length_map. Qed.

End WriterProps.

(** X16: [write_regressors] fails in two ways. An exception of
    [compute_regressors] is passed on before the file is opened. With fewer
    than three frames [compute_regressors] returns with the regressors
    unset, and the writer then raises an [AttributeError] after it has
    written the first header line, the slice order, and nothing else. In
    every other case it completes. *)
Theorem write_regressors_failures (firwin : nat -> R -> list R)
    (filtfilt : list R -> list R -> list R -> list R) (fmt : R -> string)
    (self : NIMSPhysio) :
  let w := write_regressors firwin filtfilt fmt self in
  (forall e, raised (compute_regressors firwin filtfilt self) = Some e ->
     failed w = Some (Computing e) /\ outfile w = None) /\
  ((nframes self < 3)%nat ->
     (exists msg, failed w = Some (Writing (AttributeError msg))) /\
     outfile w = Some [header_order (slice_order self)]) /\
  ((3 <= nframes self)%nat ->
   raised (compute_regressors firwin filtfilt self) = None ->
   failed w = None).
Proof.
  intros w. subst w. unfold write_regressors. split; [|split].
  - intros e E. rewrite E. split; reflexivity.
  - intros Hn. apply Nat.ltb_lt in Hn.
    unfold compute_regressors. rewrite Hn. simpl. split; [|reflexivity].
    eexists. reflexivity.
  - intros Hn E.
    destruct (call_regressors_detrended firwin filtfilt self Hn E)
      as [T [T0 [ET _]]].
    rewrite E, ET. reflexivity.
Qed.

Lemma write_regressors_failures_witness :
  let self := init 2 2 1 (Some [0%nat]) false (1 # 100) (4 # 100) [] [] [] in
  outfile (write_regressors firwin_none filtfilt_none (fun _ => EmptyString) self)
    = Some [header_order [0%nat]].
Proof.
  intros self.
  destruct (write_regressors_failures firwin_none filtfilt_none
              (fun _ => EmptyString) self) as [_ [H _]].
  destruct H as [_ H]; [simpl; lia|exact H].
Defined.

(** X17: when a call with at least three frames completes,
    [write_regressors] writes four header lines and then, for every slice
    [i] in ascending order, a block of [nframes + 1] lines: the marker
    [# slice i] and one line per frame [tp], which holds the twelve
    regressors of that frame and slice, formatted and separated by blanks.
    The file has [4 + nslices * (nframes + 1)] lines. *)
Theorem regressor_file_layout (firwin : nat -> R -> list R)
    (filtfilt : list R -> list R -> list R -> list R) (fmt : R -> string)
    (self : NIMSPhysio) :
  (3 <= nframes self)%nat ->
  raised (compute_regressors firwin filtfilt self) = None ->
  exists T lines,
    regressors (final (compute_regressors firwin filtfilt self)) = Some T /\
    outfile (write_regressors firwin filtfilt fmt self) = Some lines /\
    length lines =
      (4 + length (slice_order self) * (nframes self + 1))%nat /\
    firstn 4 lines =
      [header_order (slice_order self); header_shape T; header_layout;
       header_names] /\
    forall i, (i < length (slice_order self))%nat ->
      nth_error lines (4 + i * (nframes self + 1)) = Some (slice_marker i) /\
      forall tp, (tp < nframes self)%nat ->
        nth_error lines (4 + i * (nframes self + 1) + 1 + tp) =
          Some (join " " (map (fun reg => fmt (nth i (nth reg (nth tp T []) []) 0%R))
                              (seq 0 12)) ++ nl)%string.
Proof.
  intros Hn E.
  destruct (call_regressors_detrended firwin filtfilt self Hn E)
    as [T' [T0 [ET [HC ->]]]].
  destruct (detrend_stage_spec (nframes self) 12 (length (slice_order self)) T0
              ltac:(lia) HC) as [Hsh _].
  set (T := detrend_stage (length (slice_order self)) T0) in *.
  assert (Hfinal : slice_order (final (compute_regressors firwin filtfilt self))
                   = slice_order self).
  { destruct (compute_regressors_final firwin filtfilt self)
      as [w [hr [rg [ph [Ef _]]]]].
    rewrite Ef. reflexivity. }
  destruct Hsh as [HL HF].
  assert (Hrow : forall tp, (tp < nframes self)%nat ->
            shape2 12 (length (slice_order self)) (nth tp T [])).
  { intros tp Htp. rewrite Forall_forall in HF. apply HF.
    apply nth_In. lia. }
  assert (Hc : length (hd [] (hd [] T)) = length (slice_order self)).
  { destruct T as [|row T1]; [simpl in HL; lia|].
    inversion HF as [|? ? Hr _]; subst. destruct Hr as [Hr1 Hr2].
    destruct row as [|v row]; [simpl in Hr1; lia|].
    inversion Hr2; subst. assumption. }
  assert (Hblock : forall j, (j < length (slice_order self))%nat ->
            length (slice_block fmt T j) = S (nframes self)).
  { intros j _. rewrite slice_block_length, HL. reflexivity. }
  exists T. eexists. split; [exact ET|].
  unfold write_regressors. rewrite E, ET, Hfinal, Hc.
  cbn [outfile]. split; [reflexivity|]. split; [|split; [reflexivity|]].
  - rewrite length_app, (flat_map_uniform_length _ (S (nframes self))) by exact Hblock.
    simpl. lia.
  - intros i Hi.
    assert (Hidx : forall k, (k < S (nframes self))%nat ->
              nth_error
                ([header_order (slice_order self); header_shape T; header_layout;
                  header_names] ++
                 flat_map (slice_block fmt T) (seq 0 (length (slice_order self))))
                (4 + i * (nframes self + 1) + k) =
              nth_error (slice_block fmt T i) k).
    { intros k Hk. rewrite nth_error_app2 by (simpl; lia).
      replace (4 + i * (nframes self + 1) + k -
               length [header_order (slice_order self); header_shape T;
                       header_layout; header_names])%nat
        with (i * S (nframes self) + k)%nat by (simpl; lia).
      apply flat_map_uniform_nth_error; [exact Hblock|exact Hi|exact Hk]. }
    split.
    + rewrite <- (Nat.add_0_r (4 + i * (nframes self + 1))).
      rewrite Hidx by lia. reflexivity.
    + intros tp Htp.
      rewrite <- Nat.add_assoc. rewrite Hidx by lia.
      replace (1 + tp)%nat with (S tp) by lia.
      unfold slice_block, savetxt, plane. cbn [nth_error].
      rewrite !nth_error_map.
      rewrite (nth_error_nth' T [] (n := tp)) by lia. cbn [option_map].
      destruct (Hrow tp Htp) as [H12 _].
      rewrite map_map, (map_via_index _ (nth tp T []) []), H12. reflexivity.
Qed.

Lemma regressor_file_layout_witness :
  exists T lines,
    regressors (final (compute_regressors firwin_none filtfilt_none scenario_A))
      = Some T /\
    outfile (write_regressors firwin_none filtfilt_none (fun _ => EmptyString)
               scenario_A) = Some lines /\
    length lines = 15%nat.
Proof.
  destruct (regressor_file_layout firwin_none filtfilt_none (fun _ => EmptyString)
              scenario_A scenario_A_frames scenario_A_completes)
    as [T [lines [ET [El [HL _]]]]].
  exists T, lines. split; [exact ET|]. split; [exact El|]. exact HL.
Defined.

(** ** What the regressor columns hold *)

Local Open Scope R_scope.

Lemma nth_map_column (rows : list (list R)) (i j : nat) :
  nth j (map (fun row => nth i row 0) rows) 0 = nth i (nth j rows []) 0.
Proof.
  revert j. induction rows as [|r rows IH]; intros [|j]; simpl; auto;
    destruct i; reflexivity.
Qed.

Lemma column_transpose (n : nat) (rows : list (list R)) (j : nat) :
  length (nth j rows []) = n ->
  column 0 (transpose n rows) j = nth j rows [].
Proof.
  intros HL. unfold column, transpose. rewrite map_map.
  transitivity (map (fun k => nth k (nth j rows []) 0) (seq 0 n)).
  - apply map_ext. intros i. apply nth_map_column.
  - rewrite <- HL. symmetry.
    etransitivity; [symmetry; apply map_id|].
    apply (map_via_index (fun x => x)).
Qed.

Lemma nth_set_col2_same (k j : nat) (v : list R) (M : list (list R)) :
  length v = length M -> Forall (fun row => (k < length row)%nat) M ->
  (j < length M)%nat ->
  nth k (nth j (set_col2 k v M) []) 0 = nth j v 0.
Proof.
  intros Hv HF Hj.
  rewrite <- (column_nth 0 (set_col2 k v M) k j).
  - now rewrite set_col2_column_same.
  - unfold set_col2. rewrite length_map, length_combine. lia.
Qed.

Lemma nth_set_col2_other (k k' j : nat) (v : list R) (M : list (list R)) :
  k <> k' -> length v = length M -> (j < length M)%nat ->
  nth k' (nth j (set_col2 k v M) []) 0 = nth k' (nth j M []) 0.
Proof.
  intros Hne Hv Hj.
  rewrite <- (column_nth 0 (set_col2 k v M) k' j).
  - rewrite set_col2_column_other by assumption. now apply column_nth.
  - unfold set_col2. rewrite length_map, length_combine. lia.
Qed.

(** [T[:, :, k] = M] and then [T[:, j, k]] is column [j] of [M]. *)
Lemma get_col_set_plane_same (n m c j k : nat) (M : list (list R))
    (T : list (list (list R))) :
  shape2 n m M -> shape3 n m c T -> (j < m)%nat -> (k < c)%nat ->
  get_col (set_plane k M T) j k = column 0 M j.
Proof.
  intros [HLM HFM] [HLT HFT] Hj Hk.
  assert (HL : length M = length T) by congruence. clear HLM HLT.
  revert M HL HFM. induction HFT as [|row T [Hr1 Hr2] HFT IH];
    intros [|mrow M] HL HFM; simpl in HL; try discriminate; [reflexivity|].
  inversion HFM as [|? ? Hm HFM']; subst.
  unfold get_col, set_plane, column in *. simpl. f_equal.
  - apply nth_set_col2_same; [congruence| |lia].
    apply Forall_forall. intros r Hin. rewrite Forall_forall in Hr2.
    rewrite (Hr2 r Hin). exact Hk.
  - apply IH; [lia|exact HFM'].
Qed.

(** The other slices keep their columns. *)
Lemma get_col_set_plane_other (n m c j k k' : nat) (M : list (list R))
    (T : list (list (list R))) :
  k <> k' -> shape2 n m M -> shape3 n m c T -> (j < m)%nat ->
  get_col (set_plane k M T) j k' = get_col T j k'.
Proof.
  intros Hne [HLM HFM] [HLT HFT] Hj.
  assert (HL : length M = length T) by congruence. clear HLM HLT.
  revert M HL HFM. induction HFT as [|row T [Hr1 Hr2] HFT IH];
    intros [|mrow M] HL HFM; simpl in HL; try discriminate; [reflexivity|].
  inversion HFM as [|? ? Hm HFM']; subst.
  unfold get_col, set_plane in *. simpl. f_equal.
  - apply nth_set_col2_other; [exact Hne|congruence|lia].
  - apply IH; [lia|exact HFM'].
Qed.

(** Columns of [np.concatenate((X, Y), axis=1)]. *)
Lemma get_col_concatenate1 (n a b c j k : nat) (X Y : list (list (list R))) :
  shape3 n a c X -> shape3 n b c Y ->
  get_col (concatenate1 X Y) j k =
    if (j <? a)%nat then get_col X j k else get_col Y (j - a) k.
Proof.
  intros [HLX HFX] [HLY HFY].
  assert (HL : length Y = length X) by congruence. clear HLX HLY.
  revert Y HL HFY. induction HFX as [|rx X [Hx1 Hx2] HFX IH];
    intros [|ry Y] HL HFY; simpl in HL; try discriminate.
  - destruct (j <? a)%nat; reflexivity.
  - inversion HFY as [|? ? Hy HFY']; subst.
    specialize (IH Y ltac:(lia) HFY').
    unfold get_col, concatenate1 in *. simpl.
    destruct (j <? length rx)%nat eqn:Ej.
    + apply Nat.ltb_lt in Ej. rewrite app_nth1 by exact Ej. f_equal. exact IH.
    + apply Nat.ltb_ge in Ej. rewrite app_nth2 by exact Ej. f_equal. exact IH.
Qed.

(** A loop that ran to its end keeps what its successful iterations
    establish. *)
Lemma for_range_completed {S} (I : nat -> S -> Prop) (n : nat)
    (body : nat -> step S) (s0 s' : S) :
  I 0%nat s0 ->
  (forall i s s1, (i < n)%nat -> I i s -> body i s = (s1, None) ->
     I (Datatypes.S i) s1) ->
  for_range n body s0 = (s', None) -> I n s'.
Proof.
  intros H0 Hstep. revert s'. induction n as [|n IH]; intros s' E.
  - unfold for_range in E. simpl in E. injection E as <-. exact H0.
  - rewrite for_range_S in E.
    destruct (for_range n body s0) as [s1 [e|]] eqn:E1; [discriminate|].
    apply (Hstep n s1 s' (Nat.lt_succ_diag_r n)); [|exact E].
    apply IH; [|reflexivity]. intros i s s2 Hi. apply Hstep. lia.
Qed.

Lemma retroicor_covs_lengths (n c : nat) (P : list (list (list R))) (sl reg : nat) :
  shape3 c n 2 P -> (sl < c)%nat -> (reg < 8)%nat ->
  length (nth reg (retroicor_covs P sl) []) = n.
Proof.
  intros [HL HF] Hsl Hreg.
  assert (Hn : length (nth sl P []) = n).
  { rewrite Forall_forall in HF. apply (HF (nth sl P [])). apply nth_In. lia. }
  unfold retroicor_covs.
  do 8 (destruct reg as [|reg]; [simpl; now rewrite !length_map|]). lia.
Qed.

(** [REGRESSORS_RET[:, reg, sl]] is the Fourier term [reg] of slice [sl]. *)
Lemma retroicor_stage_columns (self : NIMSPhysio) (P : list (list (list R))) :
  shape3 (length (slice_order self)) (nframes self) 2 P ->
  forall sl reg, (sl < length (slice_order self))%nat -> (reg < 8)%nat ->
    get_col (retroicor_stage self P) reg sl = nth reg (retroicor_covs P sl) [].
Proof.
  intros HP. unfold retroicor_stage.
  destruct (for_range_total
    (fun k T => shape3 (nframes self) 8 (length (slice_order self)) T /\
       forall sl reg, (sl < k)%nat -> (sl < length (slice_order self))%nat ->
         (reg < 8)%nat ->
         get_col T reg sl = nth reg (retroicor_covs P sl) [])
    (length (slice_order self)) (retroicor_slice (nframes self) P)
    (zeros3 0 (nframes self) 8 (length (slice_order self))))
    as [T [E [_ HT]]].
  - split; [apply zeros3_shape3|]. intros; lia.
  - intros k T Hk [Hsh Hcols]. eexists. split; [reflexivity|].
    assert (Htr : shape2 (nframes self) 8 (transpose (nframes self) (retroicor_covs P k)))
      by apply (transpose_shape (nframes self) (retroicor_covs P k)).
    split; [now apply set_plane_shape|].
    intros sl reg Hsl Hslc Hreg.
    destruct (Nat.eq_dec sl k) as [->|Hne].
    + rewrite (get_col_set_plane_same (nframes self) 8 (length (slice_order self)))
        by assumption.
      apply column_transpose.
      now apply (retroicor_covs_lengths (nframes self) (length (slice_order self))).
    + rewrite (get_col_set_plane_other (nframes self) 8 (length (slice_order self)))
        by (auto; lia).
      apply Hcols; [lia|exact Hslc|exact Hreg].
  - rewrite E. simpl. intros sl reg Hsl Hreg. now apply HT.
Qed.

(** The parts of a completed call. *)
Lemma call_structure (firwin : nat -> R -> list R)
    (filtfilt : list R -> list R -> list R -> list R) (self : NIMSPhysio) :
  (3 <= nframes self)%nat ->
  raised (compute_regressors firwin filtfilt self) = None ->
  exists mn P RVHR HR,
    Np.amin (resp_wave self) = inr mn /\
    phases_stage firwin filtfilt (shift_resp mn self) = (P, None) /\
    rvhr_stage (shift_resp mn self) = ((RVHR, HR), None) /\
    phases (final (compute_regressors firwin filtfilt self)) = Some P /\
    heart_rate (final (compute_regressors firwin filtfilt self)) = Some HR /\
    regressors (final (compute_regressors firwin filtfilt self)) =
      Some (detrend_stage (length (slice_order self))
              (concatenate1 (retroicor_stage self P) RVHR)).
Proof.
  intros Hn Hnone.
  assert (E3 : (nframes self <? 3)%nat = false) by (apply Nat.ltb_ge; lia).
  unfold compute_regressors in *. rewrite E3 in *.
  destruct (Np.amin (resp_wave self)) as [e|mn]; [discriminate|].
  destruct (phases_stage firwin filtfilt (shift_resp mn self)) as [P [e|]] eqn:EP;
    [discriminate|].
  change (rvhr_stage (set_phases (Some P) (shift_resp mn self)))
    with (rvhr_stage (shift_resp mn self)) in *.
  destruct (rvhr_stage (shift_resp mn self)) as [[RVHR HRt] [e|]] eqn:ES;
    [discriminate|].
  exists mn, P, RVHR, HRt. rewrite EP, ES. repeat split; reflexivity.
Qed.

(** ** The heart-rate regressors *)

Local Open Scope R_scope.

(** What a returned pair of response regressors looks like. *)
Lemma response_regressors_inv (f : R -> R) (x : list R) (t : list Q)
    (a b : list R) :
  response_regressors f x t = inr (a, b) ->
  length a = length x /\ length b = length x.
Proof.
  unfold response_regressors. intros H.
  destruct (normalize_max (map (fun q => f (Q2R q)) t)) as [e|X] eqn:EX;
    [discriminate|].
  simpl bind in H.
  assert (HX1 : (1 <= length X)%nat).
  { unfold normalize_max in EX.
    destruct (map (fun q => f (Q2R q)) t) as [|r l]; [discriminate|].
    simpl in EX. injection EX as <-. simpl. lia. }
  remember (map (fun v => v - Np.Rmean x) x) as x' eqn:Ex'.
  assert (Hx' : length x' = length x) by (subst x'; apply length_map).
  assert (Hc : length (Np.convolve_head x' X (length x')) = length x').
  { apply convolve_head_length; [exact HX1|lia]. }
  destruct (Np.diff (Np.convolve_head x' X (length x'))) as [|d0 d] eqn:Ed;
    [discriminate|].
  simpl in H. injection H as <- <-.
  apply (f_equal (@length R)) in Ed. rewrite diff_length, Hc in Ed.
  simpl in *. split; lia.
Qed.

(** [REGRESSORS_RVHR[:, 2, sl]] and [REGRESSORS_RVHR[:, 3, sl]] are the
    response regressors of [self.heart_rate[:, sl]]. *)
Lemma rvhr_stage_hr_columns (self : NIMSPhysio) (T : list (list (list R)))
    (HR : list (list Q)) :
  rvhr_stage self = ((T, HR), None) ->
  forall sl, (sl < length (slice_order self))%nat ->
    exists hr_crf hr_crf_d,
      response_regressors CRF (map Q2R (column 0%Q HR sl)) (response_grid self) =
        inr (hr_crf, hr_crf_d) /\
      get_col T 2 sl = hr_crf /\ get_col T 3 sl = hr_crf_d.
Proof.
  intros E.
  pose proof (for_range_completed
    (fun k (st : list (list (list R)) * list (list Q)) =>
       shape3 (nframes self) 4 (length (slice_order self)) (fst st) /\
       shape2 (nframes self) (length (slice_order self)) (snd st) /\
       forall sl, (sl < k)%nat -> (sl < length (slice_order self))%nat ->
         exists hr_crf hr_crf_d,
           response_regressors CRF (map Q2R (column 0%Q (snd st) sl))
             (response_grid self) = inr (hr_crf, hr_crf_d) /\
           get_col (fst st) 2 sl = hr_crf /\ get_col (fst st) 3 sl = hr_crf_d)
    (length (slice_order self))
    (rvhr_slice self (response_grid self) (length (slice_order self)))
    (zeros3 0 (nframes self) 4 (length (slice_order self)),
     zeros2 0%Q (nframes self) (length (slice_order self)))
    (T, HR)) as H.
  destruct H as [_ [_ H]]; [| |exact E|intros sl Hsl; now apply H].
  - split; [apply zeros3_shape3|]. split; [apply zeros2_shape|]. intros; lia.
  - intros k [T1 HR1] [T2 HR2] Hk [HT [HH Hcols]] Eb. simpl in HT, HH, Hcols.
    unfold rvhr_slice in Eb.
    destruct (cur_slice_acq (slice_order self) k) as [e|cur]; [discriminate|].
    destruct (for_range (nframes self) (rv_frame self _) _) as [rv [e|]];
      [discriminate|].
    destruct (response_regressors RRF rv (response_grid self)) as [e|[a b]] eqn:Eab;
      [discriminate|].
    pose proof (hr_loop_length self
                  (slice_times self (length (slice_order self)) cur)
                  (nframes self)) as Hl.
    destruct (for_range (nframes self) (hr_frame self _) _) as [hr [e|]];
      [discriminate|].
    simpl in Hl.
    destruct (response_regressors CRF (map Q2R hr) (response_grid self))
      as [e|[c d]] eqn:Ecd; [discriminate|].
    injection Eb as <- <-. simpl fst. simpl snd.
    destruct (response_regressors_inv _ _ _ _ _ Eab) as [Ha Hb].
    destruct (response_regressors_inv _ _ _ _ _ Ecd) as [Hc Hd].
    rewrite length_map in Hc, Hd.
    assert (Htr : shape2 (nframes self) 4
                    (transpose (nframes self) [a; b; c; d]))
      by apply (transpose_shape (nframes self) [a; b; c; d]).
    destruct HH as [HHL HHF].
    split; [now apply set_plane_shape|].
    split; [apply set_col2_shape; [exact Hl|split; assumption]|].
    intros sl Hsl Hslc.
    destruct (Nat.eq_dec sl k) as [->|Hne].
    + exists c, d.
      rewrite set_col2_column_same;
        [|lia|apply (shape2_in_range (nframes self) (length (slice_order self)));
              [split; assumption|exact Hk]].
      split; [exact Ecd|].
      rewrite !(get_col_set_plane_same (nframes self) 4 (length (slice_order self)))
        by (auto; lia).
      split; apply column_transpose; simpl; lia.
    + destruct (Hcols sl ltac:(lia) Hslc) as [c' [d' [E' [H2 H3]]]].
      exists c', d'.
      rewrite set_col2_column_other by lia.
      split; [exact E'|].
      rewrite !(get_col_set_plane_other (nframes self) 4 (length (slice_order self)))
        by (auto; lia).
      split; assumption.
Qed.

(** The columns 10 and 11 of the regressors of a completed call. *)
Lemma call_hr_columns (firwin : nat -> R -> list R)
    (filtfilt : list R -> list R -> list R -> list R) (self : NIMSPhysio) :
  (3 <= nframes self)%nat ->
  raised (compute_regressors firwin filtfilt self) = None ->
  exists HR T,
    heart_rate (final (compute_regressors firwin filtfilt self)) = Some HR /\
    regressors (final (compute_regressors firwin filtfilt self)) = Some T /\
    shape2 (nframes self) (length (slice_order self)) HR /\
    forall sl, (sl < length (slice_order self))%nat ->
      exists hr_crf hr_crf_d,
        response_regressors CRF (map Q2R (column 0%Q HR sl)) (response_grid self) =
          inr (hr_crf, hr_crf_d) /\
        get_col T 10 sl = detrend_col (frame_index (nframes self)) hr_crf /\
        get_col T 11 sl = detrend_col (frame_index (nframes self)) hr_crf_d.
Proof.
  intros Hn Hnone.
  destruct (call_structure firwin filtfilt self Hn Hnone)
    as [mn [P [RVHR [HR [_ [EP [ES [_ [EH ET]]]]]]]]].
  exists HR. eexists. split; [exact EH|]. split; [exact ET|].
  pose proof (rvhr_stage_shape (shift_resp mn self)) as HS.
  pose proof (rvhr_stage_heart_rate_shape (shift_resp mn self)) as HH.
  rewrite ES in HS, HH. simpl in HS, HH. split; [exact HH|].
  intros sl Hsl.
  destruct (rvhr_stage_hr_columns (shift_resp mn self) RVHR HR ES sl Hsl)
    as [c [d [Ecd [H2 H3]]]].
  exists c, d. split; [exact Ecd|].
  pose proof (retroicor_stage_shape self P) as HR8.
  pose proof (concatenate1_shape _ 8 4 _ _ _ HR8 HS) as HC. simpl in HC.
  destruct (detrend_stage_spec (nframes self) 12 (length (slice_order self)) _
              ltac:(lia) HC) as [_ Hcol].
  rewrite (Hcol 10%nat sl ltac:(lia) Hsl), (Hcol 11%nat sl ltac:(lia) Hsl).
  rewrite !(get_col_concatenate1 _ 8 4 _ _ _ _ _ HR8 HS). simpl.
  split; f_equal; assumption.
Qed.

(** ** A steady heart rate *)

Local Open Scope R_scope.

Lemma repeat_from_nth {A} (z d : A) (n : nat) (l : list A) :
  length l = n -> (forall i, (i < n)%nat -> nth i l d = z) -> l = repeat z n.
Proof.
  revert n. induction l as [|a l IH]; intros [|n] HL H; simpl in HL;
    try discriminate; [reflexivity|].
  simpl. f_equal.
  - apply (H 0%nat). lia.
  - apply IH; [lia|]. intros i Hi. apply (H (S i)). lia.
Qed.

Lemma nth_repeat_default {A} (z : A) (n i : nat) : nth i (repeat z n) z = z.
Proof. revert i. induction n as [|n IH]; intros [|i]; simpl; auto. Qed.

Lemma nth_map_lt {A B} (f : A -> B) (l : list A) (i : nat) (d : B) (d' : A) :
  (i < length l)%nat -> nth i (map f l) d = f (nth i l d').
Proof.
  intros H. rewrite (nth_indep _ d (f d')) by (rewrite length_map; exact H).
  apply map_nth.
Qed.

Lemma Rsum_repeat (h : R) (n : nat) : Np.Rsum (repeat h n) = INR n * h.
Proof.
  induction n as [|n IH]; [simpl; ring|].
  rewrite S_INR. simpl repeat. simpl Np.Rsum. rewrite IH. ring.
Qed.

Lemma Rsum_zeros (l : list R) : (forall x, In x l -> x = 0) -> Np.Rsum l = 0.
Proof.
  induction l as [|a l IH]; intros H; [reflexivity|].
  simpl. rewrite (H a) by now left. rewrite IH; [ring|].
  intros x Hx. apply H. now right.
Qed.

Lemma convolve_head_zeros (n m : nat) (v : list R) :
  Np.convolve_head (repeat 0 n) v m =
    repeat 0 (Nat.min m (length (repeat (0 : R) n) + length v - 1)).
Proof.
  unfold Np.convolve_head.
  apply repeat_from_nth with (d := 0).
  - now rewrite length_map, length_seq.
  - intros i Hi.
    rewrite (nth_map_lt _ _ _ _ 0%nat) by (rewrite length_seq; exact Hi).
    unfold Np.convolve_at. apply Rsum_zeros.
    intros x Hx. apply in_map_iff in Hx as [j [<- _]].
    rewrite nth_repeat_default. ring.
Qed.

Lemma diff_zeros (n : nat) : Np.diff (repeat 0 n) = repeat 0 (n - 1).
Proof.
  induction n as [|n IH]; [reflexivity|].
  destruct n as [|n]; [reflexivity|].
  change (repeat 0 (S (S n))) with (0 :: repeat 0 (S n)).
  change (Np.diff (0 :: repeat 0 (S n)))
    with ((0 - 0) :: Np.diff (repeat 0 (S n))).
  rewrite IH. simpl. rewrite Nat.sub_0_r. f_equal. ring.
Qed.

(** A constant series gives the zero regressor and the zero derivative,
    whatever the response function. *)
Lemma response_regressors_constant (f : R -> R) (h : R) (n : nat) (t : list Q)
    (a b : list R) :
  response_regressors f (repeat h n) t = inr (a, b) ->
  a = repeat 0 n /\ b = repeat 0 n.
Proof.
  intros E. destruct (response_regressors_inv _ _ _ _ _ E) as [Ha Hb].
  rewrite repeat_length in Ha, Hb.
  unfold response_regressors in E.
  destruct (normalize_max (map (fun q => f (Q2R q)) t)) as [e|X] eqn:EX;
    [discriminate|].
  simpl bind in E.
  assert (HX1 : (1 <= length X)%nat).
  { unfold normalize_max in EX.
    destruct (map (fun q => f (Q2R q)) t) as [|r l]; [discriminate|].
    simpl in EX. injection EX as <-. simpl. lia. }
  assert (Hn : (1 <= n)%nat).
  { destruct (Np.diff _) as [|d0 d]; [discriminate|].
    simpl in E. injection E as _ <-. simpl in Hb. lia. }
  assert (Hx' : map (fun v => v - Np.Rmean (repeat h n)) (repeat h n) = repeat 0 n).
  { rewrite map_repeat. f_equal. unfold Np.Rmean.
    rewrite Rsum_repeat, repeat_length.
    assert (INR n <> 0) by (apply not_0_INR; lia). field. assumption. }
  rewrite Hx' in E. rewrite convolve_head_zeros, !repeat_length in E.
  rewrite Nat.min_l in E by lia.
  rewrite diff_zeros in E.
  destruct n as [|[|n]]; [lia|discriminate|].
  simpl in E. injection E as <- <-. split; reflexivity.
Qed.

Lemma moment_y_zeros (k : nat) (x : list R) (n : nat) :
  moment_y k x (repeat 0 n) = 0.
Proof.
  unfold moment_y. apply Rsum_zeros.
  intros v Hv. apply in_map_iff in Hv as [[xi yi] [<- Hin]].
  apply in_combine_r in Hin. apply repeat_spec in Hin. simpl. subst. ring.
Qed.

(** Detrending leaves a zero column zero. *)
Lemma detrend_col_zeros (x : list R) (n : nat) :
  length x = n -> detrend_col x (repeat 0 n) = repeat 0 n.
Proof.
  intros HL. unfold detrend_col, polyfit2. rewrite !moment_y_zeros.
  apply repeat_from_nth with (d := 0).
  - rewrite length_map, length_combine, repeat_length. lia.
  - intros i Hi.
    rewrite (nth_map_lt _ _ _ _ (0, 0))
      by (rewrite length_combine, repeat_length; lia).
    rewrite combine_nth by (rewrite repeat_length; exact HL).
    rewrite nth_repeat_default. unfold polyval2, det3. simpl. unfold Rdiv. ring.
Qed.

(** X20: when a call with at least three frames completes and the heart
    rate it has stored for a slice is the same at every frame, the
    regressors 10 and 11 of that slice ([hr_crf] and [hr_crf_d]) are zero at
    every frame. *)
Theorem steady_heart_rate_gives_zero_regressors (firwin : nat -> R -> list R)
    (filtfilt : list R -> list R -> list R -> list R) (self : NIMSPhysio) :
  (3 <= nframes self)%nat ->
  raised (compute_regressors firwin filtfilt self) = None ->
  exists HR T,
    heart_rate (final (compute_regressors firwin filtfilt self)) = Some HR /\
    regressors (final (compute_regressors firwin filtfilt self)) = Some T /\
    forall sl (h : Q), (sl < length (slice_order self))%nat ->
      (forall tp, (tp < nframes self)%nat -> (nth sl (nth tp HR []) 0 == h)%Q) ->
      get_col T 10 sl = repeat 0 (nframes self) /\
      get_col T 11 sl = repeat 0 (nframes self).
Proof.
  intros Hn Hnone.
  destruct (call_hr_columns firwin filtfilt self Hn Hnone)
    as [HR [T [EH [ET [[HL HF] H]]]]].
  exists HR, T. split; [exact EH|]. split; [exact ET|].
  intros sl h Hsl Hconst.
  destruct (H sl Hsl) as [c [d [Ecd [H10 H11]]]].
  assert (Hx : map Q2R (column 0%Q HR sl) = repeat (Q2R h) (nframes self)).
  { apply repeat_from_nth with (d := Q2R 0).
    - unfold column. now rewrite !length_map.
    - intros tp Htp.
      rewrite (nth_map_lt _ _ _ _ 0%Q) by (unfold column; rewrite length_map; lia).
      apply Qeq_eqR.
      rewrite column_nth by lia. now apply Hconst. }
  rewrite Hx in Ecd.
  destruct (response_regressors_constant _ _ _ _ _ _ Ecd) as [-> ->].
  rewrite H10, H11.
  rewrite detrend_col_zeros by apply frame_index_length. split; reflexivity.
Qed.

Lemma steady_heart_rate_gives_zero_regressors_witness :
  exists HR T,
    heart_rate (final (compute_regressors firwin_none filtfilt_none scenario_A))
      = Some HR /\
    regressors (final (compute_regressors firwin_none filtfilt_none scenario_A))
      = Some T /\
    ((forall tp, (tp < 10)%nat -> (nth 0 (nth tp HR []) 0 == 60)%Q) ->
     get_col T 10 0 = repeat 0 10).
Proof.
  destruct (steady_heart_rate_gives_zero_regressors firwin_none filtfilt_none
              scenario_A scenario_A_frames scenario_A_completes)
    as [HR [T [EH [ET H]]]].
  exists HR, T. split; [exact EH|]. split; [exact ET|].
  intros Hc. apply (H 0%nat 60%Q); [simpl; lia|exact Hc].
Defined.

(** ** The cardiac phase inside a beat *)

Local Open Scope Q_scope.





(** * The conditions written out, and the embedding *)

Local Open Scope Q_scope.

Lemma t_win_is_3 : t_win == 3.
Proof. reflexivity. Qed.

Lemma rv_i1_lower_bound (self : NIMSPhysio) (t : Q) :
  rv_i1 self t = lower_bound self t.
Proof.
  unfold rv_i1, lower_bound. f_equal. apply Qfloor_comp. now rewrite t_win_is_3.
Qed.

Lemma rv_i2_upper_bound (self : NIMSPhysio) (t : Q) :
  rv_i2 self t = upper_bound self t.
Proof.
  unfold rv_i2, upper_bound. f_equal. apply Qfloor_comp. now rewrite t_win_is_3.
Qed.

Lemma Qle_bool_comp (a b c d : Q) : a == b -> c == d -> Qle_bool a c = Qle_bool b d.
Proof.
  intros H1 H2. destruct (Qle_bool a c) eqn:E1; destruct (Qle_bool b d) eqn:E2;
    try reflexivity.
  - apply Qle_bool_iff in E1. rewrite H1, H2 in E1. apply Qle_bool_iff in E1.
    congruence.
  - apply Qle_bool_iff in E2. rewrite <- H1, <- H2 in E2. apply Qle_bool_iff in E2.
    congruence.
Qed.

Lemma within_3s_t_win (t c : Q) :
  Qle_bool (t - t_win) c && Qle_bool c (t + t_win) = within_3s t c.
Proof.
  unfold within_3s. f_equal; apply Qle_bool_comp;
    try reflexivity; now rewrite t_win_is_3.
Qed.

Lemma within_3s_spec (t c : Q) :
  within_3s t c = true <-> t - 3 <= c /\ c <= t + 3.
Proof.
  unfold within_3s. rewrite andb_true_iff, !Qle_bool_iff. reflexivity.
Qed.

(** The entries that an index array selects are the filtered list. *)
Lemma nonzero_from_filter {A} (f : A -> bool) (l : list A) (d : A) (k : nat) :
  map (fun i => nth (i - k) l d) (Np.nonzero_from k (map f l)) = filter f l.
Proof.
  revert k. induction l as [|a l IH]; intros k; [reflexivity|].
  simpl. destruct (f a) eqn:E.
  - simpl. rewrite Nat.sub_diag. f_equal.
    rewrite <- (IH (S k)). apply map_ext_in. intros i Hi.
    apply nonzero_from_spec in Hi as [Hi _].
    replace (i - k)%nat with (S (i - S k)) by lia. reflexivity.
  - rewrite <- (IH (S k)). apply map_ext_in. intros i Hi.
    apply nonzero_from_spec in Hi as [Hi _].
    replace (i - k)%nat with (S (i - S k)) by lia. reflexivity.
Qed.

Lemma inds_triggers_near (self : NIMSPhysio) (t : Q) :
  map (fun i => nth i (card_trig self) 0) (inds self t) = triggers_near self t.
Proof.
  unfold inds, triggers_near, Np.nonzero.
  rewrite (map_ext _ (within_3s t)) by (intros c; apply within_3s_t_win).
  rewrite <- (nonzero_from_filter (within_3s t) (card_trig self) 0 0).
  apply map_ext. intros i. now rewrite Nat.sub_0_r.
Qed.

Lemma inds_empty_iff (self : NIMSPhysio) (t : Q) :
  inds self t = [] <-> triggers_near self t = [].
Proof.
  rewrite <- inds_triggers_near. split.
  - intros ->. reflexivity.
  - intros H. destruct (inds self t); [reflexivity|discriminate].
Qed.

(** In a permutation every slice number has one position. *)
Lemma position_lookup (order : list nat) (sl cur : nat) :
  Permutation order (seq 0 (length order)) ->
  nth_error order cur = Some sl ->
  cur_slice_acq order sl = inr cur.
Proof.
  intros HP Hn.
  assert (Hin : In sl order) by (eapply nth_error_In; eauto).
  destruct (cur_slice_acq_found order sl Hin) as [cur' [Ec [Hn' _]]].
  assert (HND : NoDup order).
  { apply (Permutation_NoDup (Permutation_sym HP)). apply seq_NoDup. }
  assert (cur' = cur).
  { apply (proj1 (NoDup_nth_error order) HND).
    - apply nth_error_Some. congruence.
    - congruence. }
  now subst.
Qed.

Section Written.

Variable self : NIMSPhysio.
Hypothesis tr_pos : 0 < tr self.
Hypothesis duration : scan_duration self == QofNat (nframes self) * tr self.
Hypothesis order : Permutation (slice_order self) (seq 0 (length (slice_order self))).

Lemma slice_time_is_frame_time (cur tp : nat) :
  (cur < length (slice_order self))%nat -> (tp < nframes self)%nat ->
  Np.getnat (slice_times self (length (slice_order self)) cur) tp =
    inr (frame_time self cur tp).
Proof. intros Hc Htp. now apply slice_times_nth. Qed.

Lemma rv_window_short_iff (sl : nat) :
  rv_window_short self sl <-> rv_bounds_cross self sl.
Proof.
  split.
  - intros [cur [tp [t [Ec [Htp [Et Hlt]]]]]].
    assert (Hin : In sl (slice_order self)).
    { destruct (in_dec Nat.eq_dec sl (slice_order self)) as [H|H]; [exact H|].
      rewrite (cur_slice_acq_missing _ sl H) in Ec. discriminate. }
    destruct (cur_slice_acq_found _ sl Hin) as [cur' [Ec' [Hn _]]].
    assert (cur' = cur) by congruence. subst cur'.
    assert (Hc : (cur < length (slice_order self))%nat)
      by (apply nth_error_Some; congruence).
    rewrite (slice_time_is_frame_time cur tp Hc Htp) in Et. injection Et as <-.
    exists cur, tp. rewrite <- rv_i1_lower_bound, <- rv_i2_upper_bound. auto.
  - intros [cur [tp [Hn [Htp Hlt]]]].
    assert (Hc : (cur < length (slice_order self))%nat)
      by (apply nth_error_Some; congruence).
    exists cur, tp, (frame_time self cur tp).
    split; [now apply position_lookup|]. split; [exact Htp|].
    split; [now apply slice_time_is_frame_time|].
    now rewrite rv_i1_lower_bound, rv_i2_upper_bound.
Qed.

Lemma no_trigger_at_start_iff (sl : nat) :
  (0 < nframes self)%nat ->
  no_trigger_at_start self sl <-> first_window_silent self sl.
Proof.
  intros Hn. split.
  - intros [cur [t [Ec [Et Hi]]]].
    assert (Hin : In sl (slice_order self)).
    { destruct (in_dec Nat.eq_dec sl (slice_order self)) as [H|H]; [exact H|].
      rewrite (cur_slice_acq_missing _ sl H) in Ec. discriminate. }
    destruct (cur_slice_acq_found _ sl Hin) as [cur' [Ec' [Hn' _]]].
    assert (cur' = cur) by congruence. subst cur'.
    assert (Hc : (cur < length (slice_order self))%nat)
      by (apply nth_error_Some; congruence).
    rewrite (slice_time_is_frame_time cur 0 Hc Hn) in Et. injection Et as <-.
    exists cur. split; [exact Hn'|]. now apply inds_empty_iff.
  - intros [cur [Hn' Hw]].
    assert (Hc : (cur < length (slice_order self))%nat)
      by (apply nth_error_Some; congruence).
    exists cur, (frame_time self cur 0).
    split; [now apply position_lookup|].
    split; [now apply slice_time_is_frame_time|]. now apply inds_empty_iff.
Qed.

End Written.

(** ** Scenario B *)

Lemma scan_B_inputs (trig : list Q) (n : nat) :
  (2 <= n)%nat -> ScanInputs filtfilt_none (scan_B trig n).
Proof.
  intros Hn. unfold ScanInputs. split; [reflexivity|]. split; [reflexivity|].
  split; [reflexivity|]. split; [apply Permutation_refl|].
  unfold scan_B, init; cbn [resp_wave]. rewrite length_map, length_seq. exact Hn.
Qed.

Lemma scan_B_filter_runs (trig : list Q) (n : nat) :
  (60 < n)%nat -> filter_runs (scan_B trig n).
Proof.
  intros Hn. unfold filter_runs. split; [|split; reflexivity].
  unfold scan_B, init; cbn [resp_wave]. rewrite length_map, length_seq. exact Hn.
Qed.

Lemma scan_B_size (trig : list Q) (n : nat) :
  length (resp_wave (scan_B trig n)) = n.
Proof. unfold scan_B, init; cbn [resp_wave]. now rewrite length_map, length_seq. Qed.

Lemma scan_B_division_exact (trig : list Q) (n : nat) :
  division_exact (scan_B trig n).
Proof.
  intros z Hz. exfalso. unfold Qeq in Hz. simpl in Hz. lia.
Qed.

Lemma scan_B_margin_beats (n : nat) : rounding_margin (scan_B beats_B n).
Proof.
  split; [apply scan_B_division_exact|].
  split; [vm_compute; discriminate|]. split.
  - intros c Hc. simpl in Hc.
    repeat (destruct Hc as [<-|Hc]; [split; vm_compute; discriminate|]).
    destruct Hc.
  - intros cur tp Hc Htp. simpl in Hc, Htp.
    destruct cur as [|cur]; [|lia].
    do 4 (destruct tp as [|tp];
      [split; [split; vm_compute; discriminate|];
       split; [split; vm_compute; discriminate|];
       intros c Hin; simpl in Hin;
       repeat (destruct Hin as [<-|Hin];
         [split; first [left; vm_compute; discriminate
                       |right; vm_compute; discriminate]|]);
       destruct Hin|]).
    lia.
Qed.

Lemma scan_B_margin_quiet (n : nat) : rounding_margin (scan_B [] n).
Proof.
  split; [apply scan_B_division_exact|].
  split; [vm_compute; discriminate|]. split.
  - intros c [].
  - intros cur tp Hc Htp. simpl in Hc, Htp.
    destruct cur as [|cur]; [|lia].
    do 4 (destruct tp as [|tp];
      [split; [split; vm_compute; discriminate|];
       split; [split; vm_compute; discriminate|];
       intros c []|]).
    lia.
Qed.

(** The bounds of the four RV windows of scenario B, for [n] samples. *)
Lemma scan_B_bounds (trig : list Q) (n tp : nat) :
  (tp < 4)%nat ->
  lower_bound (scan_B trig n) (frame_time (scan_B trig n) 0 tp) =
    nth tp [0; 18; 81; 143]%Z 0%Z /\
  upper_bound (scan_B trig n) (frame_time (scan_B trig n) 0 tp) =
    Z.min (Z.of_nat n) (nth tp [106; 168; 231; 293]%Z 0%Z).
Proof.
  intros Htp. unfold lower_bound, upper_bound. rewrite scan_B_size.
  do 4 (destruct tp as [|tp]; [split; reflexivity|]). lia.
Qed.

Lemma scan_B_cross_iff (trig : list Q) (n : nat) :
  rv_bounds_cross (scan_B trig n) 0 <-> (n < 143)%nat.
Proof.
  split.
  - intros [cur [tp [Hn [Htp Hlt]]]]. simpl in Htp.
    destruct cur as [|cur]; [|destruct cur; discriminate].
    destruct (scan_B_bounds trig n tp Htp) as [E1 E2]. rewrite E1, E2 in Hlt.
    do 4 (destruct tp as [|tp]; [simpl in Hlt; lia|]). lia.
  - intros Hn. exists 0%nat, 3%nat. split; [reflexivity|]. split; [simpl; lia|].
    destruct (scan_B_bounds trig n 3 ltac:(lia)) as [E1 E2]. rewrite E1, E2.
    simpl. lia.
Qed.

Lemma scan_B_beats_heard (n : nat) : ~ first_window_silent (scan_B beats_B n) 0.
Proof.
  intros [cur [Hn Hw]].
  destruct cur as [|cur]; [|destruct cur; discriminate].
  vm_compute in Hw. discriminate.
Qed.

Lemma scan_B_quiet_silent (n : nat) : first_window_silent (scan_B [] n) 0.
Proof. exists 0%nat. split; reflexivity. Qed.

(** ** The fatal data-length error *)

(** The outcome of a call on inputs that reach the RVHR loop, with the two
    raise conditions written out. *)
Lemma call_cases_written (firwin : nat -> R -> list R)
    (filtfilt : list R -> list R -> list R -> list R) (self : NIMSPhysio) :
  ScanInputs filtfilt self -> (3 <= nframes self)%nat -> tr self < 40 ->
  ((forall sl, (sl < length (slice_order self))%nat ->
      ~ rv_bounds_cross self sl /\ ~ first_window_silent self sl) /\
   raised (compute_regressors firwin filtfilt self) = None) \/
  ((exists sl, (sl < length (slice_order self))%nat /\
      (rv_bounds_cross self sl \/ first_window_silent self sl)) /\
   (raised (compute_regressors firwin filtfilt self) = Some resp_short \/
    raised (compute_regressors firwin filtfilt self) = Some card_mismatch)).
Proof.
  intros Hin Hn H40. pose proof Hin as [_ [Ht [Hd [Hp _]]]].
  destruct (call_cases firwin filtfilt self Hin Hn H40)
    as [[Hgood [E _]]|[[sl [Hsl Hbad]] [e [E He]]]].
  - left. split; [|exact E]. intros sl Hsl. destruct (Hgood sl Hsl) as [Ha Hb].
    split.
    + intros H. apply Ha. now apply rv_window_short_iff.
    + intros H. apply Hb. apply no_trigger_at_start_iff; auto; lia.
  - right. split.
    + exists sl. split; [exact Hsl|]. destruct Hbad as [H|H].
      * left. now apply rv_window_short_iff in H.
      * right. apply no_trigger_at_start_iff in H; auto; lia.
    + destruct He as [-> | ->]; [left|right]; exact E.
Qed.


(** An error of a call names the condition that some slice meets. *)
Lemma call_error_kind_written (firwin : nat -> R -> list R)
    (filtfilt : list R -> list R -> list R -> list R) (self : NIMSPhysio) (e : exn) :
  ScanInputs filtfilt self -> (3 <= nframes self)%nat -> tr self < 40 ->
  raised (compute_regressors firwin filtfilt self) = Some e ->
  (e = resp_short /\
   exists sl, (sl < length (slice_order self))%nat /\ rv_bounds_cross self sl) \/
  (e = card_mismatch /\
   exists sl, (sl < length (slice_order self))%nat /\ first_window_silent self sl).
Proof.
  intros Hin Hn H40. pose proof Hin as [_ [Ht [Hd [Hp _]]]].
  destruct (call_stores_phases firwin filtfilt self Hin Hn) as [mn [P [Emn [EP _]]]].
  pose proof (ScanInputs_shift _ _ mn Hin) as [_ [Ht' [Hd' [Hp' _]]]].
  assert (E3 : (nframes self <? 3)%nat = false) by (apply Nat.ltb_ge; lia).
  unfold compute_regressors. rewrite E3, Emn, EP.
  change (rvhr_stage (set_phases (Some P) (shift_resp mn self)))
    with (rvhr_stage (shift_resp mn self)).
  destruct (rvhr_stage (shift_resp mn self)) as [[T HR] [e'|]] eqn:Es;
    [|simpl; discriminate].
  simpl. intros He. injection He as <-.
  destruct (rvhr_stage_error_kind (shift_resp mn self) Ht' H40 Hd' Hp' Hn _ _ Es)
    as [[-> [sl [Hsl Hb]]]|[-> [sl [Hsl Hb]]]]; [left|right];
    (split; [reflexivity|]); exists sl; (split; [exact Hsl|]).
  - apply rv_window_short_shift in Hb. now apply rv_window_short_iff in Hb.
  - apply no_trigger_at_start_shift in Hb.
    apply no_trigger_at_start_iff in Hb; auto; lia.
Qed.

(** C3: on inputs that reach the RVHR loop (filter design runs, at least
    three frames, [0 < tr < 40], [scan_duration = nframes*tr], a
    permutation slice order) and away from rounding, the method raises
    the typed error, with one of its two messages, exactly when for some
    slice (a) some frame has [i2 < i1], the bounds being
    [i1 = max(0, floor((t-3)/resp_dt))] and
    [i2 = min(size, floor((t+3)/resp_dt))] at the frame's time [t], or
    (b) no trigger lies within 3 s of the time of frame 0; it completes
    exactly when no slice meets (a) or (b), so a frame with [i2 = i1]
    does not raise; the respiration message is raised only when some
    slice meets (a) and the cardiac message only when some slice meets (b);
    and when a frame with [i2 = i1] has its bounds at the length of
    the waveform, the same scan with a waveform one sample shorter raises
    the typed error. *)
Theorem data_length_error_iff (firwin : nat -> R -> list R)
    (filtfilt : list R -> list R -> list R -> list R) (self : NIMSPhysio) :
  ScanInputs filtfilt self -> filter_runs self -> rounding_margin self ->
  (3 <= nframes self)%nat -> tr self < 40 ->
  let nslc := length (slice_order self) in
  let typed (s : NIMSPhysio) :=
    raised (compute_regressors firwin filtfilt s) =
      Some (NIMSPhysioError "Respiration data is shorter than the scan duration.") \/
    raised (compute_regressors firwin filtfilt s) =
      Some (NIMSPhysioError "Cardiac trigger times do not match scan duration.") in
  (typed self <->
   exists sl, (sl < nslc)%nat /\
              (rv_bounds_cross self sl \/ first_window_silent self sl)) /\
  (raised (compute_regressors firwin filtfilt self) = None <->
   forall sl, (sl < nslc)%nat ->
              ~ rv_bounds_cross self sl /\ ~ first_window_silent self sl) /\
  (typed self \/ raised (compute_regressors firwin filtfilt self) = None) /\
  (raised (compute_regressors firwin filtfilt self) =
     Some (NIMSPhysioError "Respiration data is shorter than the scan duration.") ->
   exists sl, (sl < nslc)%nat /\ rv_bounds_cross self sl) /\
  (raised (compute_regressors firwin filtfilt self) =
     Some (NIMSPhysioError "Cardiac trigger times do not match scan duration.") ->
   exists sl, (sl < nslc)%nat /\ first_window_silent self sl) /\
  (forall self' cur tp,
     ScanInputs filtfilt self' -> filter_runs self' -> rounding_margin self' ->
     tr self' = tr self -> nframes self' = nframes self ->
     slice_order self' = slice_order self ->
     resp_dt self' = resp_dt self ->
     S (length (resp_wave self')) = length (resp_wave self) ->
     (cur < nslc)%nat -> (tp < nframes self)%nat ->
     upper_bound self (frame_time self cur tp) =
       lower_bound self (frame_time self cur tp) ->
     upper_bound self (frame_time self cur tp) =
       Z.of_nat (length (resp_wave self)) ->
     typed self').
Proof.
  intros Hin Hf Hm Hn H40 nslc typed.
  assert (Hcases : forall s, ScanInputs filtfilt s -> (3 <= nframes s)%nat ->
            tr s < 40 ->
            ((forall sl, (sl < length (slice_order s))%nat ->
                ~ rv_bounds_cross s sl /\ ~ first_window_silent s sl) /\
             raised (compute_regressors firwin filtfilt s) = None) \/
            ((exists sl, (sl < length (slice_order s))%nat /\
                (rv_bounds_cross s sl \/ first_window_silent s sl)) /\
             typed s)).
  { intros s Hs Hns H40s. apply (call_cases_written firwin filtfilt s Hs Hns H40s). }
  split; [|split; [|split; [|split; [|split]]]].
  - destruct (Hcases self Hin Hn H40) as [[Hgood E]|[Hbad Ht]].
    + split.
      * intros [H|H]; rewrite E in H; discriminate.
      * intros [sl [Hsl Hb]]. destruct (Hgood sl Hsl). tauto.
    + split; auto.
  - destruct (Hcases self Hin Hn H40) as [[Hgood E]|[[sl [Hsl Hb]] Ht]].
    + split; auto.
    + split.
      * intros E. destruct Ht as [H|H]; rewrite E in H; discriminate.
      * intros Hgood. destruct (Hgood sl Hsl). tauto.
  - destruct (Hcases self Hin Hn H40) as [[_ E]|[_ Ht]]; auto.
  - intros E.
    destruct (call_error_kind_written firwin filtfilt self _ Hin Hn H40 E)
      as [[_ H]|[H _]]; [exact H|discriminate].
  - intros E.
    destruct (call_error_kind_written firwin filtfilt self _ Hin Hn H40 E)
      as [[H _]|[_ H]]; [discriminate|exact H].
  - intros self' cur tp Hin' Hf' Hm' Etr Enf Eord Edt Esz Hc Htp Heq Hsz.
    destruct (Hcases self' Hin' ltac:(lia) ltac:(rewrite Etr; exact H40))
      as [[Hgood _]|[_ Ht]]; [|exact Ht].
    exfalso.
    pose proof Hin as [_ [_ [_ [Hp _]]]].
    destruct (nth_error (slice_order self) cur) as [sl|] eqn:Esl;
      [|apply nth_error_None in Esl; subst nslc; lia].
    assert (Hsl : (sl < length (slice_order self'))%nat).
    { rewrite Eord. apply nth_error_In in Esl.
      apply (Permutation_in _ Hp) in Esl. apply in_seq in Esl. lia. }
    destruct (Hgood sl Hsl) as [Hnc _]. apply Hnc.
    exists cur, tp. rewrite Eord, Enf. split; [exact Esl|]. split; [exact Htp|].
    assert (Eft : frame_time self' cur tp = frame_time self cur tp).
    { unfold frame_time. now rewrite Etr, Eord. }
    rewrite Eft.
    unfold upper_bound, lower_bound in *. rewrite Edt.
    rewrite <- Esz in Hsz, Heq. lia.
Qed.

Lemma data_length_error_iff_witness :
  raised (compute_regressors firwin_none filtfilt_none (scan_B beats_B 143)) = None /\
  raised (compute_regressors firwin_none filtfilt_none (scan_B beats_B 142)) =
    Some (NIMSPhysioError "Respiration data is shorter than the scan duration.") /\
  raised (compute_regressors firwin_none filtfilt_none (scan_B [] 143)) =
    Some (NIMSPhysioError "Cardiac trigger times do not match scan duration.").
Proof.
  assert (H40 : forall trig n, tr (scan_B trig n) < 40) by reflexivity.
  assert (H3 : forall trig n, (3 <= nframes (scan_B trig n))%nat)
    by (intros; simpl; lia).
  destruct (data_length_error_iff firwin_none filtfilt_none (scan_B beats_B 143)
              (scan_B_inputs _ 143 ltac:(lia))
              (scan_B_filter_runs _ 143 ltac:(lia))
              (scan_B_margin_beats 143) (H3 _ _) (H40 _ _))
    as [_ [[_ Hdone] [_ [_ [_ Hshorter]]]]].
  destruct (data_length_error_iff firwin_none filtfilt_none (scan_B beats_B 142)
              (scan_B_inputs _ 142 ltac:(lia))
              (scan_B_filter_runs _ 142 ltac:(lia))
              (scan_B_margin_beats 142) (H3 _ _) (H40 _ _))
    as [_ [_ [_ [_ [Hcard _]]]]].
  destruct (data_length_error_iff firwin_none filtfilt_none (scan_B [] 143)
              (scan_B_inputs _ 143 ltac:(lia))
              (scan_B_filter_runs _ 143 ltac:(lia))
              (scan_B_margin_quiet 143) (H3 _ _) (H40 _ _))
    as [[_ Hquiet] [_ [_ [Hresp _]]]].
  split; [|split].
  - apply Hdone. intros sl Hsl. simpl in Hsl. assert (sl = 0%nat) by lia. subst sl.
    split; [|apply scan_B_beats_heard].
    intros Hc. apply scan_B_cross_iff in Hc. lia.
  - destruct (Hshorter (scan_B beats_B 142) 0%nat 3%nat
                (scan_B_inputs _ 142 ltac:(lia))
                (scan_B_filter_runs _ 142 ltac:(lia))
                (scan_B_margin_beats 142)
                eq_refl eq_refl eq_refl eq_refl) as [E|E].
    + now rewrite !scan_B_size.
    + simpl; lia.
    + simpl; lia.
    + reflexivity.
    + reflexivity.
    + exact E.
    + exfalso. destruct (Hcard E) as [sl [Hsl Hs]].
      simpl in Hsl. assert (sl = 0%nat) by lia. subst sl.
      exact (scan_B_beats_heard 142 Hs).
  - destruct Hquiet as [E|E].
    + exists 0%nat. split; [simpl; lia|]. right. apply scan_B_quiet_silent.
    + exfalso. destruct (Hresp E) as [sl [Hsl Hs]].
      simpl in Hsl. assert (sl = 0%nat) by lia. subst sl.
      apply scan_B_cross_iff in Hs. lia.
    + exact E.
Defined.

(** ** Which error, and when none *)

(** X7: on inputs that reach the RVHR loop and away from rounding, the
    error of a call is decided by the first slice number that meets a
    raise condition. Let no slice number below [sl0] meet (a) or (b). If
    some frame of [sl0] has [i2 < i1], the call raises the error with the
    respiration message, even when no trigger lies within 3 s of its frame
    0; if no frame has, but no trigger lies within 3 s of its frame 0, the
    call raises the error with the cardiac message. *)
Theorem first_failing_slice_decides_error (firwin : nat -> R -> list R)
    (filtfilt : list R -> list R -> list R -> list R) (self : NIMSPhysio)
    (sl0 : nat) :
  ScanInputs filtfilt self -> filter_runs self -> rounding_margin self ->
  (3 <= nframes self)%nat -> tr self < 40 ->
  (sl0 < length (slice_order self))%nat ->
  (forall sl, (sl < sl0)%nat ->
     ~ rv_bounds_cross self sl /\ ~ first_window_silent self sl) ->
  (rv_bounds_cross self sl0 ->
   raised (compute_regressors firwin filtfilt self) =
     Some (NIMSPhysioError "Respiration data is shorter than the scan duration.")) /\
  (~ rv_bounds_cross self sl0 -> first_window_silent self sl0 ->
   raised (compute_regressors firwin filtfilt self) =
     Some (NIMSPhysioError "Cardiac trigger times do not match scan duration.")).
Proof.
  intros Hin _ _ Hn H40 Hsl0 Hgood. pose proof Hin as [_ [Ht0 [Hd0 [Hp0 _]]]].
  destruct (call_stores_phases firwin filtfilt self Hin Hn) as [mn [P [Emn [EP _]]]].
  pose proof (ScanInputs_shift _ _ mn Hin) as [_ [Ht [Hd [Hp _]]]].
  assert (E3 : (nframes self <? 3)%nat = false) by (apply Nat.ltb_ge; lia).
  destruct (rvhr_stage_first_bad (shift_resp mn self) Ht H40 Hd Hp Hn sl0 Hsl0)
    as [Ha Hb].
  { intros sl Hsl. destruct (Hgood sl Hsl) as [H1 H2]. split.
    - intros H. apply H1. apply rv_window_short_shift in H.
      now apply rv_window_short_iff in H.
    - intros H. apply H2. apply no_trigger_at_start_shift in H.
      apply no_trigger_at_start_iff in H; auto; lia. }
  unfold compute_regressors. rewrite E3, Emn, EP.
  change (rvhr_stage (set_phases (Some P) (shift_resp mn self)))
    with (rvhr_stage (shift_resp mn self)).
  split.
  - intros H. apply rv_window_short_iff in H; auto.
    apply (rv_window_short_shift self mn) in H.
    destruct (Ha H) as [[T HR] E]. rewrite E. reflexivity.
  - intros H1 H2.
    assert (H1' : ~ rv_window_short (shift_resp mn self) sl0).
    { intros H. apply H1. apply rv_window_short_shift in H.
      now apply rv_window_short_iff in H. }
    apply no_trigger_at_start_iff in H2; auto; [|lia].
    apply (no_trigger_at_start_shift self mn) in H2.
    destruct (Hb H1' H2) as [[T HR] E]. rewrite E. reflexivity.
Qed.

Lemma first_failing_slice_decides_error_witness :
  raised (compute_regressors firwin_none filtfilt_none (scan_B [] 100)) =
    Some (NIMSPhysioError "Respiration data is shorter than the scan duration.") /\
  raised (compute_regressors firwin_none filtfilt_none (scan_B [] 500)) =
    Some (NIMSPhysioError "Cardiac trigger times do not match scan duration.").
Proof.
  split.
  - apply (first_failing_slice_decides_error firwin_none filtfilt_none
             (scan_B [] 100) 0).
    + apply scan_B_inputs. lia.
    + apply scan_B_filter_runs. lia.
    + apply scan_B_margin_quiet.
    + simpl. lia.
    + reflexivity.
    + simpl. lia.
    + intros sl Hsl. lia.
    + apply scan_B_cross_iff. lia.
  - apply (first_failing_slice_decides_error firwin_none filtfilt_none
             (scan_B [] 500) 0).
    + apply scan_B_inputs. lia.
    + apply scan_B_filter_runs. lia.
    + apply scan_B_margin_quiet.
    + simpl. lia.
    + reflexivity.
    + simpl. lia.
    + intros sl Hsl. lia.
    + intros Hc. apply scan_B_cross_iff in Hc. lia.
    + apply scan_B_quiet_silent.
Defined.

(** X8: on inputs that reach the RVHR loop and away from rounding, a
    respiration waveform whose duration [len(resp_wave) * resp_dt] reaches
    [scan_duration - 3] never makes the call raise the respiration
    message: the call completes exactly when every slice has a trigger
    within 3 s of the time of its frame 0, and any error it raises is the
    one with the cardiac message. *)
Theorem covering_respiration_never_short (firwin : nat -> R -> list R)
    (filtfilt : list R -> list R -> list R -> list R) (self : NIMSPhysio) :
  ScanInputs filtfilt self -> filter_runs self -> rounding_margin self ->
  (3 <= nframes self)%nat -> tr self < 40 ->
  scan_duration self - 3 <= QofNat (length (resp_wave self)) * resp_dt self ->
  (raised (compute_regressors firwin filtfilt self) = None <->
   forall sl, (sl < length (slice_order self))%nat ->
     ~ first_window_silent self sl) /\
  (forall e, raised (compute_regressors firwin filtfilt self) = Some e ->
     e = NIMSPhysioError "Cardiac trigger times do not match scan duration.").
Proof.
  intros Hin [_ [Hdt _]] _ Hn H40 Hcov.
  pose proof Hin as [_ [Ht [Hd [Hp _]]]].
  assert (Hns : forall sl, (sl < length (slice_order self))%nat ->
                  ~ rv_bounds_cross self sl).
  { intros sl Hsl Hc. apply rv_window_short_iff in Hc; auto.
    revert Hc. apply covered_scan_no_short_window; auto.
    change t_win with (6 * (1 # 2)). 
    assert (E : 6 * (1 # 2) == 3) by reflexivity. rewrite E. exact Hcov. }
  split.
  - destruct (call_cases_written firwin filtfilt self Hin Hn H40)
      as [[Hgood E]|[[sl [Hsl Hbad]] Ht']].
    + split; [|intros _; exact E]. intros _ sl Hsl. apply (Hgood sl Hsl).
    + split.
      * intros E. destruct Ht' as [H|H]; rewrite E in H; discriminate.
      * intros Hall. destruct Hbad as [Hb|Hb];
          [destruct (Hns sl Hsl Hb)|destruct (Hall sl Hsl Hb)].
  - intros e E.
    destruct (call_error_kind_written firwin filtfilt self e Hin Hn H40 E)
      as [[_ [sl [Hsl Hb]]]|[-> _]]; [destruct (Hns sl Hsl Hb)|reflexivity].
Qed.

Lemma covering_respiration_never_short_witness :
  raised (compute_regressors firwin_none filtfilt_none (scan_B beats_B 500)) = None /\
  raised (compute_regressors firwin_none filtfilt_none (scan_B [] 500)) =
    Some (NIMSPhysioError "Cardiac trigger times do not match scan duration.").
Proof.
  assert (Hcov : forall trig,
            scan_duration (scan_B trig 500) - 3 <=
            QofNat (length (resp_wave (scan_B trig 500))) * resp_dt (scan_B trig 500)).
  { intros trig. rewrite scan_B_size. vm_compute. discriminate. }
  split.
  - apply (covering_respiration_never_short firwin_none filtfilt_none
             (scan_B beats_B 500)
             (scan_B_inputs _ 500 ltac:(lia))
             (scan_B_filter_runs _ 500 ltac:(lia))
             (scan_B_margin_beats 500) ltac:(simpl; lia) eq_refl (Hcov _)).
    intros sl Hsl. simpl in Hsl. assert (sl = 0%nat) by lia. subst sl.
    apply scan_B_beats_heard.
  - destruct (raised (compute_regressors firwin_none filtfilt_none (scan_B [] 500)))
      as [e|] eqn:E.
    + f_equal.
      apply (covering_respiration_never_short firwin_none filtfilt_none
               (scan_B [] 500)
               (scan_B_inputs _ 500 ltac:(lia))
               (scan_B_filter_runs _ 500 ltac:(lia))
               (scan_B_margin_quiet 500) ltac:(simpl; lia) eq_refl (Hcov _)).
      exact E.
    + exfalso.
      destruct (covering_respiration_never_short firwin_none filtfilt_none
                  (scan_B [] 500)
                  (scan_B_inputs _ 500 ltac:(lia))
                  (scan_B_filter_runs _ 500 ltac:(lia))
                  (scan_B_margin_quiet 500) ltac:(simpl; lia) eq_refl (Hcov _))
        as [[H _] _].
      apply (H E 0%nat); [simpl; lia|apply scan_B_quiet_silent].
Defined.

(** ** The heart-rate series *)

Lemma first_hd_map {B} (g : nat -> B) (d : B) (p : list nat) (i : nat) :
  Np.first p = inr i -> hd d (map g p) = g i.
Proof. destruct p as [|j p]; [discriminate|]. intros H. injection H as <-. reflexivity. Qed.

Lemma last_index_last_map {B} (g : nat -> B) (d : B) (p : list nat) (i : nat) :
  Np.last_index p = inr i -> last (map g p) d = g i.
Proof.
  unfold Np.last_index. intros H.
  destruct (rev p) as [|j q] eqn:E; [discriminate|]. injection H as <-.
  apply (f_equal (@rev nat)) in E. rewrite rev_involutive in E. subst p.
  simpl. rewrite map_app. simpl. apply last_last.
Qed.

Lemma getnat_nth {A} (l : list A) (i : nat) (x d : A) :
  Np.getnat l i = inr x -> nth i l d = x.
Proof.
  unfold Np.getnat. destruct (nth_error l i) as [y|] eqn:E; [|discriminate].
  intros H. injection H as <-. now apply nth_error_nth.
Qed.

(** The rate over a window with triggers: count, first and last are those
    of the trigger times within 3 s of [t]. *)
Lemma window_bpm_written (self : NIMSPhysio) (t v : Q) :
  (forall i j ci cj, (i <= j)%nat ->
     nth_error (card_trig self) i = Some ci ->
     nth_error (card_trig self) j = Some cj -> ci <= cj) ->
  inds self t <> [] ->
  window_bpm self (inds self t) = inr v ->
  v == (QofNat (length (triggers_near self t)) - 1) * 60 /
       (last (triggers_near self t) 0 - hd 0 (triggers_near self t)).
Proof.
  intros Hasc Hne Hv.
  apply window_bpm_inv in Hv as [i0 [il [c0 [cl [H0 [Hl [Hc0 [Hcl ->]]]]]]]].
  rewrite (inds_span self t i0 il Hasc H0 Hl).
  rewrite <- inds_triggers_near, length_map.
  rewrite (first_hd_map _ 0 _ _ H0), (last_index_last_map _ 0 _ _ Hl).
  rewrite (getnat_nth _ _ _ 0 Hc0), (getnat_nth _ _ _ 0 Hcl).
  unfold QofNat, Z.sub. rewrite inject_Z_plus. reflexivity.
Qed.

(** C6: when a call on good inputs (at least three frames, [tr < 40],
    ascending triggers) completes, the heart-rate tensor holds, away from
    rounding, for the slice at every position [cur] and every frame [tp], with
    [t = (tr/nslices)*(cur+0.5) + tp*tr] and [w] the trigger times [c]
    with [t - 3 <= c <= t + 3]: the rate
    [(count-1) * 60 / (last - first)] over [w] when the first and the last
    time of [w] differ, and the value of the frame before when [w] is
    empty (the frame is then not the first). With one slice, [tr = 2],
    ten frames and a trigger at every second from 0 to 20, every entry is
    60. *)
Theorem heart_rate_series (firwin : nat -> R -> list R)
    (filtfilt : list R -> list R -> list R -> list R) (self : NIMSPhysio) :
  ScanInputs filtfilt self -> (3 <= nframes self)%nat -> tr self < 40 ->
  (forall i j ci cj, (i <= j)%nat ->
     nth_error (card_trig self) i = Some ci ->
     nth_error (card_trig self) j = Some cj -> ci <= cj) ->
  raised (compute_regressors firwin filtfilt self) = None ->
  exists HR,
    heart_rate (final (compute_regressors firwin filtfilt self)) = Some HR /\
    (rounding_margin self ->
     forall sl cur tp,
       nth_error (slice_order self) cur = Some sl -> (tp < nframes self)%nat ->
       let t := tr self / QofNat (length (slice_order self)) * (QofNat cur + (1 # 2))
                + QofNat tp * tr self in
       let w := filter (fun c => Qle_bool (t - 3) c && Qle_bool c (t + 3))
                       (card_trig self) in
       (~ hd 0 w == last w 0 ->
        nth sl (nth tp HR []) 0 ==
          (QofNat (length w) - 1) * 60 / (last w 0 - hd 0 w)) /\
       (w = [] ->
        (0 < tp)%nat /\
        nth sl (nth tp HR []) 0 = nth sl (nth (tp - 1) HR []) 0)) /\
    (tr self = 2 -> nframes self = 10%nat -> slice_order self = [0%nat] ->
     card_trig self = map QofNat (seq 0 21) ->
     forall tp, (tp < 10)%nat -> nth 0 (nth tp HR []) 0 == 60).
Proof.
  intros Hin Hn H40 Hasc Hnone. pose proof Hin as [_ [Ht [Hd [Hp _]]]].
  destruct (call_cases firwin filtfilt self Hin Hn H40)
    as [[_ [_ [HR [EHR [[HL _] Hcol]]]]]|[_ [e [E _]]]]; [|congruence].
  exists HR. split; [exact EHR|]. split.
  - intros _ sl cur tp Hcur Htp t w.
    assert (Hc : (cur < length (slice_order self))%nat)
      by (apply nth_error_Some; congruence).
    assert (Hsl : (sl < length (slice_order self))%nat).
    { apply nth_error_In in Hcur. apply (Permutation_in _ Hp) in Hcur.
      apply in_seq in Hcur. lia. }
    destruct (Hcol sl Hsl) as [cur' [Ec Hent]].
    rewrite (position_lookup _ sl cur Hp Hcur) in Ec. injection Ec as <-.
    destruct (Hent tp Htp) as [t' [Et Hm]].
    rewrite (slice_time_is_frame_time self Ht Hd cur tp Hc Htp) in Et.
    injection Et as <-.
    change t with (frame_time self cur tp) in w.
    change w with (triggers_near self (frame_time self cur tp)).
    rewrite column_nth in Hm by lia.
    destruct (inds self (frame_time self cur tp)) as [|i p] eqn:Ei.
    + apply inds_empty_iff in Ei. rewrite Ei. split.
      * intros Hneq. exfalso. apply Hneq. reflexivity.
      * intros _. destruct Hm as [Hpos Hm].
        rewrite column_nth in Hm by lia. auto.
    + split.
      * intros _. rewrite <- Ei in Hm.
        apply window_bpm_written; [exact Hasc|rewrite Ei; discriminate|exact Hm].
      * intros Hw. apply inds_empty_iff in Hw. congruence.
  - intros Etr Enf Eso Ect tp Htp.
    destruct (Hcol 0%nat) as [cur [Ec Hent]]; [rewrite Eso; simpl; lia|].
    rewrite Eso in Ec. vm_compute in Ec. injection Ec as <-.
    destruct (Hent tp ltac:(lia)) as [t [Et Hm]].
    rewrite slice_times_nth in Et by (auto; rewrite ?Eso; simpl; lia).
    injection Et as <-. rewrite Eso, Etr in Hm. simpl length in Hm.
    rewrite column_nth in Hm by lia.
    unfold inds, window_bpm in Hm. rewrite Ect in Hm.
    remember (nth 0 (nth tp HR []) 0) as v eqn:Ev. clear Ev.
    do 10 (destruct tp as [|tp];
           [vm_compute in Hm; injection Hm as <-; reflexivity|]).
    lia.
Qed.

Lemma scan_B_ascending (n : nat) :
  forall i j ci cj, (i <= j)%nat ->
    nth_error (card_trig (scan_B beats_B n)) i = Some ci ->
    nth_error (card_trig (scan_B beats_B n)) j = Some cj -> ci <= cj.
Proof.
  intros i j ci cj Hij Hi Hj.
  assert (Hi' : (i < 8)%nat).
  { apply (proj1 (nth_error_Some (card_trig (scan_B beats_B n)) i)). congruence. }
  assert (Hj' : (j < 8)%nat).
  { apply (proj1 (nth_error_Some (card_trig (scan_B beats_B n)) j)). congruence. }
  do 8 (destruct i as [|i]; [
    do 8 (destruct j as [|j]; [
      first [lia | simpl in Hi, Hj; injection Hi as <-; injection Hj as <-;
                   vm_compute; discriminate]|]); lia|]).
  lia.
Qed.

Lemma scan_B_completes (n : nat) :
  (143 <= n)%nat ->
  raised (compute_regressors firwin_none filtfilt_none (scan_B beats_B n)) = None.
Proof.
  intros Hn.
  destruct (call_cases_written firwin_none filtfilt_none (scan_B beats_B n)
              (scan_B_inputs _ n ltac:(lia)) ltac:(simpl; lia) eq_refl)
    as [[_ E]|[[sl [Hsl Hbad]] _]]; [exact E|].
  simpl in Hsl. assert (sl = 0%nat) by lia. subst sl.
  destruct Hbad as [H|H].
  - apply scan_B_cross_iff in H. lia.
  - destruct (scan_B_beats_heard n H).
Qed.

Lemma heart_rate_series_witness :
  exists HR,
    heart_rate (final (compute_regressors firwin_none filtfilt_none
                         (scan_B beats_B 500))) = Some HR /\
    nth 0 (nth 0 HR []) 0 == 60 /\ nth 0 (nth 1 HR []) 0 == 48 /\
    nth 0 (nth 2 HR []) 0 == 30 /\ nth 0 (nth 3 HR []) 0 == 30.
Proof.
  destruct (heart_rate_series firwin_none filtfilt_none (scan_B beats_B 500)
              (scan_B_inputs _ 500 ltac:(lia)) ltac:(simpl; lia) eq_refl
              (scan_B_ascending 500) (scan_B_completes 500 ltac:(lia)))
    as [HR [E [H' _]]].
  pose proof (H' (scan_B_margin_beats 500)) as H.
  exists HR. split; [exact E|].
  pose proof (H 0%nat 0%nat 0%nat eq_refl ltac:(simpl; lia)) as H0.
  pose proof (H 0%nat 0%nat 1%nat eq_refl ltac:(simpl; lia)) as H1.
  pose proof (H 0%nat 0%nat 2%nat eq_refl ltac:(simpl; lia)) as H2.
  pose proof (H 0%nat 0%nat 3%nat eq_refl ltac:(simpl; lia)) as H3.
  cbv zeta in H0, H1, H2, H3.
  destruct H0 as [H0 _]. destruct H1 as [H1 _].
  destruct H2 as [H2 _]. destruct H3 as [H3 _].
  split; [|split; [|split]].
  - rewrite H0; [reflexivity|vm_compute; discriminate].
  - rewrite H1; [reflexivity|vm_compute; discriminate].
  - rewrite H2; [reflexivity|vm_compute; discriminate].
  - rewrite H3; [reflexivity|vm_compute; discriminate].
Defined.

(** ** The responses of scenario B are normalizable *)

Local Open Scope R_scope.

Lemma fold_left_Rmax_ge (l : list R) (x y : R) :
  In y (x :: l) -> y <= fold_left Rmax l x.
Proof.
  revert x y. induction l as [|a l IH]; intros x y Hin.
  - destruct Hin as [->|[]]. simpl. apply Rle_refl.
  - simpl. destruct Hin as [->|[->|Hin]].
    + apply Rle_trans with (Rmax y a); [apply Rmax_l|]. apply IH. now left.
    + apply Rle_trans with (Rmax x y); [apply Rmax_r|]. apply IH. now left.
    + apply IH. now right.
Qed.

Lemma fold_left_Rmax_in (l : list R) (x : R) : In (fold_left Rmax l x) (x :: l).
Proof.
  revert x. induction l as [|a l IH]; intros x; [now left|].
  simpl. destruct (IH (Rmax x a)) as [H|H].
  - rewrite <- H. unfold Rmax. destruct (Rle_dec x a); auto.
  - right. right. exact H.
Qed.

Lemma Ramax_ge (l : list R) (m y : R) : Np.Ramax l = inr m -> In y l -> y <= m.
Proof.
  destruct l as [|x l]; [discriminate|]. simpl. intros H. injection H as <-.
  apply fold_left_Rmax_ge.
Qed.

Lemma Ramax_in (l : list R) (m : R) : Np.Ramax l = inr m -> In m l.
Proof.
  destruct l as [|x l]; [discriminate|]. simpl Np.Ramax. intros H. injection H as <-.
  apply fold_left_Rmax_in.
Qed.

Lemma exp_1_gt_2 : 2 < exp 1.
Proof. pose proof (exp_ineq1 1 R1_neq_R0). rlra. Qed.

Lemma exp_2_le_9 : exp 2 <= 9.
Proof.
  replace 2 with (1 + 1) by rlra. rewrite exp_plus.
  pose proof exp_le_3. pose proof (exp_pos 1). rnra.
Qed.

Lemma exp_4_ge_16 : 16 <= exp 4.
Proof.
  replace 4 with ((1 + 1) + (1 + 1)) by rlra. rewrite !exp_plus.
  pose proof exp_1_gt_2 as H.
  assert (H2 : 4 <= exp 1 * exp 1) by rnra. rnra.
Qed.

Lemma exp_le (x y : R) : x <= y -> exp x <= exp y.
Proof.
  intros [H| ->]; [left; now apply exp_increasing|apply Rle_refl].
Qed.

(** The common first factor of both responses at [t = 2.5]:
    [t**p * exp(-t/1.6) >= 25/36] for an exponent [p >= 2]. *)
Lemma rise_at_5_2 (p : R) :
  2 <= p -> 25 / 36 <= fpow (5 / 2) p * exp (- (5 / 2) / (16 / 10)).
Proof.
  intros Hp. unfold fpow. destruct (Req_dec_T (5 / 2) 0) as [E|_]; [rlra|].
  assert (H1 : 25 / 4 <= Rpower (5 / 2) p).
  { apply Rle_trans with (Rpower (5 / 2) 2).
    - replace (Rpower (5 / 2) 2) with (Rpower (5 / 2) (INR 2))
        by (simpl; f_equal; rlra).
      rewrite Rpower_pow by rlra. simpl. rlra.
    - apply Rle_Rpower; rlra. }
  assert (H2 : / 9 <= exp (- (5 / 2) / (16 / 10))).
  { apply Rle_trans with (exp (Ropp 2)).
    - rewrite exp_Ropp. apply Rinv_le_contravar; [apply exp_pos|apply exp_2_le_9].
    - apply exp_le. rlra. }
  apply Rle_trans with (25 / 4 * / 9); [rlra|].
  apply Rmult_le_compat; rlra.
Qed.

Lemma RRF_at_5_2 : 0 < RRF (5 / 2).
Proof.
  unfold RRF.
  pose proof (rise_at_5_2 (21 / 10) ltac:(rlra)) as H1.
  assert (H2 : fpow (5 / 2) (354 / 100) * exp (- (5 / 2) / (425 / 100)) <= 625 / 16).
  { unfold fpow. destruct (Req_dec_T (5 / 2) 0) as [E|_]; [rlra|].
    assert (Ha : Rpower (5 / 2) (354 / 100) <= 625 / 16).
    { apply Rle_trans with (Rpower (5 / 2) 4).
      - apply Rle_Rpower; rlra.
      - replace (Rpower (5 / 2) 4) with (Rpower (5 / 2) (INR 4))
          by (simpl; f_equal; rlra).
        rewrite Rpower_pow by rlra. simpl. rlra. }
    assert (Hb : exp (- (5 / 2) / (425 / 100)) <= 1).
    { rewrite <- exp_0. apply exp_le. rlra. }
    assert (Hc : 0 < Rpower (5 / 2) (354 / 100)) by apply exp_pos.
    pose proof (exp_pos (- (5 / 2) / (425 / 100))) as Hd.
    replace (625 / 16) with (625 / 16 * 1) by rlra.
    apply Rmult_le_compat; rlra. }
  rlra.
Qed.

Lemma CRF_at_5_2 : 0 < CRF (5 / 2).
Proof.
  unfold CRF, norm_pdf.
  pose proof (rise_at_5_2 (27 / 10) ltac:(rlra)) as H1.
  assert (H2 : exp (- ((5 / 2 - 12) / 3 * ((5 / 2 - 12) / 3)) / 2) /
               (3 * sqrt (2 * PI)) <= / 48).
  { assert (Ha : exp (- ((5 / 2 - 12) / 3 * ((5 / 2 - 12) / 3)) / 2) <= / 16).
    { apply Rle_trans with (exp (Ropp 4)).
      - apply exp_le. rlra.
      - rewrite exp_Ropp. apply Rinv_le_contravar; [rlra|apply exp_4_ge_16]. }
    assert (Hb : 1 <= sqrt (2 * PI)).
    { rewrite <- sqrt_1 at 1. apply sqrt_le_1_alt. pose proof PI2_1. rlra. }
    pose proof (exp_pos (- ((5 / 2 - 12) / 3 * ((5 / 2 - 12) / 3)) / 2)) as Hc.
    unfold Rdiv.
    replace (/ 48) with (/ 16 * / 3) by rlra.
    apply Rmult_le_compat; [rlra| |exact Ha|].
    - left. apply Rinv_0_lt_compat. rlra.
    - apply Rinv_le_contravar; rlra. }
  rlra.
Qed.

Lemma Q2R_5_2 : Q2R (5 # 2) = 5 / 2.
Proof. unfold Q2R. simpl. rlra. Qed.

Lemma scan_B_grid (trig : list Q) (n : nat) :
  In (5 # 2)%Q (response_grid (scan_B trig n)).
Proof. vm_compute. right. left. reflexivity. Qed.

Lemma scan_B_normalizable (trig : list Q) (n : nat) :
  responses_normalizable (scan_B trig n).
Proof.
  intros m [H|H].
  - assert (Hge : RRF (Q2R (5 # 2)) <= m).
    { apply (Ramax_ge _ _ _ H).
      apply (in_map (fun q => RRF (Q2R q))). apply scan_B_grid. }
    rewrite Q2R_5_2 in Hge. pose proof RRF_at_5_2. rlra.
  - assert (Hge : CRF (Q2R (5 # 2)) <= m).
    { apply (Ramax_ge _ _ _ H).
      apply (in_map (fun q => CRF (Q2R q))). apply scan_B_grid. }
    rewrite Q2R_5_2 in Hge. pose proof CRF_at_5_2. rlra.
Qed.

Lemma scan_B_finite (n : nat) :
  (144 <= n)%nat -> finite_values (scan_B beats_B n).
Proof.
  intros Hn. split; [|split].
  - intros cur tp Hc Htp. simpl in Hc, Htp.
    destruct cur as [|cur]; [|lia].
    destruct (scan_B_bounds beats_B n tp Htp) as [E1 E2]. rewrite E1, E2.
    do 4 (destruct tp as [|tp]; [simpl; lia|]). lia.
  - intros cur tp Hc Htp. simpl in Hc, Htp.
    destruct cur as [|cur]; [|lia].
    do 4 (destruct tp as [|tp]; [right; vm_compute; discriminate|]). lia.
  - apply scan_B_normalizable.
Qed.

(** ** What detrending leaves in a column, written as sums *)

Local Open Scope R_scope.

Lemma combine_map_seq {A} (f : nat -> R) (y : list A) (d : A) (k n : nat) :
  length y = n ->
  combine (map f (seq k n)) y = map (fun i => (f i, nth (i - k) y d)) (seq k n).
Proof.
  revert k y. induction n as [|n IH]; intros k [|a y] HL; simpl in HL;
    try discriminate; [reflexivity|].
  simpl. rewrite Nat.sub_diag. f_equal.
  rewrite (IH (S k) y ltac:(lia)). apply map_ext_in. intros i Hi.
  apply in_seq in Hi. replace (i - k)%nat with (S (i - S k)) by lia. reflexivity.
Qed.

(** The moments of a column against the frame index, as sums over the
    frames. *)
Lemma moment_y_frames (k n : nat) (y : list R) :
  length y = n ->
  moment_y k (frame_index n) y =
    Np.Rsum (map (fun i => INR i ^ k * nth i y 0) (seq 0 n)).
Proof.
  intros HL. unfold moment_y, frame_index.
  rewrite (combine_map_seq INR y 0 0 n HL), map_map. f_equal.
  apply map_ext. intros i. simpl. now rewrite Nat.sub_0_r.
Qed.

Lemma get_col_nth (T : list (list (list R))) (reg sl i : nat) :
  nth i (get_col T reg sl) 0 = nth sl (nth reg (nth i T []) []) 0.
Proof.
  unfold get_col. destruct (Nat.lt_ge_cases i (length T)) as [H|H].
  - now rewrite (nth_map_lt _ T i 0 []).
  - rewrite (nth_overflow (map _ T)) by (rewrite length_map; exact H).
    rewrite (nth_overflow T) by exact H.
    destruct reg; destruct sl; reflexivity.
Qed.

Lemma Rsum_map_ext {A} (f g : A -> R) (l : list A) :
  (forall a, In a l -> f a = g a) -> Np.Rsum (map f l) = Np.Rsum (map g l).
Proof. intros H. f_equal. now apply map_ext_in. Qed.

Lemma Rsum_map_nonneg {A} (f : A -> R) (l : list A) :
  (forall a, In a l -> 0 <= f a) -> 0 <= Np.Rsum (map f l).
Proof.
  induction l as [|a l IH]; intros H; simpl; [apply Rle_refl|].
  apply Rplus_le_le_0_compat; [apply H; now left|].
  apply IH. intros b Hb. apply H. now right.
Qed.

Lemma Rsum_map_zero_each {A} (f : A -> R) (l : list A) :
  (forall a, In a l -> 0 <= f a) -> Np.Rsum (map f l) = 0 ->
  forall a, In a l -> f a = 0.
Proof.
  induction l as [|b l IH]; intros H E a Ha; [destruct Ha|].
  simpl in E.
  assert (H1 : 0 <= f b) by (apply H; now left).
  assert (H2 : 0 <= Np.Rsum (map f l)).
  { apply Rsum_map_nonneg. intros c Hc. apply H. now right. }
  destruct Ha as [<-|Ha]; [rlra|].
  apply IH; auto; [|rlra]. intros c Hc. apply H. now right.
Qed.

(** The squared distance of a column [y] from a quadratic, expanded. *)
Lemma square_distance_expand (y : nat -> R) (a b c : R) (l : list nat) :
  Np.Rsum (map (fun i => (y i - ((a * INR i + b) * INR i + c)) *
                         (y i - ((a * INR i + b) * INR i + c))) l) =
  Np.Rsum (map (fun i => y i * y i) l)
  - 2 * (a * Np.Rsum (map (fun i => INR i ^ 2 * y i) l)
         + b * Np.Rsum (map (fun i => INR i ^ 1 * y i) l)
         + c * Np.Rsum (map (fun i => INR i ^ 0 * y i) l))
  + Np.Rsum (map (fun i => ((a * INR i + b) * INR i + c) *
                           ((a * INR i + b) * INR i + c)) l).
Proof.
  induction l as [|i l IH]; simpl; [ring|]. simpl in IH. rewrite IH. ring.
Qed.

(** A column that is orthogonal to 1, [i] and [i^2] over at least three
    frames has the zero polynomial as its only least-squares quadratic. *)
Lemma orthogonal_column_refit (y : nat -> R) (n : nat) :
  (3 <= n)%nat ->
  (forall k, (k < 3)%nat ->
     Np.Rsum (map (fun i => INR i ^ k * y i) (seq 0 n)) = 0) ->
  (forall a b c,
     Np.Rsum (map (fun i => y i * y i) (seq 0 n)) <=
     Np.Rsum (map (fun i => (y i - ((a * INR i + b) * INR i + c)) *
                            (y i - ((a * INR i + b) * INR i + c))) (seq 0 n))) /\
  (forall a b c,
     Np.Rsum (map (fun i => (y i - ((a * INR i + b) * INR i + c)) *
                            (y i - ((a * INR i + b) * INR i + c))) (seq 0 n)) =
     Np.Rsum (map (fun i => y i * y i) (seq 0 n)) ->
     a = 0 /\ b = 0 /\ c = 0).
Proof.
  intros Hn Horth.
  assert (Hq : forall a b c i, In i (seq 0 n) ->
            0 <= ((a * INR i + b) * INR i + c) * ((a * INR i + b) * INR i + c)).
  { intros a b c i _. apply (Rle_0_sqr ((a * INR i + b) * INR i + c)). }
  split.
  - intros a b c. rewrite square_distance_expand.
    rewrite (Horth 0%nat), (Horth 1%nat), (Horth 2%nat) by lia.
    pose proof (Rsum_map_nonneg _ (seq 0 n) (Hq a b c)). rlra.
  - intros a b c E. rewrite square_distance_expand in E.
    rewrite (Horth 0%nat), (Horth 1%nat), (Horth 2%nat) in E by lia.
    assert (Ez : Np.Rsum (map (fun i => ((a * INR i + b) * INR i + c) *
                                        ((a * INR i + b) * INR i + c)) (seq 0 n)) = 0)
      by rlra.
    pose proof (Rsum_map_zero_each _ (seq 0 n) (Hq a b c) Ez) as Hz.
    pose proof (Hz 0%nat ltac:(apply in_seq; lia)) as H0.
    pose proof (Hz 1%nat ltac:(apply in_seq; lia)) as H1.
    pose proof (Hz 2%nat ltac:(apply in_seq; lia)) as H2.
    simpl in H0, H1, H2.
    assert (Hc : c = 0) by rnra. subst c.
    assert (H1' : a + b = 0) by rnra.
    assert (H2' : (a * (1 + 1) + b) * (1 + 1) = 0) by rnra.
    repeat split; rlra.
Qed.

(** The columns of the regressors of a completed call are orthogonal to
    1, the frame index and its square. *)
Lemma call_columns_orthogonal (firwin : nat -> R -> list R)
    (filtfilt : list R -> list R -> list R -> list R) (self : NIMSPhysio) :
  (3 <= nframes self)%nat ->
  raised (compute_regressors firwin filtfilt self) = None ->
  exists T,
    regressors (final (compute_regressors firwin filtfilt self)) = Some T /\
    shape3 (nframes self) 12 (length (slice_order self)) T /\
    forall reg sl, (reg < 12)%nat -> (sl < length (slice_order self))%nat ->
      polyfit2 (frame_index (nframes self)) (get_col T reg sl) = (0, 0, 0) /\
      forall k, (k < 3)%nat ->
        Np.Rsum (map (fun i => INR i ^ k * nth sl (nth reg (nth i T []) []) 0)
                     (seq 0 (nframes self))) = 0.
Proof.
  intros Hn Hnone.
  destruct (call_regressors_detrended firwin filtfilt self Hn Hnone)
    as [T [T0 [ET [HC ->]]]].
  destruct (detrend_stage_spec (nframes self) 12 (length (slice_order self)) T0
              ltac:(lia) HC) as [Hsh Hcol].
  eexists. split; [exact ET|]. split; [exact Hsh|].
  intros reg sl Hreg Hsl.
  assert (HD : gram_det (frame_index (nframes self)) <> 0)
    by now apply gram_det_frame_index_nonzero.
  assert (HL : length (get_col T0 reg sl) = length (frame_index (nframes self))).
  { rewrite get_col_length, frame_index_length. destruct HC as [HL _]. exact HL. }
  split.
  - rewrite (Hcol reg sl Hreg Hsl). now apply polyfit2_detrended.
  - intros k Hk.
    rewrite (Rsum_map_ext _
               (fun i => INR i ^ k *
                         nth i (get_col (detrend_stage (length (slice_order self)) T0)
                                        reg sl) 0))
      by (intros i _; now rewrite get_col_nth).
    rewrite <- moment_y_frames.
    + rewrite (Hcol reg sl Hreg Hsl).
      apply polyfit2_normal_equations; [exact HD|exact HL|exact Hk].
    + rewrite get_col_length. destruct Hsh as [H _]. exact H.
Qed.

(** C9: when a call with at least three frames completes on inputs for
    which the RVHR loop computes numbers (no empty RV window, no trigger
    window whose first and last time coincide, responses with a non-zero
    maximum; away from rounding), the regressor tensor has shape
    [nframes, 12, nslices], and for any of its columns [y] (any regressor,
    any slice): fitting a quadratic against the frame index gives the
    coefficients 0, 0, 0; no quadratic [q] has a smaller squared distance
    [sum_i (y_i - q(i))^2] from the column than the zero polynomial, and
    one that has the same is the zero polynomial (exact arithmetic). *)
Theorem detrended_refit_is_zero (firwin : nat -> R -> list R)
    (filtfilt : list R -> list R -> list R -> list R) (self : NIMSPhysio) :
  (3 <= nframes self)%nat ->
  rounding_margin self -> finite_values self ->
  raised (compute_regressors firwin filtfilt self) = None ->
  exists T,
    regressors (final (compute_regressors firwin filtfilt self)) = Some T /\
    shape3 (nframes self) 12 (length (slice_order self)) T /\
    forall reg sl, (reg < 12)%nat -> (sl < length (slice_order self))%nat ->
      let y := fun i : nat => nth sl (nth reg (nth i T []) []) 0 in
      let frames := seq 0 (nframes self) in
      polyfit2 (frame_index (nframes self)) (get_col T reg sl) = (0, 0, 0) /\
      (forall a b c,
         Np.Rsum (map (fun i => y i * y i) frames) <=
         Np.Rsum (map (fun i => (y i - ((a * INR i + b) * INR i + c)) *
                                (y i - ((a * INR i + b) * INR i + c))) frames)) /\
      (forall a b c,
         Np.Rsum (map (fun i => (y i - ((a * INR i + b) * INR i + c)) *
                                (y i - ((a * INR i + b) * INR i + c))) frames) =
         Np.Rsum (map (fun i => y i * y i) frames) ->
         a = 0 /\ b = 0 /\ c = 0).
Proof.
  intros Hn _ _ Hnone.
  destruct (call_columns_orthogonal firwin filtfilt self Hn Hnone)
    as [T [ET [Hsh H]]].
  exists T. split; [exact ET|]. split; [exact Hsh|].
  intros reg sl Hreg Hsl y frames.
  destruct (H reg sl Hreg Hsl) as [Hfit Horth].
  split; [exact Hfit|].
  apply (orthogonal_column_refit y (nframes self) Hn Horth).
Qed.

Lemma detrended_refit_is_zero_witness :
  exists T,
    regressors (final (compute_regressors firwin_none filtfilt_none
                         (scan_B beats_B 500))) = Some T /\
    shape3 4 12 1 T /\
    polyfit2 (frame_index 4) (get_col T 0 0) = (0, 0, 0) /\
    polyfit2 (frame_index 4) (get_col T 10 0) = (0, 0, 0).
Proof.
  destruct (detrended_refit_is_zero firwin_none filtfilt_none (scan_B beats_B 500)
              ltac:(simpl; lia) (scan_B_margin_beats 500)
              (scan_B_finite 500 ltac:(lia)) (scan_B_completes 500 ltac:(lia)))
    as [T [ET [Hsh H]]].
  exists T. split; [exact ET|]. split; [exact Hsh|]. split.
  - apply (H 0%nat 0%nat); simpl; lia.
  - apply (H 10%nat 0%nat); simpl; lia.
Defined.

(** X10: when a call with at least three frames completes on inputs for
    which the RVHR loop computes numbers, every column [y] of the
    regressor tensor (any regressor, any slice) sums to zero over the
    frames, [sum_i y_i = 0], and so do its products with the frame index
    and with the squared frame index, [sum_i i*y_i = 0] and
    [sum_i i^2*y_i = 0] (exact arithmetic). *)
Theorem regressors_have_zero_mean (firwin : nat -> R -> list R)
    (filtfilt : list R -> list R -> list R -> list R) (self : NIMSPhysio) :
  (3 <= nframes self)%nat ->
  rounding_margin self -> finite_values self ->
  raised (compute_regressors firwin filtfilt self) = None ->
  exists T,
    regressors (final (compute_regressors firwin filtfilt self)) = Some T /\
    forall reg sl, (reg < 12)%nat -> (sl < length (slice_order self))%nat ->
      let y := fun i : nat => nth sl (nth reg (nth i T []) []) 0 in
      let frames := seq 0 (nframes self) in
      Np.Rsum (map y frames) = 0 /\
      Np.Rsum (map (fun i => INR i * y i) frames) = 0 /\
      Np.Rsum (map (fun i => INR i * INR i * y i) frames) = 0.
Proof.
  intros Hn _ _ Hnone.
  destruct (call_columns_orthogonal firwin filtfilt self Hn Hnone)
    as [T [ET [_ H]]].
  exists T. split; [exact ET|].
  intros reg sl Hreg Hsl y frames.
  destruct (H reg sl Hreg Hsl) as [_ Horth].
  pose proof (Horth 0%nat ltac:(lia)) as H0.
  pose proof (Horth 1%nat ltac:(lia)) as H1.
  pose proof (Horth 2%nat ltac:(lia)) as H2.
  split; [|split].
  - rewrite <- H0. apply Rsum_map_ext. intros i _. subst y. simpl. ring.
  - rewrite <- H1. apply Rsum_map_ext. intros i _. subst y. simpl. ring.
  - rewrite <- H2. apply Rsum_map_ext. intros i _. subst y. simpl. ring.
Qed.

Lemma regressors_have_zero_mean_witness :
  exists T,
    regressors (final (compute_regressors firwin_none filtfilt_none
                         (scan_B beats_B 500))) = Some T /\
    Np.Rsum (map (fun i : nat => nth 0 (nth 0 (nth i T []) []) 0) (seq 0 4)) = 0.
Proof.
  destruct (regressors_have_zero_mean firwin_none filtfilt_none (scan_B beats_B 500)
              ltac:(simpl; lia) (scan_B_margin_beats 500)
              (scan_B_finite 500 ltac:(lia)) (scan_B_completes 500 ltac:(lia)))
    as [T [ET H]].
  exists T. split; [exact ET|].
  apply (H 0%nat 0%nat); simpl; lia.
Defined.

(** ** The RETROICOR columns, one by one *)

Local Open Scope R_scope.

(** Entry [i] of a detrended column: the entry minus the fitted quadratic
    at [i]. *)
Lemma detrend_col_nth (n i : nat) (y : list R) :
  length y = n -> (i < n)%nat ->
  nth i (detrend_col (frame_index n) y) 0 =
    nth i y 0 - polyval2 (polyfit2 (frame_index n) y) (INR i).
Proof.
  intros HL Hi. unfold detrend_col, frame_index at 2.
  rewrite (combine_map_seq INR y 0 0 n HL), map_map.
  rewrite (nth_map_lt _ (seq 0 n) i 0 0%nat) by (rewrite length_seq; exact Hi).
  rewrite seq_nth by exact Hi. simpl. now rewrite Nat.sub_0_r.
Qed.

(** X18: when a call with at least three frames completes, the first
    eight regressors of every slice are, in this order, the detrended
    [cos(phi_c)], [sin(phi_c)], [cos(2*phi_c)], [sin(2*phi_c)],
    [cos(phi_r)], [sin(phi_r)], [cos(2*phi_r)], [sin(2*phi_r)], where
    [phi_c] and [phi_r] are the cardiac and the respiratory phases that
    the call has stored for the slice; each differs from its term, frame
    by frame, by a quadratic in the frame index. *)
Theorem retroicor_columns_from_phases (firwin : nat -> R -> list R)
    (filtfilt : list R -> list R -> list R -> list R) (self : NIMSPhysio) :
  (3 <= nframes self)%nat ->
  raised (compute_regressors firwin filtfilt self) = None ->
  exists P T,
    phases (final (compute_regressors firwin filtfilt self)) = Some P /\
    regressors (final (compute_regressors firwin filtfilt self)) = Some T /\
    forall sl, (sl < length (slice_order self))%nat ->
      let phi_c := map (fun v => nth 0 v 0) (nth sl P []) in
      let phi_r := map (fun v => nth 1 v 0) (nth sl P []) in
      let terms :=
        [ map cos phi_c; map sin phi_c;
          map (fun p => cos (2 * p)) phi_c; map (fun p => sin (2 * p)) phi_c;
          map cos phi_r; map sin phi_r;
          map (fun p => cos (2 * p)) phi_r; map (fun p => sin (2 * p)) phi_r ] in
      forall reg, (reg < 8)%nat ->
        get_col T reg sl =
          detrend_col (frame_index (nframes self)) (nth reg terms []) /\
        exists a b c,
          forall i, (i < nframes self)%nat ->
            nth sl (nth reg (nth i T []) []) 0 =
              nth i (nth reg terms []) 0 - ((a * INR i + b) * INR i + c).
Proof.
  intros Hn Hnone.
  destruct (call_structure firwin filtfilt self Hn Hnone)
    as [mn [P [RVHR [HR [_ [EP [ES [EPh [_ ET]]]]]]]]].
  exists P. eexists. split; [exact EPh|]. split; [exact ET|].
  intros sl Hsl phi_c phi_r terms reg Hreg.
  pose proof (phases_stage_shape firwin filtfilt (shift_resp mn self)) as HP.
  rewrite EP in HP. simpl in HP.
  pose proof (rvhr_stage_shape (shift_resp mn self)) as HS.
  rewrite ES in HS. simpl in HS.
  pose proof (retroicor_stage_shape self P) as HR8.
  pose proof (concatenate1_shape _ 8 4 _ _ _ HR8 HS) as HC. simpl in HC.
  destruct (detrend_stage_spec (nframes self) 12 (length (slice_order self)) _
              ltac:(lia) HC) as [_ Hcol].
  assert (Ecol : get_col (detrend_stage (length (slice_order self))
                            (concatenate1 (retroicor_stage self P) RVHR)) reg sl =
                 detrend_col (frame_index (nframes self)) (nth reg terms [])).
  { rewrite (Hcol reg sl ltac:(lia) Hsl).
    rewrite (get_col_concatenate1 _ 8 4 _ _ _ _ _ HR8 HS).
    assert (E8 : (reg <? 8)%nat = true) by (apply Nat.ltb_lt; exact Hreg).
    rewrite E8. f_equal.
    rewrite (retroicor_stage_columns self P HP sl reg Hsl Hreg). reflexivity. }
  split; [exact Ecol|].
  assert (HLt : length (nth reg terms []) = nframes self).
  { apply (retroicor_covs_lengths (nframes self) (length (slice_order self)) P sl reg
             HP Hsl Hreg). }
  destruct (polyfit2 (frame_index (nframes self)) (nth reg terms []))
    as [[a b] c] eqn:Efit.
  exists a, b, c. intros i Hi.
  rewrite <- get_col_nth, Ecol, detrend_col_nth by assumption.
  rewrite Efit. reflexivity.
Qed.

Lemma retroicor_columns_from_phases_witness :
  exists P T,
    phases (final (compute_regressors firwin_none filtfilt_none
                     (scan_B beats_B 500))) = Some P /\
    regressors (final (compute_regressors firwin_none filtfilt_none
                         (scan_B beats_B 500))) = Some T /\
    get_col T 1 0 =
      detrend_col (frame_index 4) (map sin (map (fun v => nth 0 v 0) (nth 0 P []))) /\
    get_col T 6 0 =
      detrend_col (frame_index 4)
        (map (fun p => cos (2 * p)) (map (fun v => nth 1 v 0) (nth 0 P []))).
Proof.
  destruct (retroicor_columns_from_phases firwin_none filtfilt_none
              (scan_B beats_B 500) ltac:(simpl; lia)
              (scan_B_completes 500 ltac:(lia))) as [P [T [EP [ET H]]]].
  exists P, T. split; [exact EP|]. split; [exact ET|]. split.
  - apply (H 0%nat ltac:(simpl; lia) 1%nat). lia.
  - apply (H 0%nat ltac:(simpl; lia) 6%nat). lia.
Defined.

(** ** The response regressors, written out *)

Local Open Scope R_scope.

Lemma diff_nth (l : list R) (k : nat) :
  (S k < length l)%nat -> nth k (Np.diff l) 0 = nth (S k) l 0 - nth k l 0.
Proof.
  revert k. induction l as [|x [|y l] IH]; intros k Hk; simpl in Hk; try lia.
  destruct k as [|k]; [reflexivity|].
  change (Np.diff (x :: y :: l)) with ((y - x) :: Np.diff (y :: l)).
  change (nth (S k) ((y - x) :: Np.diff (y :: l)) 0)
    with (nth k (Np.diff (y :: l)) 0).
  rewrite IH by (simpl; lia). reflexivity.
Qed.

Lemma normalize_max_inv (l X : list R) :
  normalize_max l = inr X ->
  exists M, Np.Ramax l = inr M /\ X = map (fun r => r / M) l.
Proof.
  unfold normalize_max. destruct (Np.Ramax l) as [e|M]; [discriminate|].
  simpl. intros H. injection H as <-. exists M. auto.
Qed.

Lemma convolve_head_nth (a v : list R) (n k : nat) :
  (k < Nat.min n (length a + length v - 1))%nat ->
  nth k (Np.convolve_head a v n) 0 = Np.convolve_at a v k.
Proof.
  intros Hk. unfold Np.convolve_head.
  rewrite (nth_map_lt _ _ k 0 0%nat) by (rewrite length_seq; exact Hk).
  now rewrite seq_nth.
Qed.

Lemma Rsum_map_seq_nth (l : list R) :
  Np.Rsum l = Np.Rsum (map (fun j => nth j l 0) (seq 0 (length l))).
Proof.
  rewrite <- (map_via_index (fun x => x) l 0). now rewrite map_id.
Qed.

(** What [response_regressors] returns, sample by sample: the demeaned
    series convolved with the response divided by its maximum, cut to the
    length of the series, and the first difference with its first value
    repeated. *)
Lemma response_regressors_written (f : R -> R) (x : list R) (t : list Q)
    (a b : list R) :
  response_regressors f x t = inr (a, b) ->
  exists M,
    Np.Ramax (map (fun q => f (Q2R q)) t) = inr M /\
    length a = length x /\ length b = length x /\
    (forall k, (k < length x)%nat ->
       nth k a 0 =
         Np.Rsum (map (fun j =>
                         (nth j x 0 - Np.Rsum x / INR (length x)) *
                         (if (k - j <? length t)%nat
                          then f (Q2R (nth (k - j) t 0%Q)) / M else 0))
                      (seq 0 (S k)))) /\
    nth 0 b 0 = nth 1 a 0 - nth 0 a 0 /\
    (forall k, (1 <= k)%nat -> (k < length x)%nat ->
       nth k b 0 = nth k a 0 - nth (k - 1) a 0).
Proof.
  intros E. destruct (response_regressors_inv _ _ _ _ _ E) as [Ha Hb].
  unfold response_regressors in E.
  destruct (normalize_max (map (fun q => f (Q2R q)) t)) as [e|X] eqn:EX;
    [discriminate|].
  destruct (normalize_max_inv _ _ EX) as [M [EM ->]].
  simpl bind in E.
  assert (Ht1 : (1 <= length t)%nat).
  { destruct t; [discriminate|simpl; lia]. }
  set (x' := map (fun v => v - Np.Rmean x) x) in *.
  set (X := map (fun r => r / M) (map (fun q => f (Q2R q)) t)) in *.
  assert (HX : length X = length t) by (subst X; now rewrite !length_map).
  assert (Hx' : length x' = length x) by (subst x'; apply length_map).
  destruct (Np.diff (Np.convolve_head x' X (length x'))) as [|d0 d] eqn:Ed;
    [discriminate|].
  simpl in E. injection E as Ea Eb.
  exists M. split; [exact EM|]. split; [exact Ha|]. split; [exact Hb|].
  assert (Hconv : forall k, (k < length x)%nat ->
            nth k a 0 =
              Np.Rsum (map (fun j =>
                              (nth j x 0 - Np.Rsum x / INR (length x)) *
                              (if (k - j <? length t)%nat
                               then f (Q2R (nth (k - j) t 0%Q)) / M else 0))
                           (seq 0 (S k)))).
  { intros k Hk. rewrite <- Ea.
    rewrite convolve_head_nth by (rewrite Hx', HX; lia).
    unfold Np.convolve_at. apply Rsum_map_ext. intros j Hj. apply in_seq in Hj.
    f_equal.
    - subst x'. rewrite (nth_map_lt _ x j 0 0) by lia. reflexivity.
    - destruct (k - j <? length t)%nat eqn:Elt.
      + apply Nat.ltb_lt in Elt. subst X. rewrite map_map.
        rewrite (nth_map_lt _ t (k - j) 0 0%Q) by exact Elt. reflexivity.
      + apply Nat.ltb_ge in Elt. apply nth_overflow. rewrite HX. exact Elt. }
  split; [exact Hconv|].
  assert (Hd : forall k, (S k < length x)%nat ->
            nth k (d0 :: d) 0 = nth (S k) a 0 - nth k a 0).
  { intros k Hk. rewrite <- Ed, <- Ea. apply diff_nth.
    rewrite <- Ea in Ha. rewrite Ha. exact Hk. }
  assert (H2 : (2 <= length x)%nat).
  { apply (f_equal (@length R)) in Ed. rewrite diff_length in Ed.
    rewrite <- Ea in Ha. rewrite Ha in Ed. simpl in Ed. lia. }
  split.
  - rewrite <- Eb. change (nth 0 (d0 :: d0 :: d) 0) with (nth 0 (d0 :: d) 0).
    apply Hd. lia.
  - intros k Hk1 Hk. rewrite <- Eb. destruct k as [|k]; [lia|].
    change (nth (S k) (d0 :: d0 :: d) 0) with (nth k (d0 :: d) 0).
    rewrite Hd by lia. simpl. now rewrite Nat.sub_0_r.
Qed.

(** The response grid, entry by entry. *)
Lemma response_grid_written (self : NIMSPhysio) :
  length (response_grid self) =
    Z.to_nat (Qceiling ((40 - tr self) / tr self)) /\
  forall j, (j < length (response_grid self))%nat ->
    Q2R (nth j (response_grid self) 0%Q) = Q2R (QofNat j * tr self).
Proof.
  unfold response_grid. split.
  - rewrite arange_length. f_equal. apply Qceiling_comp.
    unfold Qminus. now rewrite Qplus_0_r.
  - intros j Hj. rewrite arange_nth by exact Hj. apply Qeq_eqR.
    now rewrite Qplus_0_l.
Qed.

(** X19: when a call with at least three frames completes on inputs for
    which the RVHR loop computes numbers, the regressors 10 and 11 of a
    slice are computed from the heart-rate series [hr] that the call has
    stored for that slice, as follows. Let [crf t] be
    [0.6 * t**2.7 * exp(-t/1.6) - 16 * normpdf(t; 12, 3)], let the grid be
    the [m] multiples [j*tr] below [40 - tr], and let [M] be the greatest
    value of [crf] on the grid. Then [hr_crf[k]] is the sum over [j <= k]
    of [(hr[j] - mean(hr)) * crf((k-j)*tr)/M], with the terms beyond the
    grid left out; [hr_crf_d[k]] is [hr_crf[k] - hr_crf[k-1]], and
    [hr_crf_d[0] = hr_crf_d[1]]; regressor 10 is the detrended [hr_crf]
    and regressor 11 the detrended [hr_crf_d]. *)
Theorem hr_regressors_from_heart_rate (firwin : nat -> R -> list R)
    (filtfilt : list R -> list R -> list R -> list R) (self : NIMSPhysio) :
  (3 <= nframes self)%nat ->
  rounding_margin self -> finite_values self ->
  raised (compute_regressors firwin filtfilt self) = None ->
  exists HR T,
    heart_rate (final (compute_regressors firwin filtfilt self)) = Some HR /\
    regressors (final (compute_regressors firwin filtfilt self)) = Some T /\
    forall sl, (sl < length (slice_order self))%nat ->
      let n := nframes self in
      let hr := fun j : nat => Q2R (nth sl (nth j HR []) 0%Q) in
      let mean := Np.Rsum (map hr (seq 0 n)) / INR n in
      let crf := fun t : R =>
        6 / 10 * (if Req_dec_T t 0 then 0 else Rpower t (27 / 10))
          * exp (- t / (16 / 10))
        - 16 * (exp (- (((t - 12) / 3) * ((t - 12) / 3)) / 2)
                / (3 * sqrt (2 * PI))) in
      let m := Z.to_nat (Qceiling ((40 - tr self) / tr self)) in
      let grid := fun j : nat => Q2R (QofNat j * tr self) in
      exists M hr_crf hr_crf_d,
        (exists j, (j < m)%nat /\ M = crf (grid j)) /\
        (forall j, (j < m)%nat -> crf (grid j) <= M) /\
        length hr_crf = n /\ length hr_crf_d = n /\
        (forall k, (k < n)%nat ->
           nth k hr_crf 0 =
             Np.Rsum (map (fun j => (hr j - mean) *
                                    (if (k - j <? m)%nat
                                     then crf (grid (k - j)%nat) / M else 0))
                          (seq 0 (S k)))) /\
        nth 0 hr_crf_d 0 = nth 1 hr_crf 0 - nth 0 hr_crf 0 /\
        (forall k, (1 <= k)%nat -> (k < n)%nat ->
           nth k hr_crf_d 0 = nth k hr_crf 0 - nth (k - 1)%nat hr_crf 0) /\
        get_col T 10 sl = detrend_col (frame_index n) hr_crf /\
        get_col T 11 sl = detrend_col (frame_index n) hr_crf_d.
Proof.
  intros Hn _ _ Hnone.
  destruct (call_hr_columns firwin filtfilt self Hn Hnone)
    as [HR [T [EH [ET [[HL _] H]]]]].
  exists HR, T. split; [exact EH|]. split; [exact ET|].
  intros sl Hsl n hr mean crf m grid.
  destruct (H sl Hsl) as [a [b [Eab [H10 H11]]]].
  destruct (response_regressors_written _ _ _ _ _ Eab)
    as [M [EM [Ha [Hb [Hconv [Hd0 Hd]]]]]].
  destruct (response_grid_written self) as [Hm Hg].
  fold m in Hm.
  assert (Hx : length (map Q2R (column 0%Q HR sl)) = n).
  { unfold column. now rewrite !length_map. }
  rewrite Hx in Ha, Hb, Hconv, Hd.
  assert (Hcrf : forall j, (j < m)%nat ->
            CRF (Q2R (nth j (response_grid self) 0%Q)) = crf (grid j)).
  { intros j Hj. rewrite Hg by (rewrite Hm; exact Hj). reflexivity. }
  assert (Hhr : forall j, (j < n)%nat ->
            nth j (map Q2R (column 0%Q HR sl)) 0 = hr j).
  { intros j Hj.
    rewrite (nth_map_lt _ _ j 0 0%Q) by (unfold column; rewrite length_map; lia).
    unfold hr. f_equal. apply column_nth. lia. }
  assert (Hmean : Np.Rsum (map Q2R (column 0%Q HR sl)) / INR n = mean).
  { unfold mean. f_equal. rewrite Rsum_map_seq_nth, Hx.
    apply Rsum_map_ext. intros j Hj. apply in_seq in Hj. apply Hhr. lia. }
  exists M, a, b. split; [|split; [|split; [|split; [|split; [|split; [|split]]]]]];
    auto.
  - apply Ramax_in in EM. apply in_map_iff in EM as [q [Eq Hq]].
    apply (In_nth _ _ 0%Q) in Hq as [j [Hj Ej]]. exists j.
    rewrite Hm in Hj. split; [exact Hj|].
    rewrite <- Eq, <- Ej. now apply Hcrf.
  - intros j Hj. rewrite <- Hcrf by exact Hj.
    apply (Ramax_ge _ _ _ EM).
    apply (in_map (fun q => CRF (Q2R q))). apply nth_In. rewrite Hm. exact Hj.
  - intros k Hk. rewrite (Hconv k Hk). apply Rsum_map_ext. intros j Hj.
    apply in_seq in Hj. rewrite Hm, Hmean, Hhr by lia.
    destruct (k - j <? m)%nat eqn:E; [|reflexivity].
    apply Nat.ltb_lt in E. now rewrite Hcrf.
Qed.

Lemma hr_regressors_from_heart_rate_witness :
  exists HR T M hr_crf hr_crf_d,
    heart_rate (final (compute_regressors firwin_none filtfilt_none
                         (scan_B beats_B 500))) = Some HR /\
    regressors (final (compute_regressors firwin_none filtfilt_none
                         (scan_B beats_B 500))) = Some T /\
    length hr_crf = 4%nat /\
    nth 0 hr_crf 0 =
      (Q2R (nth 0 (nth 0 HR []) 0%Q)
       - (Q2R (nth 0 (nth 0 HR []) 0%Q) + (Q2R (nth 0 (nth 1 HR []) 0%Q)
          + (Q2R (nth 0 (nth 2 HR []) 0%Q) + (Q2R (nth 0 (nth 3 HR []) 0%Q) + 0))))
         / INR 4)
      * (CRF (Q2R (QofNat 0 * (5 # 2))) / M) + 0 /\
    nth 0 hr_crf_d 0 = nth 1 hr_crf 0 - nth 0 hr_crf 0 /\
    get_col T 10 0 = detrend_col (frame_index 4) hr_crf /\
    get_col T 11 0 = detrend_col (frame_index 4) hr_crf_d.
Proof.
  destruct (hr_regressors_from_heart_rate firwin_none filtfilt_none
              (scan_B beats_B 500) ltac:(simpl; lia) (scan_B_margin_beats 500)
              (scan_B_finite 500 ltac:(lia)) (scan_B_completes 500 ltac:(lia)))
    as [HR [T [EH [ET H]]]].
  destruct (H 0%nat ltac:(simpl; lia))
    as [M [a [b [_ [_ [Ha [_ [Hconv [Hd0 [_ [H10 H11]]]]]]]]]]].
  exists HR, T, M, a, b. split; [exact EH|]. split; [exact ET|].
  split; [exact Ha|]. split; [|split; [exact Hd0|split; [exact H10|exact H11]]].
  exact (Hconv 0%nat ltac:(simpl; lia)).
Defined.

Local Open Scope Q_scope.

(** ** Where the phase loop stops on a slice order that is not a permutation *)

Lemma least_index (Pr : nat -> Prop) (dec : forall i, {Pr i} + {~ Pr i}) (n : nat) :
  (exists i, (i < n)%nat /\ Pr i) ->
  exists i0, (i0 < n)%nat /\ Pr i0 /\ forall i, (i < i0)%nat -> ~ Pr i.
Proof.
  induction n as [|n IH]; intros [i [Hi HP]]; [lia|].
  destruct (Nat.eq_dec i n) as [->|Hne].
  - assert (D : (exists j, (j < n)%nat /\ Pr j) \/ forall j, (j < n)%nat -> ~ Pr j).
    { clear -dec. induction n as [|n IHn]; [right; intros; lia|].
      destruct IHn as [[j [Hj HPj]]|Hno].
      - left. exists j. split; [lia|exact HPj].
      - destruct (dec n) as [Hn|Hn].
        + left. exists n. split; [lia|exact Hn].
        + right. intros j Hj. destruct (Nat.eq_dec j n) as [->|Hjn]; [exact Hn|].
          apply Hno. lia. }
    destruct D as [Hex|Hno].
    + destruct (IH Hex) as [i0 [H0 [HP0 Hl]]]. exists i0. split; [lia|]. split; assumption.
    + exists n. split; [lia|]. split; assumption.
  - assert (Hex : exists j, (j < n)%nat /\ Pr j) by (exists i; split; [lia|exact HP]).
    destruct (IH Hex) as [i0 [H0 [HP0 Hl]]].
    exists i0. split; [lia|]. split; assumption.
Qed.

Lemma first_missing_slice (order : list nat) :
  ~ Permutation order (seq 0 (length order)) ->
  exists sl0, (sl0 < length order)%nat /\ ~ In sl0 order /\
              forall sl, (sl < sl0)%nat -> In sl order.
Proof.
  intros Hnp.
  destruct (least_index (fun sl => ~ In sl order)
              (fun sl => match in_dec Nat.eq_dec sl order with
                         | left H => right (fun K => K H)
                         | right H => left H
                         end)
              (length order) (non_permutation_misses order Hnp))
    as [sl0 [H0 [Hm Hl]]].
  exists sl0. split; [exact H0|]. split; [exact Hm|].
  intros sl Hsl. destruct (in_dec Nat.eq_dec sl order) as [H|H]; [exact H|].
  exfalso. exact (Hl sl Hsl H).
Qed.

(** The phase loop fills the rows of the slices below the first slice
    number that the order misses, raises [IndexError] there, and leaves
    the rows from that one on as [np.zeros] made them. *)
Lemma phases_stage_stops_at (firwin : nat -> R -> list R)
    (filtfilt : list R -> list R -> list R -> list R) (self : NIMSPhysio)
    (sl0 : nat) :
  (forall b a x, length (filtfilt b a x) = length x) ->
  0 < tr self ->
  scan_duration self == QofNat (nframes self) * tr self ->
  (2 <= length (resp_wave self))%nat ->
  (sl0 < length (slice_order self))%nat ->
  ~ In sl0 (slice_order self) ->
  (forall sl, (sl < sl0)%nat -> In sl (slice_order self)) ->
  exists P, phases_stage firwin filtfilt self = (P, Some IndexError) /\
    forall sl fr, (sl0 <= sl)%nat -> (sl < length (slice_order self))%nat ->
      (fr < nframes self)%nat -> nth fr (nth sl P []) [] = [0%R; 0%R].
Proof.
  intros Hf Ht Hd Hw H0 Hmiss Hbelow. unfold phases_stage.
  destruct (Np.histogram (resp_wave self) 100) as [Hb bins] eqn:EH.
  set (body := phases_slice self Hb bins (respfilt_of firwin filtfilt self)
       (Np.diff (respfilt_of firwin filtfilt self)) (length (slice_order self))).
  set (Z0 := zeros3 0%R (length (slice_order self)) (nframes self) 2).
  destruct (for_range_total
    (fun k (P : list (list (list R))) =>
       forall sl fr, (k <= sl)%nat ->
         nth fr (nth sl P []) [] = nth fr (nth sl Z0 []) [])
    sl0 body Z0) as [P1 [E1 I1]].
  - intros sl fr _. reflexivity.
  - intros sl P Hsl HI. unfold body, phases_slice.
    destruct (cur_slice_acq_found _ sl (Hbelow sl Hsl)) as [cur [Ec [Hn _]]].
    rewrite Ec.
    assert (Hc : (cur < length (slice_order self))%nat)
      by (apply nth_error_Some; congruence).
    destruct (for_range_total
      (fun _ (Q : list (list (list R))) =>
         forall sl' fr, (sl' <> sl)%nat ->
           nth fr (nth sl' Q []) [] = nth fr (nth sl' P []) [])
      (nframes self)
      (phases_frame self Hb bins (respfilt_of firwin filtfilt self)
         (Np.diff (respfilt_of firwin filtfilt self)) sl
         (slice_times self (length (slice_order self)) cur)) P)
      as [P' [E HP']].
    + intros sl' fr _. reflexivity.
    + intros fr Q Hfr HQ.
      destruct (phase_pair_defined firwin filtfilt self cur fr Hf Ht Hd Hw Hc Hfr)
        as [v Ev].
      rewrite EH in Ev. simpl in Ev.
      unfold phases_frame, assign. rewrite Ev. eexists. split; [reflexivity|].
      intros sl' fr' Hne. rewrite set_row_other by congruence. now apply HQ.
    + exists P'. split; [exact E|].
      intros sl' fr Hle. rewrite HP' by lia. apply HI. lia.
  - exists P1. split.
    + apply (for_range_raised_mono (S sl0)); [|lia].
      rewrite for_range_S, E1. unfold body, phases_slice.
      now rewrite (cur_slice_acq_missing _ sl0 Hmiss).
    + intros sl fr Hle Hsl Hfr. rewrite I1 by exact Hle.
      unfold Z0, zeros3, zeros2, zeros1.
      rewrite nth_repeat_lt by exact Hsl. rewrite nth_repeat_lt by exact Hfr.
      reflexivity.
Qed.

(** X3: take a call with at least three frames, a positive [tr], more than
    60 respiration samples and a sampling interval between 0 and 0.5 s
    (so that the low-pass filter runs), whose slice order is not a
    permutation of [0, nslices). The call raises the builtin [IndexError],
    not the module's typed error, at the first slice number [sl0] that the
    order misses. It has then overwritten [phases] with a tensor of shape
    [nslices, nframes, 2] in which the rows of every slice from [sl0] on
    still hold the zeros they were allocated with, only the rows of the
    slices below [sl0] having been written; [heart_rate] and [regressors]
    are left as they were. *)
Theorem non_permutation_raises_index_error (firwin : nat -> R -> list R)
    (filtfilt : list R -> list R -> list R -> list R) (self : NIMSPhysio) :
  (forall b a x, length (filtfilt b a x) = length x) ->
  0 < tr self ->
  scan_duration self == QofNat (nframes self) * tr self ->
  filter_runs self ->
  (3 <= nframes self)%nat ->
  ~ Permutation (slice_order self) (seq 0 (length (slice_order self))) ->
  let r := compute_regressors firwin filtfilt self in
  raised r = Some IndexError /\
  ~ is_physio_error IndexError /\
  heart_rate (final r) = heart_rate self /\
  regressors (final r) = regressors self /\
  exists sl0 P,
    (sl0 < length (slice_order self))%nat /\
    ~ In sl0 (slice_order self) /\
    (forall sl, (sl < sl0)%nat -> In sl (slice_order self)) /\
    phases (final r) = Some P /\
    shape3 (length (slice_order self)) (nframes self) 2 P /\
    forall sl fr, (sl0 <= sl)%nat -> (sl < length (slice_order self))%nat ->
      (fr < nframes self)%nat -> nth fr (nth sl P []) [] = [0%R; 0%R].
Proof.
  intros Hf Ht Hd [Hw _] Hn Hnp r. subst r.
  destruct (amin_nonempty (resp_wave self)) as [mn Emn]; [lia|].
  destruct (first_missing_slice _ Hnp) as [sl0 [H0 [Hmiss Hbelow]]].
  pose proof (phases_stage_shape firwin filtfilt (shift_resp mn self)) as Hsh.
  destruct (phases_stage_stops_at firwin filtfilt (shift_resp mn self) sl0)
    as [P [EP HZ]]; auto.
  - simpl. rewrite length_map. lia.
  - rewrite EP in Hsh. simpl in Hsh.
    unfold compute_regressors.
    assert (E3 : (nframes self <? 3)%nat = false) by (apply Nat.ltb_ge; lia).
    rewrite E3, Emn, EP. simpl.
    split; [reflexivity|]. split; [exact (fun H => H)|].
    split; [reflexivity|]. split; [reflexivity|].
    exists sl0, P. split; [exact H0|]. split; [exact Hmiss|].
    split; [exact Hbelow|]. split; [reflexivity|]. split; [exact Hsh|exact HZ].
Qed.

Lemma non_permutation_raises_index_error_witness :
  let self := init 2 3 3 (Some [0; 2; 2]%nat) false (1 # 100) (4 # 100) [] []
                   (map (fun i => QofNat (i mod 7)) (seq 0 70)) in
  let r := compute_regressors firwin_none filtfilt_none self in
  raised r = Some IndexError /\
  regressors (final r) = None /\
  exists sl0 P,
    ~ In sl0 [0; 2; 2]%nat /\ In 0%nat [0; 2; 2]%nat /\
    phases (final r) = Some P /\
    nth 2 (nth 1 P []) [] = [0%R; 0%R] /\
    nth 0 (nth 2 P []) [] = [0%R; 0%R].
Proof.
  intros self r.
  destruct (non_permutation_raises_index_error firwin_none filtfilt_none self)
    as [Hr [_ [_ [Hreg [sl0 [P [H0 [Hm [Hb [HP [_ HZ]]]]]]]]]]].
  - reflexivity.
  - reflexivity.
  - reflexivity.
  - split; [simpl; lia|]. split; reflexivity.
  - simpl. lia.
  - simpl. intros HP. apply Permutation_sym in HP.
    assert (Hin : In 1%nat [0; 2; 2]%nat).
    { apply (Permutation_in _ HP). simpl. auto. }
    simpl in Hin. intuition discriminate.
  - split; [exact Hr|]. split; [exact Hreg|].
    assert (Hsl0 : (sl0 <= 1)%nat).
    { destruct (Nat.le_gt_cases sl0 1) as [H|H]; [exact H|].
      exfalso. assert (Hin : In 1%nat [0; 2; 2]%nat) by (apply Hb; exact H).
      simpl in Hin. intuition discriminate. }
    exists sl0, P. split; [exact Hm|]. split; [simpl; auto|].
    split; [exact HP|]. split.
    + apply HZ; simpl; lia.
    + apply HZ; simpl; lia.
Defined.

Local Open Scope Q_scope.

(** ** The slice times of an int [tr] *)

(** With a float [tr] the Python 2 expression is the one of
    [slice_times]. *)
Lemma slice_times_py2_float (self : NIMSPhysio) (nslc cur : nat) :
  scan_duration self = QofNat (nframes self) * tr self ->
  slice_times_py2 (Float (tr self)) (nframes self) nslc cur =
  slice_times self nslc cur.
Proof.
  intros Hd. unfold slice_times_py2, slice_times. simpl. now rewrite Hd.
Qed.

(** Under [division_exact] the Python 2 quotient is the true one, for an
    int and for a float [tr] alike. *)
Lemma division_exact_quotient (self : NIMSPhysio) (x : number) :
  division_exact self -> (0 < length (slice_order self))%nat ->
  float_of x == tr self ->
  float_of (div_int x (Z.of_nat (length (slice_order self)))) ==
    tr self / QofNat (length (slice_order self)).
Proof.
  intros Hex Hn Hx. destruct x as [z|q]; simpl in *.
  - destruct (Hex z) as [k Hk]; [symmetry; exact Hx|].
    rewrite <- Hx. subst z. rewrite Z.div_mul by lia.
    unfold QofNat. rewrite inject_Z_mult. field.
    change 0 with (inject_Z 0). rewrite inject_Z_injective. lia.
  - rewrite Hx. reflexivity.
Qed.

Lemma int_offset_bounds (tr : Z) (nslc cur : nat) :
  (0 < tr)%Z -> (cur < nslc)%nat ->
  0 <= inject_Z (tr / Z.of_nat nslc) * (QofNat cur + (1 # 2)) /\
  inject_Z (tr / Z.of_nat nslc) * (QofNat cur + (1 # 2)) < inject_Z tr.
Proof.
  intros Ht Hc.
  assert (Hn : (0 < Z.of_nat nslc)%Z) by lia.
  pose proof (Z.div_pos tr (Z.of_nat nslc) ltac:(lia) Hn) as Hq0.
  pose proof (Z.mul_div_le tr (Z.of_nat nslc) Hn) as Hq1.
  set (q := (tr / Z.of_nat nslc)%Z) in *.
  assert (Hq0' : 0 <= inject_Z q) by (change 0 with (inject_Z 0); now rewrite <- Zle_Qle).
  assert (Hc0 : 0 <= QofNat cur) by apply QofNat_nonneg.
  split; [qnra|].
  destruct (Z.eq_dec q 0) as [E|E].
  - rewrite E. change (inject_Z 0) with 0.
    assert (0 < inject_Z tr) by (change 0 with (inject_Z 0); now rewrite <- Zlt_Qlt).
    qlra.
  - assert (Hq2 : 1 <= inject_Z q)
      by (change 1 with (inject_Z 1); rewrite <- Zle_Qle; lia).
    assert (Hc1 : QofNat cur + 1 <= QofNat nslc).
    { rewrite <- QofNat_S. apply QofNat_le. lia. }
    assert (Hm : QofNat nslc * inject_Z q <= inject_Z tr).
    { unfold QofNat. rewrite <- inject_Z_mult, <- Zle_Qle. exact Hq1. }
    qnra.
Qed.

Lemma slice_times_py2_int_length (tr : Z) (nframes nslc cur : nat) :
  (0 < tr)%Z -> (cur < nslc)%nat ->
  length (slice_times_py2 (Int tr) nframes nslc cur) = nframes.
Proof.
  intros Ht Hc. unfold slice_times_py2. simpl float_of. rewrite arange_length.
  destruct (int_offset_bounds tr nslc cur Ht Hc) as [H0 H1].
  set (off := inject_Z (tr / Z.of_nat nslc) * (QofNat cur + (1 # 2))) in *.
  assert (Ht' : 0 < inject_Z tr)
    by (change 0 with (inject_Z 0); now rewrite <- Zlt_Qlt).
  rewrite (Qceiling_unique _ (Z.of_nat nframes)).
  - apply Nat2Z.id.
  - fold (QofNat nframes). apply Qlt_shift_div_l; [exact Ht'|]. qlra.
  - fold (QofNat nframes). apply Qle_shift_div_r; [exact Ht'|]. qlra.
Qed.

(** C8: the slice-time vector is not the claimed one when [tr] is an int
    smaller than the number of slices, as with the default [tr=2] and the
    36 slices of the class's own example. Python 2 then floors
    [self.tr/nslc] to 0: the vector still has [nframes] entries, but entry
    [k] is [k*tr] for every acquisition position [cur], below the claimed
    [(tr/nslices)*(cur+0.5) + k*tr]; so every slice is given the times of
    the start of its frames, where the claim has the slices [tr/nslices]
    times the difference of their positions apart. *)
Theorem int_tr_slice_times (tr : Z) (nframes nslc cur : nat) :
  (0 < tr)%Z -> (tr < Z.of_nat nslc)%Z -> (cur < nslc)%nat ->
  length (slice_times_py2 (Int tr) nframes nslc cur) = nframes /\
  forall k, (k < nframes)%nat ->
    exists t, Np.getnat (slice_times_py2 (Int tr) nframes nslc cur) k = inr t /\
      t == QofNat k * inject_Z tr /\
      t < (inject_Z tr / QofNat nslc) * (QofNat cur + (1 # 2))
          + QofNat k * inject_Z tr.
Proof.
  intros Ht Hlt Hc.
  assert (Ez : (tr / Z.of_nat nslc)%Z = 0%Z) by (apply Z.div_small; lia).
  split; [now apply slice_times_py2_int_length|].
  - intros k Hk. eexists. split.
    + unfold Np.getnat. unfold slice_times_py2 at 1.
      rewrite arange_nth_error; [reflexivity|].
      fold (slice_times_py2 (Int tr) nframes nslc cur).
      rewrite slice_times_py2_int_length; auto.
    + simpl float_of. rewrite Ez. change (inject_Z 0) with 0.
      split; [ring|].
      assert (Ht' : 0 < inject_Z tr)
        by (change 0 with (inject_Z 0); now rewrite <- Zlt_Qlt).
      assert (Hn : 0 < QofNat nslc).
      { unfold QofNat. change 0 with (inject_Z 0). rewrite <- Zlt_Qlt. lia. }
      assert (Hc0 : 0 <= QofNat cur) by apply QofNat_nonneg.
      assert (Hd : 0 < inject_Z tr / QofNat nslc).
      { apply Qlt_shift_div_l; [exact Hn|]. qlra. }
      qnra.
Qed.

Lemma int_tr_slice_times_witness :
  length (slice_times_py2 (Int 2) 120 36 35) = 120%nat /\
  (exists t, Np.getnat (slice_times_py2 (Int 2) 120 36 35) 0 = inr t /\
     t == 0 /\ t < 71 # 36) /\
  (exists t, Np.getnat (slice_times_py2 (Int 2) 120 36 0) 119 = inr t /\
     t == 238 /\ t < 8569 # 36).
Proof.
  destruct (int_tr_slice_times 2 120 36 35) as [HL Hk]; [lia|lia|lia|].
  split; [exact HL|]. split.
  - destruct (Hk 0%nat ltac:(lia)) as [t [Et [E0 Hlt]]].
    exists t. split; [exact Et|]. split.
    + rewrite E0. reflexivity.
    + eapply Qlt_le_trans; [exact Hlt|]. vm_compute. discriminate.
  - destruct (int_tr_slice_times 2 120 36 0) as [_ Hk0]; [lia|lia|lia|].
    destruct (Hk0 119%nat ltac:(lia)) as [t [Et [E0 Hlt]]].
    exists t. split; [exact Et|]. split.
    + rewrite E0. reflexivity.
    + eapply Qlt_le_trans; [exact Hlt|]. vm_compute. discriminate.
Defined.
